(** * Offline raster-to-vector tracer (src/services/offlineTracer.ts)

    A shallow embedding of the tracing engine and the properties its
    specification states about it.

    Conventions of the embedding.

    - JavaScript numbers that hold array indices, pixel coordinates and the
      simplification value are integers ([Z]).
    - GLSL [float] values are exact rationals ([Q]); a decimal literal of the
      shader is the rational it denotes.  Rounding errors of 32-bit floats are
      outside the model.
    - [Uint8Array] and [Uint32Array] are lists of integers of fixed length,
      read with [get] (out of range: [undefined], here [None]) and written
      with [set] (out of range: ignored).
    - A [Set<number>] is the list of its elements in insertion order, which
      is the order [forEach] visits them in.
    - Strings are built exactly as the template literals build them.
    - The WebGL calls of [processOnGPU] are modelled by what they do to the
      data: the upload of the image as a texture without a vertical flip,
      sampling with linear filtering and clamping to the edge, the
      full-viewport quad with its texture coordinates, the conversion of a
      fragment to four bytes, and [readPixels], which returns the window
      rows from the bottom one upwards.
    - [processOnGPU] and [traceImageOffline] start from the decoded image
      and describe the run in which the GPU is available.  The two
      [throw]s of [processOnGPU] (no WebGL 2, shaders that do not compile)
      and any other exception the handler catches are the failure paths
      of [onload]; the promise around it, with the file that does not
      decode, is [App.traceImageOfflinePromise].
    - Module [App] embeds the batch queue of App.tsx that calls the
      tracer: the queue is the list the state updates map over, and the
      batch runs without any other handler changing the queue in
      between. *)

From Stdlib Require Import ZArith QArith Qround Qminmax Qabs Lia Lqa.
From stdpp Require Import base list strings pretty.

Local Open Scope Z_scope.

#[local] Set Warnings "-clear-no-such-hyp".

(** ** Vectors of the shading language *)

Definition vec2 : Type := Q * Q.
Definition vec3 : Type := Q * Q * Q.
Definition vec4 : Type := vec3 * Q.

Definition vmap (f : Q → Q) (v : vec3) : vec3 :=
  let '(r, g, b) := v in (f r, f g, f b).

Definition vadd (u v : vec3) : vec3 :=
  let '(r1, g1, b1) := u in
  let '(r2, g2, b2) := v in
  (r1 + r2, g1 + g2, b1 + b2)%Q.

Definition vscale (v : vec3) (k : Q) : vec3 := vmap (λ c, c * k)%Q v.

Definition veq (u v : vec3) : Prop :=
  let '(r1, g1, b1) := u in
  let '(r2, g2, b2) := v in
  (r1 == r2 ∧ g1 == g2 ∧ b1 == b2)%Q.

Definition Qclamp (lo hi x : Q) : Q := Qmin (Qmax x lo) hi.

(** ** The image and the texture made from it *)

(** A decoded image: its natural size and the RGB bytes of the pixel in
    column [x] of row [y], rows counted from the top of the picture. *)
Record HTMLImageElement := {
  naturalWidth : Z;
  naturalHeight : Z;
  pixel : Z → Z → Z * Z * Z
}.

(** [gl.pixelStorei(gl.UNPACK_FLIP_Y_WEBGL, false)] followed by
    [gl.texImage2D(..., img)]: the rows of the image are transferred in
    their own order, the first (top) row first, and the first row
    transferred is texel row 0.  Texel [(s, t)] is therefore the pixel in
    column [s] of row [t] counted from the top, with channels normalised
    to [0, 1]. *)
Definition texel (img : HTMLImageElement) (s t : Z) : vec3 :=
  let '(r, g, b) := pixel img s t in
  (inject_Z r / 255, inject_Z g / 255, inject_Z b / 255)%Q.

(** [texture(u_image, uv).rgb] with [TEXTURE_WRAP_S/T = CLAMP_TO_EDGE] and
    [TEXTURE_MIN/MAG_FILTER = LINEAR]: the coordinate is scaled to texel
    space and clamped to the centres of the edge texels, then the four
    surrounding texels are blended bilinearly. *)
Definition texture (img : HTMLImageElement) (uv : vec2) : vec3 :=
  let W := naturalWidth img in
  let H := naturalHeight img in
  let '(u, v) := uv in
  let s := (Qclamp (1 # 2) (inject_Z W - (1 # 2)) (u * inject_Z W) - (1 # 2))%Q in
  let t := (Qclamp (1 # 2) (inject_Z H - (1 # 2)) (v * inject_Z H) - (1 # 2))%Q in
  let i0 := Qfloor s in
  let j0 := Qfloor t in
  let i1 := Z.min (i0 + 1) (W - 1) in
  let j1 := Z.min (j0 + 1) (H - 1) in
  let a := (s - inject_Z i0)%Q in
  let b := (t - inject_Z j0)%Q in
  vadd (vadd (vscale (texel img i0 j0) ((1 - a) * (1 - b)))
             (vscale (texel img i1 j0) (a * (1 - b))))
       (vadd (vscale (texel img i0 j1) ((1 - a) * b))
             (vscale (texel img i1 j1) (a * b))).

(** ** The fragment shader [PACKED_OPTIMIZED_SHADER] *)

Module Shader.

Definition luminance (c : vec3) : Q :=
  let '(r, g, b) := c in (r * 0.299 + g * 0.587 + b * 0.114)%Q.

(** One channel of [quantize]:
    [floor(color * 255.0 / u_qFactor + 0.5) * u_qFactor / 255.0]. *)
Definition quantize1 (u_qFactor : Q) (color : Q) : Q :=
  (inject_Z (Qfloor (color * 255 / u_qFactor + 0.5)) * u_qFactor / 255)%Q.

Definition quantize (u_qFactor : Q) (color : vec3) : vec3 :=
  vmap (quantize1 u_qFactor) color.

(** The 5x5 kernel [w]. *)
Definition w : list Q :=
  [ 0.003; 0.013; 0.022; 0.013; 0.003;
    0.013; 0.059; 0.097; 0.059; 0.013;
    0.022; 0.097; 0.159; 0.097; 0.022;
    0.013; 0.059; 0.097; 0.059; 0.013;
    0.003; 0.013; 0.022; 0.013; 0.003 ]%Q.

Definition offset (v_texCoord px : vec2) (i j : Q) : vec2 :=
  ((v_texCoord.1 + i * px.1)%Q, (v_texCoord.2 + j * px.2)%Q).

(** The two nested loops that accumulate [blurred]; [sample] is
    [texture(u_image, _).rgb]. *)
Definition blurTap (sample : vec2 → vec3) (v_texCoord px : vec2)
    (j : Z) (blurred : vec3) (i : Z) : vec3 :=
  let idx := (j + 2) * 5 + (i + 2) in
  vadd blurred
       (vscale (sample (offset v_texCoord px (inject_Z i) (inject_Z j)))
               (nth (Z.to_nat idx) w 0%Q)).

Definition blurRow (sample : vec2 → vec3) (v_texCoord px : vec2)
    (blurred : vec3) (j : Z) : vec3 :=
  foldl (blurTap sample v_texCoord px j) blurred (seqZ (-2) 5).

Definition blur (sample : vec2 → vec3) (v_texCoord px : vec2) : vec3 :=
  foldl (blurRow sample v_texCoord px) (0, 0, 0)%Q (seqZ (-2) 5).

(** [main]: the value written to [fragColor]. *)
Definition main (sample : vec2 → vec3) (u_resolution : vec2) (u_qFactor : Q)
    (v_texCoord : vec2) : vec4 :=
  let px : vec2 := ((1 / u_resolution.1)%Q, (1 / u_resolution.2)%Q) in
  let blurred := blur sample v_texCoord px in
  let qColor := quantize u_qFactor blurred in
  let sLeft := luminance (quantize u_qFactor (sample (offset v_texCoord px (-1) 0))) in
  let sRight := luminance (quantize u_qFactor (sample (offset v_texCoord px 1 0))) in
  let sUp := luminance (quantize u_qFactor (sample (offset v_texCoord px 0 (-1)))) in
  let sDown := luminance (quantize u_qFactor (sample (offset v_texCoord px 0 1))) in
  let edge := (Qabs (sLeft - sRight) + Qabs (sUp - sDown))%Q in
  (qColor, if Qlt_le_dec 0.01 edge then 1%Q else 0%Q).

End Shader.

(** ** [processOnGPU] *)

(** [Math.max(4, Math.floor(simplification / 3))]. *)
Definition qFactor (simplification : Z) : Z := Z.max 4 (simplification / 3).

(** The two triangles cover the whole viewport and pair the clip-space
    corner (-1,-1) with texture coordinate (0,0) and (1,1) with (1,1), so
    the fragment of window pixel [(x, y)] (window rows are counted from
    the bottom) receives the coordinate of its own centre. *)
Definition v_texCoord (width height x y : Z) : vec2 :=
  (((inject_Z x + (1 # 2)) / inject_Z width)%Q,
   ((inject_Z y + (1 # 2)) / inject_Z height)%Q).

(** Storing a fragment channel in the 8-bit drawing buffer: clamp to
    [0, 1], scale by 255, round to nearest. *)
Definition unorm8 (c : Q) : Z := Qfloor (Qclamp 0 1 c * 255 + (1 # 2))%Q.

Definition fragColor (img : HTMLImageElement) (simplification x y : Z) : vec4 :=
  let width := naturalWidth img in
  let height := naturalHeight img in
  Shader.main (texture img) (inject_Z width, inject_Z height)
    (inject_Z (qFactor simplification)) (v_texCoord width height x y).

(** The four bytes [gl.readPixels] stores for window pixel [(x, y)]. *)
Definition readPixel (img : HTMLImageElement) (simplification y x : Z) : list Z :=
  let '((r, g, b), a) := fragColor img simplification x y in
  [unorm8 r; unorm8 g; unorm8 b; unorm8 a].

(** [gl.readPixels(0, 0, width, height, RGBA, UNSIGNED_BYTE, packedData)]:
    window rows from the bottom one upwards, each from left to right. *)
Definition processOnGPU (img : HTMLImageElement) (simplification : Z) : list Z * Z * Z :=
  let width := naturalWidth img in
  let height := naturalHeight img in
  let packedData :=
    mjoin ((λ y, mjoin (readPixel img simplification y <$> seqZ 0 width)) <$> seqZ 0 height) in
  (packedData, width, height).

(** ** Typed arrays and sets *)

Definition get (a : list Z) (i : Z) : option Z :=
  if decide (0 ≤ i) then a !! Z.to_nat i else None.

Definition set (a : list Z) (i v : Z) : list Z :=
  if decide (0 ≤ i) then <[Z.to_nat i := v]> a else a.

(** [Set.prototype.add]. *)
Definition add (s : list Z) (v : Z) : list Z :=
  if decide (v ∈ s) then s else s ++ [v].

(** ** [traceImageOffline] *)

Definition dq : string := String (Ascii.ascii_of_nat 34) EmptyString.

(** An element of [packedData] used as an operand of [<<] and [|];
    [undefined] converts to 0. *)
Definition byteAt (packedData : list Z) (i : Z) : Z := default 0 (get packedData i).

Definition srcIdx (width y x : Z) : Z := (y * width + x) * 4.

Definition packedColor (packedData : list Z) (srcIdx : Z) : Z :=
  Z.lor (Z.lor (Z.shiftl (byteAt packedData srcIdx) 16)
               (Z.shiftl (byteAt packedData (srcIdx + 1)) 8))
        (byteAt packedData (srcIdx + 2)).

(** Body of the inner repacking loop; the state is
    [(quantizedColors, uniqueColors)]. *)
Definition repackPixel (packedData : list Z) (width y : Z)
    (st : list Z * list Z) (x : Z) : list Z * list Z :=
  let '(quantizedColors, uniqueColors) := st in
  let rowOffset := y * width in
  let c := packedColor packedData (srcIdx width y x) in
  (set quantizedColors (rowOffset + x) c,
   if decide (c ≠ 0) then add uniqueColors c else uniqueColors).

Definition repackRow (packedData : list Z) (width : Z)
    (st : list Z * list Z) (y : Z) : list Z * list Z :=
  foldl (repackPixel packedData width y) st (seqZ 0 width).

Definition repack (packedData : list Z) (width height : Z) : list Z * list Z :=
  foldl (repackRow packedData width)
        (replicate (Z.to_nat (width * height)) 0, [])
        (seqZ 0 height).

(** [Math.max(1, Math.floor(simplification / 20))]. *)
Definition rowStep (simplification : Z) : Z := Z.max 1 (simplification / 20).

(** The values [svgY] takes in
    [for (let svgY = 0; svgY < height; svgY += rowStep)]; the loop runs at
    most [height] times when [rowStep] is positive. *)
Fixpoint svgRowsFrom (fuel : nat) (svgY height rowStep : Z) : list Z :=
  match fuel with
  | O => []
  | S fuel' =>
      if decide (svgY < height)
      then svgY :: svgRowsFrom fuel' (svgY + rowStep) height rowStep
      else []
  end.

Definition svgRows (height rowStep : Z) : list Z :=
  svgRowsFrom (Z.to_nat height) 0 height rowStep.

Definition dataRowIndex (height svgY : Z) : Z := height - 1 - svgY.
Definition dataRowOffset (width height svgY : Z) : Z := dataRowIndex height svgY * width.

(** [`M${startX},${svgY}h${x - startX}v${rowStep}h${startX - x}z `]. *)
Definition fragment (startX svgY x rowStep : Z) : string :=
  "M" +:+ pretty startX +:+ "," +:+ pretty svgY +:+
  "h" +:+ pretty (x - startX) +:+ "v" +:+ pretty rowStep +:+
  "h" +:+ pretty (startX - x) +:+ "z ".

(** Body of the column loop; the state is [(startX, pathData)]. *)
Definition scanPixel (quantizedColors : list Z) (color rowStep svgY dataRowOffset : Z)
    (st : Z * string) (x : Z) : Z * string :=
  let '(startX, pathData) := st in
  if decide (get quantizedColors (dataRowOffset + x) = Some color) then
    (if decide (startX = -1) then x else startX, pathData)
  else if decide (startX ≠ -1) then
    (-1, pathData +:+ fragment startX svgY x rowStep)
  else (startX, pathData).

(** Body of the row loop. *)
Definition scanRow (quantizedColors : list Z) (width height color rowStep : Z)
    (pathData : string) (svgY : Z) : string :=
  let offs := dataRowOffset width height svgY in
  let '(startX, pathData) :=
    foldl (scanPixel quantizedColors color rowStep svgY offs) (-1, pathData) (seqZ 0 width) in
  if decide (startX ≠ -1)
  then pathData +:+ fragment startX svgY width rowStep
  else pathData.

Definition pathDataOf (quantizedColors : list Z) (width height rowStep color : Z) : string :=
  foldl (scanRow quantizedColors width height color rowStep) EmptyString (svgRows height rowStep).

(** [`<path d="${pathData}" fill="rgb(${r},${g},${b})" />`]. *)
Definition pathElement (pathData : string) (color : Z) : string :=
  let r := Z.land (Z.shiftr color 16) 255 in
  let g := Z.land (Z.shiftr color 8) 255 in
  let b := Z.land color 255 in
  "<path d=" +:+ dq +:+ pathData +:+ dq +:+ " fill=" +:+ dq +:+
  "rgb(" +:+ pretty r +:+ "," +:+ pretty g +:+ "," +:+ pretty b +:+ ")" +:+ dq +:+ " />".

(** Body of the callback of [uniqueColors.forEach]; the state is [svgPaths]. *)
Definition emitColor (quantizedColors : list Z) (width height rowStep : Z)
    (svgPaths : string) (color : Z) : string :=
  let pathData := pathDataOf quantizedColors width height rowStep color in
  match pathData with
  | EmptyString => svgPaths
  | _ => svgPaths +:+ pathElement pathData color
  end.

Definition svgDocument (width height : Z) (svgPaths : string) : string :=
  "<svg viewBox=" +:+ dq +:+ "0 0 " +:+ pretty width +:+ " " +:+ pretty height +:+ dq +:+
  " xmlns=" +:+ dq +:+ "http://www.w3.org/2000/svg" +:+ dq +:+
  " shape-rendering=" +:+ dq +:+ "crispEdges" +:+ dq +:+ ">" +:+ svgPaths +:+ "</svg>".

(** Everything [traceImageOffline] does once [processOnGPU] has returned. *)
Definition vectorize (packedData : list Z) (width height simplification : Z) : string :=
  let '(quantizedColors, uniqueColors) := repack packedData width height in
  let svgPaths :=
    foldl (emitColor quantizedColors width height (rowStep simplification))
          EmptyString uniqueColors in
  svgDocument width height svgPaths.

Definition traceImageOffline (img : HTMLImageElement) (simplification : Z) : string :=
  let '(packedData, width, height) := processOnGPU img simplification in
  vectorize packedData width height simplification.

(** ** Auxiliary definitions *)

(** The concatenation of a list of strings. *)
Fixpoint joinS (l : list string) : string :=
  match l with
  | [] => EmptyString
  | s :: l' => s +:+ joinS l'
  end.

(** A sequence of writes [a[i] = v], as a list of pairs [(i, v)]. *)
Definition writeAll (a : list Z) (ws : list (Z * Z)) : list Z :=
  foldl (λ a iv, set a iv.1 iv.2) a ws.

(** [if (packedColor !== 0) uniqueColors.add(packedColor)]. *)
Definition addNonZero (s : list Z) (c : Z) : list Z :=
  if decide (c ≠ 0) then add s c else s.

(** The packed colour the loop computes for column [x] of buffer row [y]. *)
Definition colorAt (packedData : list Z) (width y x : Z) : Z :=
  packedColor packedData (srcIdx width y x).

(** The writes to [quantizedColors], in program order. *)
Definition repackWrites (packedData : list Z) (width height : Z) : list (Z * Z) :=
  y ← seqZ 0 height; (λ x, (y * width + x, colorAt packedData width y x)) <$> seqZ 0 width.

(** The colours in the order the loop meets them. *)
Definition scanOrder (packedData : list Z) (width height : Z) : list Z :=
  y ← seqZ 0 height; colorAt packedData width y <$> seqZ 0 width.

(** What follows the column loop: a run still open is closed at [xend]. *)
Definition closeRun (rowStep svgY : Z) (st : Z * string) (xend : Z) : string :=
  if decide (st.1 ≠ -1) then st.2 +:+ fragment st.1 svgY xend rowStep else st.2.

(** The sentinel [-1] of [startX] means that no run is active. *)
Definition openRun (startX : Z) : option Z :=
  if decide (startX = -1) then None else Some startX.

(** The shape elements of the document: the colour and the path data of
    every unique colour whose path data is not empty, in the order of
    [uniqueColors]. *)
Definition shapes (packedData : list Z) (width height simplification : Z) : list (Z * string) :=
  let '(quantizedColors, uniqueColors) := repack packedData width height in
  filter (λ sh, sh.2 ≠ EmptyString)
         ((λ c, (c, pathDataOf quantizedColors width height (rowStep simplification) c))
            <$> uniqueColors).

(** The 24-bit integer [(R << 16) | (G << 8) | B]. *)
Definition packRGB (r g b : Z) : Z := Z.lor (Z.lor (Z.shiftl r 16) (Z.shiftl g 8)) b.

(** The weight of tap [(i, j)]. *)
Definition weight (i j : Z) : Q := nth (Z.to_nat ((j + 2) * 5 + (i + 2))) Shader.w 0%Q.

Definition rowWeight (ks : list Z) (j : Z) : Q := foldr (λ i s, weight i j + s)%Q 0%Q ks.

Definition kernelWeight (ks js : list Z) : Q := foldr (λ j s, rowWeight ks j + s)%Q 0%Q js.

(** The sum of the 25 entries of the kernel. *)
Definition kernelSum : Q := foldr Qplus 0%Q Shader.w.

Definition clampZ (lo hi x : Z) : Z := Z.min (Z.max x lo) hi.

(** The pixel of the picture that tap [(i, j)] of the fragment of window
    pixel [(x, y)] reads: column [x + i] of row [y + j] counted from the
    top of the picture, clamped to the picture. *)
Definition pictureSample (img : HTMLImageElement) (x y i j : Z) : vec3 :=
  texel img (clampZ 0 (naturalWidth img - 1) (x + i))
            (clampZ 0 (naturalHeight img - 1) (y + j)).

(** The blur written over the taps [t i j] instead of over texture
    coordinates. *)
Definition blurTaps (t : Z → Z → vec3) : vec3 :=
  foldl (λ blurred j,
           foldl (λ blurred i, vadd blurred (vscale (t i j) (weight i j)))
                 blurred (seqZ (-2) 5))
        (0, 0, 0)%Q (seqZ (-2) 5).

(** [fragColor] written over the pixels of the picture. *)
Definition fragColorAt (img : HTMLImageElement) (simplification x y : Z) : vec4 :=
  let q := inject_Z (qFactor simplification) in
  let t := pictureSample img x y in
  let qColor := Shader.quantize q (blurTaps t) in
  let sLeft := Shader.luminance (Shader.quantize q (t (-1) 0)) in
  let sRight := Shader.luminance (Shader.quantize q (t 1 0)) in
  let sUp := Shader.luminance (Shader.quantize q (t 0 (-1))) in
  let sDown := Shader.luminance (Shader.quantize q (t 0 1)) in
  let edge := (Qabs (sLeft - sRight) + Qabs (sUp - sDown))%Q in
  (qColor, if Qlt_le_dec 0.01 edge then 1%Q else 0%Q).

Definition readPixelAt (img : HTMLImageElement) (simplification y x : Z) : list Z :=
  let '((r, g, b), a) := fragColorAt img simplification x y in
  [unorm8 r; unorm8 g; unorm8 b; unorm8 a].

Definition processOnGPUAt (img : HTMLImageElement) (simplification : Z) : list Z * Z * Z :=
  let width := naturalWidth img in
  let height := naturalHeight img in
  (mjoin ((λ y, mjoin (readPixelAt img simplification y <$> seqZ 0 width)) <$> seqZ 0 height),
   width, height).

(** The colour the buffer holds for the fragment of window pixel [(x, y)]. *)
Definition pixelColor (img : HTMLImageElement) (simplification x y : Z) : Z :=
  let '((r, g, b), _) := fragColorAt img simplification x y in
  packRGB (unorm8 r) (unorm8 g) (unorm8 b).

(** ** The scan as the specification words it *)

(** A path fragment of the data model: the rectangle with top-left corner
    [(rectX, rectY)] and the given width and height. *)
Record Rect := MkRect { rectX : Z; rectY : Z; rectW : Z; rectH : Z }.

(** The closed outline of a rectangle: move to its corner, go right by its
    width, down by its height, left by its width, and close. *)
Definition rectPath (r : Rect) : string :=
  "M" +:+ pretty (rectX r) +:+ "," +:+ pretty (rectY r) +:+
  "h" +:+ pretty (rectW r) +:+ "v" +:+ pretty (rectH r) +:+
  "h" +:+ pretty (- rectW r) +:+ "z ".

(** Row [r] of a buffer that stores its rows one after the other. *)
Definition bufferRow (buffer : list Z) (width r : Z) : list Z :=
  take (Z.to_nat width) (drop (Z.to_nat (r * width)) buffer).

(** The runs of colour [c] in a row, scanned from column [x] on with the
    run [startX] open ([None]: no active run): a run opens at the first
    column whose pixel equals [c], closes as [(startX, x)] at the first
    column [x] whose pixel differs, and a run still open at the end of the
    row closes there. *)
Fixpoint specRuns (c : Z) (row : list Z) (x : Z) (startX : option Z) : list (Z * Z) :=
  match row with
  | [] =>
      match startX with
      | Some s => [(s, x)]
      | None => []
      end
  | p :: row' =>
      if decide (p = c) then specRuns c row' (x + 1) (Some (default x startX))
      else
        match startX with
        | Some s => (s, x) :: specRuns c row' (x + 1) None
        | None => specRuns c row' (x + 1) None
        end
  end.

(** The output rows that are scanned: 0, rowStep, 2 rowStep, ... below
    [height]. *)
Definition specSampledRows (height rowStep : Z) : list Z :=
  (λ k, k * rowStep) <$> seqZ 0 ((height + rowStep - 1) / rowStep).

Definition specRowRects (buffer : list Z) (width height rowStep c svgY : Z) : list Rect :=
  (λ run, MkRect run.1 svgY (run.2 - run.1) rowStep) <$>
  specRuns c (bufferRow buffer width (height - 1 - svgY)) 0 None.

Definition specRects (buffer : list Z) (width height rowStep c : Z) : list Rect :=
  svgY ← specSampledRows height rowStep; specRowRects buffer width height rowStep c svgY.

(** A maximal run of colour [c] in a row: columns [s] to [e - 1] hold
    [c], and neither column [s - 1] nor column [e] does. *)
Definition isRun (c : Z) (row : list Z) (s e : Z) : Prop :=
  0 ≤ s < e ∧ e ≤ Z.of_nat (length row) ∧
  (∀ k, s ≤ k < e → get row k = Some c) ∧
  get row e ≠ Some c ∧
  get row (s - 1) ≠ Some c.

(** What the scan knows about the columns [pre] it has passed: the open
    run reaches up to them, or the last of them does not hold [c]. *)
Definition scanned (c : Z) (pre : list Z) (startX : option Z) : Prop :=
  match startX with
  | None => get pre (Z.of_nat (length pre) - 1) ≠ Some c
  | Some s0 =>
      0 ≤ s0 < Z.of_nat (length pre) ∧
      (∀ k, s0 ≤ k < Z.of_nat (length pre) → get pre k = Some c) ∧
      get pre (s0 - 1) ≠ Some c
  end.

(** ** Rounding as the specification words it *)

(** Rounding to the nearest integer, halves upwards (as [Math.round]). *)
Definition specRound (x : Q) : Z := Qfloor (x + (1 # 2)).

(** [q(c) = round(c*255/qFactor) * qFactor], on the scale 0..255. *)
Definition specQuantize (qFactor : Z) (c : Q) : Z :=
  specRound (c * 255 / inject_Z qFactor) * qFactor.

(** ** Pictures used as examples *)

(** The 4x4 picture of the specification's concrete scenario: a blue top
    row over red. *)
Definition blueOverRed : HTMLImageElement :=
  {| naturalWidth := 4; naturalHeight := 4;
     pixel := λ x y, if decide (y = 0) then (0, 0, 255) else (255, 0, 0) |}.

(** A 1x1 white picture: its blurred channels are the largest the blur
    can produce. *)
Definition whitePixel : HTMLImageElement :=
  {| naturalWidth := 1; naturalHeight := 1; pixel := λ _ _, (255, 255, 255) |}.

Definition whiteBlurred : Q :=
  (Shader.blur (texture whitePixel) (v_texCoord 1 1 0 0) (1, 1)%Q).1.1.

(** A white top row over black, 2 wide and 4 high. *)
Definition whiteOverBlack : HTMLImageElement :=
  {| naturalWidth := 2; naturalHeight := 4;
     pixel := λ x y, if decide (y = 0) then (255, 255, 255) else (0, 0, 0) |}.

(** A white pixel over a black one. *)
Definition twoRows : HTMLImageElement :=
  {| naturalWidth := 1; naturalHeight := 2;
     pixel := λ x y, if decide (y = 0) then (255, 255, 255) else (0, 0, 0) |}.

(** A black 2x2 picture. *)
Definition blackImage : HTMLImageElement :=
  {| naturalWidth := 2; naturalHeight := 2; pixel := λ _ _, (0, 0, 0) |}.

(** [blackImage] again, with other values outside its 2x2 pixels. *)
Definition blackImage' : HTMLImageElement :=
  {| naturalWidth := 2; naturalHeight := 2;
     pixel := λ x y, if decide (0 ≤ x < 2 ∧ 0 ≤ y < 2) then (0, 0, 0) else (9, 9, 9) |}.

(** ** The canvas, the grid and flat pictures *)

(** The unit cell in column [x] of row [y] of the canvas lies inside the
    rectangle. *)
Definition covers (r : Rect) (x y : Z) : Prop :=
  rectX r ≤ x < rectX r + rectW r ∧ rectY r ≤ y < rectY r + rectH r.

Definition nonneg3 (v : vec3) : Prop := (0 <= v.1.1)%Q ∧ (0 <= v.1.2)%Q ∧ (0 <= v.2)%Q.

(** A byte on the quantization grid: a multiple of the factor, saturated
    at 255. *)
Definition onGrid (qFactor b : Z) : Prop := ∃ n, 0 ≤ n ∧ b = Z.min 255 (n * qFactor).

(** The byte stored for a channel all of whose 25 taps read the value [v]. *)
Definition flatByte (simplification v : Z) : Z :=
  Z.min 255 (specQuantize (qFactor simplification) (inject_Z v / 255 * 0.987)).

(** [blueOverRed] again, with other values outside its 4x4 pixels. *)
Definition blueOverRed' : HTMLImageElement :=
  {| naturalWidth := 4; naturalHeight := 4;
     pixel := λ x y, if decide (0 ≤ x < 4 ∧ 0 ≤ y < 4)
                     then (if decide (y = 0) then (0, 0, 255) else (255, 0, 0))
                     else (7, 7, 7) |}.

(** ** The ways the handler can fail *)

Inductive ShaderType := VERTEX_SHADER | FRAGMENT_SHADER.

(** A WebGL 2 context, as far as [createShader] and [createProgram] ask
    it: whether [gl.createShader(type)] and [gl.createProgram()] give an
    object, and the [COMPILE_STATUS] of the shader of each type (the two
    sources are fixed). *)
Record WebGL2RenderingContext := {
  glCreateShader : ShaderType → bool;
  COMPILE_STATUS : ShaderType → bool;
  glCreateProgram : bool
}.

(** [createShader]: [true] when it returns a shader, [false] for [null]. *)
Definition createShader (gl : WebGL2RenderingContext) (type : ShaderType) : bool :=
  if negb (glCreateShader gl type) then false
  else if negb (COMPILE_STATUS gl type) then false
  else true.

(** [createProgram]: [true] when it returns a program, [false] for [null].
    The link status is not looked at. *)
Definition createProgram (gl : WebGL2RenderingContext) : bool :=
  if negb (glCreateProgram gl) then false
  else
    let vs := createShader gl VERTEX_SHADER in
    let fs := createShader gl FRAGMENT_SHADER in
    if negb vs || negb fs then false else true.

(** The browser a run takes place in: the context
    [canvas.getContext('webgl2', ...)] gives ([None] for [null]), and the
    exception, if any, that a statement of the handler other than the two
    [throw]s raises for a picture (a typed array or a string too large to
    allocate), by the message of the error. *)
Record Browser := {
  getContext : option WebGL2RenderingContext;
  thrown : HTMLImageElement → Z → option string
}.

(** How the [try] block of [img.onload] ends: with the document it passes
    to [resolve], or with an error, caught and passed to [reject]. *)
Inductive Completion :=
  | Returns (svg : string)
  | Throws (message : string).

(** The [try] block of [img.onload] with its failure paths:
    [if (!gl) throw new Error("WebGL 2 not supported.")],
    [if (!program) throw new Error("Failed to compile shaders.")], any
    other exception, and otherwise the document. *)
Definition onload (browser : Browser) (img : HTMLImageElement) (simplification : Z)
    : Completion :=
  match getContext browser with
  | None => Throws "WebGL 2 not supported."
  | Some gl =>
      if negb (createProgram gl) then Throws "Failed to compile shaders."
      else
        match thrown browser img simplification with
        | Some message => Throws message
        | None => Returns (traceImageOffline img simplification)
        end
  end.

(** A context in which everything is created and compiles, and a browser
    that offers it and raises nothing else. *)
Definition workingContext : WebGL2RenderingContext :=
  {| glCreateShader := λ _, true; COMPILE_STATUS := λ _, true; glCreateProgram := true |}.

Definition workingBrowser : Browser :=
  {| getContext := Some workingContext; thrown := λ _ _, None |}.

(** * The batch queue (App.tsx) *)

Module App.

(** [enum ProcessingStep] of types.ts. *)
Inductive ProcessingStep :=
  IDLE | UPLOADING | ANALYZING | TRACING | CLEANING | COMPLETED | ERROR.

#[global] Instance ProcessingStep_eq_dec : EqDecision ProcessingStep :=
  ltac:(solve_decision).

(** A [File], as far as the tracer looks at it: the picture the browser
    decodes from it, or [None] when decoding fails. *)
Record File := { decoded : option HTMLImageElement }.

(** [interface BatchItem] of types.ts. *)
Record BatchItem := {
  id : string;
  file : File;
  previewUrl : string;
  status : ProcessingStep;
  result : option string;
  error : option string;
  progress : Z
}.

(** How an awaited promise settles.  A rejection carries the [message]
    property of its reason: a thrown [Error] has one, a string passed to
    [reject] has none. *)
Inductive Settled :=
  | Resolved (value : string)
  | Rejected (message : option string).

(** [traceImageOffline(file, simplification)] as the promise the batch
    loop awaits: [img.onerror] rejects with the string
    ["Image load error"], which has no [message]; an error caught in
    [img.onload] is the rejection reason; otherwise the promise resolves
    with the document. *)
Definition traceImageOfflinePromise (browser : Browser) (file : File) (simplification : Z)
    : Settled :=
  match decoded file with
  | None => Rejected None
  | Some img =>
      match onload browser img simplification with
      | Returns svg => Resolved svg
      | Throws message => Rejected (Some message)
      end
  end.

(** [err.message || 'Processing failed']. *)
Definition errorText (message : option string) : string :=
  match message with
  | Some m => if decide (m = EmptyString) then "Processing failed" else m
  | None => "Processing failed"
  end.

(** [{ ...bi, status: ProcessingStep.ANALYZING, progress: 10 }]. *)
Definition markAnalyzing (bi : BatchItem) : BatchItem :=
  {| id := id bi; file := file bi; previewUrl := previewUrl bi;
     status := ANALYZING; result := result bi; error := error bi; progress := 10 |}.

(** [{ ...bi, status: ProcessingStep.COMPLETED, result: svg, progress: 100 }]. *)
Definition markCompleted (svg : string) (bi : BatchItem) : BatchItem :=
  {| id := id bi; file := file bi; previewUrl := previewUrl bi;
     status := COMPLETED; result := Some svg; error := error bi; progress := 100 |}.

(** [{ ...bi, status: ProcessingStep.ERROR,
       error: err.message || 'Processing failed', progress: 0 }]. *)
Definition markError (message : option string) (bi : BatchItem) : BatchItem :=
  {| id := id bi; file := file bi; previewUrl := previewUrl bi;
     status := ERROR; result := result bi; error := Some (errorText message);
     progress := 0 |}.

(** [setBatchItems(prev => prev.map(bi => bi.id === item.id ? f(bi) : bi))]. *)
Definition updateById (itemId : string) (f : BatchItem → BatchItem)
    (prev : list BatchItem) : list BatchItem :=
  (λ bi, if decide (id bi = itemId) then f bi else bi) <$> prev.

(** The state of the component that [processBatch] reads and writes. *)
Record AppState := { batchItems : list BatchItem; isProcessing : bool }.

Section processBatch.
(** What the conversion of a file settles with, and the value of
    [abortControllerRef.current?.signal.aborted] when the loop reaches its
    [k]-th item.  No other handler changes the queue while the batch
    runs. *)
Variable convert : File → Settled.
Variable aborted : nat → bool.

(** One pass through the body of the loop: the item is marked, its file is
    converted, and the outcome is written to the items with its id. *)
Definition processItem (item : BatchItem) (prev : list BatchItem) : list BatchItem :=
  let prev := updateById (id item) markAnalyzing prev in
  match convert (file item) with
  | Resolved svg => updateById (id item) (markCompleted svg) prev
  | Rejected message => updateById (id item) (markError message) prev
  end.

(** [for (const item of itemsToProcess) { if (aborted) break; ... }]. *)
Fixpoint batchLoop (k : nat) (itemsToProcess prev : list BatchItem) : list BatchItem :=
  match itemsToProcess with
  | [] => prev
  | item :: rest =>
      if aborted k then prev
      else batchLoop (S k) rest (processItem item prev)
  end.

Definition processBatch (st : AppState) : AppState :=
  if decide (length (batchItems st) = 0%nat ∨ isProcessing st = true) then st
  else
    let itemsToProcess := filter (λ item, status item ≠ COMPLETED) (batchItems st) in
    {| batchItems := batchLoop 0 itemsToProcess (batchItems st); isProcessing := false |}.
End processBatch.

(** [overallProgress]: the rounded mean of the items' progress, 0 for an
    empty queue. *)
Definition overallProgress (batchItems : list BatchItem) : Z :=
  if decide (length batchItems = 0%nat) then 0
  else
    let totalProgress := foldl (λ acc item, acc + progress item) 0 batchItems in
    specRound (inject_Z totalProgress / inject_Z (Z.of_nat (length batchItems))).

(** What the loop makes of an item it has processed. *)
Definition settleItem (o : Settled) (bi : BatchItem) : BatchItem :=
  match o with
  | Resolved svg => markCompleted svg bi
  | Rejected message => markError message bi
  end.

(** An item as the loop may leave it: the same queue entry, untouched or
    with a final status. *)
Definition untouchedOrSettled (bi bi' : BatchItem) : Prop :=
  id bi' = id bi ∧ file bi' = file bi ∧ previewUrl bi' = previewUrl bi ∧
  (bi' = bi ∨ status bi' = COMPLETED ∨ status bi' = ERROR).

(** The first item of a list with a given id. *)
Fixpoint lookupItem (itemId : string) (items : list BatchItem) : option BatchItem :=
  match items with
  | [] => None
  | it :: rest => if decide (id it = itemId) then Some it else lookupItem itemId rest
  end.

(** A queue used as an example: a fresh item, a finished one, and one
    whose file does not decode and that failed before. *)
Definition freshItem : BatchItem :=
  {| id := "k3j9x0q1a"; file := {| decoded := Some twoRows |}; previewUrl := "blob:1";
     status := IDLE; result := None; error := None; progress := 0 |}.

Definition finishedItem : BatchItem :=
  {| id := "p07dm2wzs"; file := {| decoded := Some whitePixel |}; previewUrl := "blob:2";
     status := COMPLETED; result := Some "<svg></svg>"; error := None; progress := 100 |}.

Definition failedItem : BatchItem :=
  {| id := "z81hc5rty"; file := {| decoded := None |}; previewUrl := "blob:3";
     status := ERROR; result := None; error := Some "Processing failed"; progress := 0 |}.

Definition exampleQueue : AppState :=
  {| batchItems := [freshItem; finishedItem; failedItem]; isProcessing := false |}.

End App.

(** * Properties *)

(** ** Strings *)

Lemma app_cons (a : Ascii.ascii) (s t : string) : String a s +:+ t = String a (s +:+ t).
Proof. reflexivity. Qed.

Lemma app_empty_l (t : string) : EmptyString +:+ t = t.
Proof. reflexivity. Qed.

Lemma app_empty_r (s : string) : s +:+ EmptyString = s.
Proof. induction s as [|a s IH]; [done|]. by rewrite app_cons, IH. Qed.

Lemma app_assoc_S (s1 s2 s3 : string) : (s1 +:+ s2) +:+ s3 = s1 +:+ (s2 +:+ s3).
Proof. induction s1 as [|a s1 IH]; [done|]. by rewrite !app_cons, IH. Qed.

Lemma app_eq_empty (s1 s2 : string) :
  s1 +:+ s2 = EmptyString ↔ s1 = EmptyString ∧ s2 = EmptyString.
Proof.
  destruct s1 as [|a s1]; [rewrite app_empty_l; naive_solver|].
  rewrite app_cons. naive_solver.
Qed.

Lemma joinS_app (l1 l2 : list string) : joinS (l1 ++ l2) = joinS l1 +:+ joinS l2.
Proof.
  induction l1 as [|s l1 IH]; [done|].
  cbn [joinS app]. by rewrite IH, app_assoc_S.
Qed.

(** A loop that only appends to a string produces the concatenation of
    the pieces it appends. *)
Lemma foldl_append {A} (piece : A → string) (l : list A) (init : string) :
  foldl (λ acc x, acc +:+ piece x) init l = init +:+ joinS (piece <$> l).
Proof.
  revert init. induction l as [|x l IH]; intros init; cbn [foldl fmap list_fmap joinS].
  - by rewrite app_empty_r.
  - by rewrite IH, app_assoc_S.
Qed.

Lemma foldl_ext_in {A B} (f g : A → B → A) (l : list B) (a : A) :
  (∀ a x, x ∈ l → f a x = g a x) → foldl f a l = foldl g a l.
Proof.
  revert a. induction l as [|x l IH]; intros a Hfg; [done|].
  cbn. rewrite Hfg by left. apply IH. intros; apply Hfg. by right.
Qed.

(** ** Typed arrays *)

Lemma get_in_range (a : list Z) (i : Z) :
  0 ≤ i < Z.of_nat (length a) → is_Some (get a i).
Proof.
  intros Hi. unfold get. rewrite decide_True by lia.
  apply lookup_lt_is_Some. lia.
Qed.

Lemma length_set (a : list Z) (i v : Z) : length (set a i v) = length a.
Proof. unfold set. case_decide; [apply length_insert | done]. Qed.

Lemma get_set_eq (a : list Z) (i v : Z) :
  0 ≤ i < Z.of_nat (length a) → get (set a i v) i = Some v.
Proof.
  intros Hi. unfold get, set. rewrite !decide_True by lia.
  apply list_lookup_insert_eq. lia.
Qed.

Lemma get_set_ne (a : list Z) (i j v : Z) : i ≠ j → get (set a i v) j = get a j.
Proof.
  intros Hij. unfold get, set. repeat case_decide; try done.
  apply list_lookup_insert_ne. lia.
Qed.

Lemma length_writeAll (ws : list (Z * Z)) (a : list Z) :
  length (writeAll a ws) = length a.
Proof.
  revert a. induction ws as [|[i v] ws IH]; intros a; [done|].
  cbn. unfold writeAll in IH. by rewrite IH, length_set.
Qed.

Lemma get_writeAll_untouched (ws : list (Z * Z)) (a : list Z) (j : Z) :
  j ∉ ws.*1 → get (writeAll a ws) j = get a j.
Proof.
  revert a. induction ws as [|[i v] ws IH]; intros a Hj; [done|].
  cbn in *. apply not_elem_of_cons in Hj as [Hne Hj].
  unfold writeAll in IH. rewrite IH by done. by apply get_set_ne.
Qed.

(** When every write stores [F i] at index [i], each written index that
    lies in the array holds [F i] afterwards, whatever the order of the
    writes. *)
Lemma get_writeAll_written (F : Z → Z) (ws : list (Z * Z)) (a : list Z) (j : Z) :
  Forall (λ iv, iv.2 = F iv.1) ws →
  j ∈ ws.*1 → 0 ≤ j < Z.of_nat (length a) →
  get (writeAll a ws) j = Some (F j).
Proof.
  revert a. induction ws as [|[i v] ws IH]; intros a HF Hj Hr.
  - by apply elem_of_nil in Hj.
  - apply Forall_cons in HF as [Hv HF]. cbn in *. subst v.
    destruct (decide (j ∈ ws.*1)) as [Hin|Hnin].
    + unfold writeAll in IH. apply IH; [done..|]. by rewrite length_set.
    + apply elem_of_cons in Hj as [->|?]; [|done].
      pose proof (get_writeAll_untouched ws (set a i (F i)) i Hnin) as Hu.
      unfold writeAll in Hu. rewrite Hu. by apply get_set_eq.
Qed.

(** ** Sets *)

Lemma elem_of_add (s : list Z) (v c : Z) : c ∈ add s v ↔ c ∈ s ∨ c = v.
Proof.
  unfold add. case_decide.
  - naive_solver.
  - rewrite elem_of_app, list_elem_of_singleton. done.
Qed.

Lemma NoDup_add (s : list Z) (v : Z) : NoDup s → NoDup (add s v).
Proof.
  intros Hs. unfold add. case_decide; [done|].
  apply NoDup_app. split_and!; [done| |apply NoDup_singleton].
  intros x Hx ->%list_elem_of_singleton. done.
Qed.

Lemma elem_of_addNonZero_all (cs s : list Z) (c : Z) :
  c ∈ foldl addNonZero s cs ↔ c ∈ s ∨ (c ≠ 0 ∧ c ∈ cs).
Proof.
  revert s. induction cs as [|c0 cs IH]; intros s; cbn.
  - rewrite elem_of_nil. naive_solver.
  - rewrite IH, elem_of_cons. unfold addNonZero. case_decide.
    + rewrite elem_of_add. naive_solver.
    + naive_solver.
Qed.

Lemma NoDup_addNonZero_all (cs s : list Z) : NoDup s → NoDup (foldl addNonZero s cs).
Proof.
  revert s. induction cs as [|c0 cs IH]; intros s Hs; cbn; [done|].
  apply IH. unfold addNonZero. case_decide; [by apply NoDup_add | done].
Qed.

(** ** The repacking loop *)

Lemma repackRow_split packedData width y (xs : list Z) (qc uc : list Z) :
  foldl (repackPixel packedData width y) (qc, uc) xs =
  (writeAll qc ((λ x, (y * width + x, colorAt packedData width y x)) <$> xs),
   foldl addNonZero uc (colorAt packedData width y <$> xs)).
Proof.
  revert qc uc. induction xs as [|x xs IH]; intros qc uc; [done|].
  cbn [foldl fmap list_fmap]. unfold repackPixel at 2. rewrite IH. done.
Qed.

Lemma writeAll_app (a : list Z) (ws1 ws2 : list (Z * Z)) :
  writeAll a (ws1 ++ ws2) = writeAll (writeAll a ws1) ws2.
Proof. apply foldl_app. Qed.

Lemma repack_split_rows packedData width (ys : list Z) (qc uc : list Z) :
  foldl (repackRow packedData width) (qc, uc) ys =
  (writeAll qc (y ← ys; (λ x, (y * width + x, colorAt packedData width y x)) <$> seqZ 0 width),
   foldl addNonZero uc (y ← ys; colorAt packedData width y <$> seqZ 0 width)).
Proof.
  revert qc uc. induction ys as [|y ys IH]; intros qc uc; [done|].
  cbn [foldl mbind list_bind]. unfold repackRow at 2.
  rewrite repackRow_split, IH, writeAll_app, foldl_app. done.
Qed.

Lemma repack_split packedData width height :
  repack packedData width height =
  (writeAll (replicate (Z.to_nat (width * height)) 0) (repackWrites packedData width height),
   foldl addNonZero [] (scanOrder packedData width height)).
Proof. apply repack_split_rows. Qed.

Lemma length_quantizedColors packedData width height :
  length (repack packedData width height).1 = Z.to_nat (width * height).
Proof. rewrite repack_split. cbn. by rewrite length_writeAll, length_replicate. Qed.

Lemma elem_of_scanOrder packedData width height (c : Z) :
  c ∈ scanOrder packedData width height ↔
  ∃ y x, 0 ≤ y < height ∧ 0 ≤ x < width ∧ colorAt packedData width y x = c.
Proof.
  unfold scanOrder. rewrite list_elem_of_bind. split.
  - intros (y & (x & -> & Hx%elem_of_seqZ)%list_elem_of_fmap & Hy%elem_of_seqZ).
    exists y, x. split_and!; [lia..|done].
  - intros (y & x & Hy & Hx & <-). exists y. split.
    + apply list_elem_of_fmap. exists x. split; [done|]. apply elem_of_seqZ. lia.
    + apply elem_of_seqZ. lia.
Qed.

(** [uniqueColors] holds exactly the non-zero colours of the buffer, each
    once. *)
Lemma elem_of_uniqueColors packedData width height (c : Z) :
  c ∈ (repack packedData width height).2 ↔
  c ≠ 0 ∧ ∃ y x, 0 ≤ y < height ∧ 0 ≤ x < width ∧ colorAt packedData width y x = c.
Proof.
  rewrite repack_split. cbn [snd].
  rewrite elem_of_addNonZero_all, elem_of_nil, elem_of_scanOrder. tauto.
Qed.

Lemma NoDup_uniqueColors packedData width height :
  NoDup (repack packedData width height).2.
Proof. rewrite repack_split. apply NoDup_addNonZero_all, NoDup_nil_2. Qed.

(** [quantizedColors] holds at index [y * width + x] the colour packed
    from the four bytes of that pixel. *)
Lemma get_quantizedColors packedData width height (y x : Z) :
  0 ≤ y < height → 0 ≤ x < width →
  get (repack packedData width height).1 (y * width + x) = Some (colorAt packedData width y x).
Proof.
  intros Hy Hx. rewrite repack_split. cbn [fst].
  pose (F := λ i, packedColor packedData (i * 4)).
  change (colorAt packedData width y x) with (F (y * width + x)).
  apply get_writeAll_written.
  - unfold repackWrites. apply Forall_forall. intros [i v].
    rewrite list_elem_of_bind.
    intros (y' & (x' & [= -> ->] & _)%list_elem_of_fmap & _). done.
  - unfold repackWrites. apply list_elem_of_fmap.
    exists (y * width + x, colorAt packedData width y x). split; [done|].
    apply list_elem_of_bind. exists y. split.
    + apply list_elem_of_fmap. exists x. split; [done|]. apply elem_of_seqZ. lia.
    + apply elem_of_seqZ. lia.
  - rewrite length_replicate. nia.
Qed.

(** ** The scanning loops *)

Lemma fragment_rectPath (startX svgY x rowStep : Z) :
  fragment startX svgY x rowStep = rectPath (MkRect startX svgY (x - startX) rowStep).
Proof.
  unfold fragment, rectPath. cbn [rectX rectY rectW rectH].
  by replace (- (x - startX)) with (startX - x) by lia.
Qed.

Lemma scanPixel_sim (quantizedColors : list Z) (color rowStep svgY offs : Z)
    (row : list Z) :
  ∀ (x0 startX : Z) (pathData : string),
    0 ≤ x0 →
    (∀ k v, row !! k = Some v → get quantizedColors (offs + (x0 + Z.of_nat k)) = Some v) →
    closeRun rowStep svgY (foldl (scanPixel quantizedColors color rowStep svgY offs)
                    (startX, pathData) (seqZ x0 (Z.of_nat (length row))))
             (x0 + Z.of_nat (length row))
    = pathData +:+
      joinS ((λ run, fragment run.1 svgY run.2 rowStep) <$> specRuns color row x0 (openRun startX)).
Proof.
  induction row as [|p row IH]; intros x0 startX pathData Hx0 Hrow.
  - cbn. rewrite Z.add_0_r. unfold closeRun, openRun. cbn [fst snd].
    repeat case_decide; try done; cbn.
    + by rewrite app_empty_r.
    + by rewrite app_empty_r.
  - rewrite seqZ_cons by (cbn [length]; lia).
    replace (Z.pred (Z.of_nat (length (p :: row)))) with (Z.of_nat (length row))
      by (cbn [length]; lia).
    replace (x0 + Z.of_nat (length (p :: row))) with (Z.succ x0 + Z.of_nat (length row))
      by (cbn [length]; lia).
    cbn [foldl]. unfold scanPixel at 2.
    pose proof (Hrow 0%nat p eq_refl) as Hp. rewrite Z.add_0_r in Hp. rewrite Hp.
    assert (Hnext : ∀ k v, row !! k = Some v →
              get quantizedColors (offs + (Z.succ x0 + Z.of_nat k)) = Some v).
    { intros k v Hk. specialize (Hrow (S k) v Hk).
      by replace (Z.succ x0 + Z.of_nat k) with (x0 + Z.of_nat (S k)) by lia. }
    rewrite <- Z.add_1_r in *.
    cbn [specRuns]. destruct (decide (p = color)) as [->|Hpc].
    + rewrite decide_True by done. rewrite IH by (done || lia).
      assert (openRun (if decide (startX = -1) then x0 else startX)
              = Some (default x0 (openRun startX))) as ->; [|done].
      unfold openRun. repeat case_decide; try done; lia.
    + rewrite decide_False by congruence.
      unfold openRun. destruct (decide (startX = -1)) as [->|Hs].
      * rewrite decide_False by lia. rewrite IH by (done || lia).
        unfold openRun. by rewrite decide_True by done.
      * rewrite decide_True by done. rewrite IH by (done || lia).
        unfold openRun at 1. rewrite decide_True by done.
        cbn [fmap list_fmap joinS fst snd]. by rewrite app_assoc_S.
Qed.

Lemma length_bufferRow (buffer : list Z) (width height r : Z) :
  0 ≤ width → length buffer = Z.to_nat (width * height) → 0 ≤ r < height →
  length (bufferRow buffer width r) = Z.to_nat width.
Proof.
  intros Hw Hlen Hr. unfold bufferRow. rewrite length_take, length_drop, Hlen. nia.
Qed.

Lemma lookup_bufferRow (buffer : list Z) (width r : Z) (k : nat) (v : Z) :
  0 ≤ width → 0 ≤ r →
  bufferRow buffer width r !! k = Some v → get buffer (r * width + Z.of_nat k) = Some v.
Proof.
  intros Hw Hr. unfold bufferRow. intros [Hk _]%lookup_take_Some.
  rewrite lookup_drop in Hk. unfold get. rewrite decide_True by nia.
  rewrite <- Hk. f_equal. nia.
Qed.

(** One turn of the row loop appends the rectangles of the runs of that
    buffer row. *)
Lemma scanRow_spec (quantizedColors : list Z) (width height color rowStep : Z)
    (pathData : string) (svgY : Z) :
  0 ≤ width → length quantizedColors = Z.to_nat (width * height) → 0 ≤ svgY < height →
  scanRow quantizedColors width height color rowStep pathData svgY =
  pathData +:+ joinS (rectPath <$> specRowRects quantizedColors width height rowStep color svgY).
Proof.
  intros Hw Hlen Hy. unfold scanRow, specRowRects.
  pose proof (scanPixel_sim quantizedColors color rowStep svgY
                (dataRowOffset width height svgY)
                (bufferRow quantizedColors width (height - 1 - svgY)) 0 (-1) pathData) as Hsim.
  rewrite (length_bufferRow _ _ height) in Hsim by (done || lia).
  rewrite Z2Nat.id, Z.add_0_l in Hsim by done.
  unfold closeRun in Hsim.
  destruct (foldl _ _ _) as [startX pathData'].
  cbn [fst snd] in Hsim. rewrite Hsim.
  - unfold openRun. rewrite decide_True by done.
    rewrite <- list_fmap_compose. do 2 f_equal. apply list_fmap_ext.
    intros _ [s e] _. cbn. apply fragment_rectPath.
  - done.
  - intros k v Hk. rewrite Z.add_0_l. unfold dataRowOffset, dataRowIndex.
    apply lookup_bufferRow; [lia..|done].
Qed.

(** The row loop visits exactly the sampled rows. *)
Lemma svgRowsFrom_spec (height rowStep : Z) (fuel : nat) (k0 : Z) :
  1 ≤ rowStep → height - k0 * rowStep ≤ Z.of_nat fuel →
  svgRowsFrom fuel (k0 * rowStep) height rowStep =
  (λ k, k * rowStep) <$> seqZ k0 ((height - k0 * rowStep + rowStep - 1) / rowStep).
Proof.
  intros Hrs. revert k0. induction fuel as [|fuel IH]; intros k0 Hfuel.
  - cbn [svgRowsFrom]. rewrite seqZ_nil; [done|].
    apply Z.lt_succ_r, Z.div_lt_upper_bound; lia.
  - cbn [svgRowsFrom]. case_decide as Hlt.
    + assert (1 ≤ (height - k0 * rowStep + rowStep - 1) / rowStep) as Hn
        by (apply Z.div_le_lower_bound; lia).
      rewrite seqZ_cons by lia. cbn [fmap list_fmap]. f_equal.
      replace (k0 * rowStep + rowStep) with (Z.succ k0 * rowStep) by lia.
      rewrite IH by lia. do 2 f_equal.
      replace (height - Z.succ k0 * rowStep + rowStep - 1)
        with (height - k0 * rowStep + rowStep - 1 + (-1) * rowStep) by lia.
      rewrite Z.div_add by lia. lia.
    + rewrite seqZ_nil; [done|].
      apply Z.lt_succ_r, Z.div_lt_upper_bound; lia.
Qed.

Lemma svgRows_spec (height rowStep : Z) :
  1 ≤ rowStep → svgRows height rowStep = specSampledRows height rowStep.
Proof.
  intros Hrs. unfold svgRows, specSampledRows.
  pose proof (svgRowsFrom_spec height rowStep (Z.to_nat height) 0 Hrs) as H.
  rewrite Z.mul_0_l, Z.sub_0_r in H. apply H. lia.
Qed.

Lemma elem_of_svgRowsFrom (height rowStep : Z) (fuel : nat) (y svgY : Z) :
  0 ≤ rowStep → svgY ∈ svgRowsFrom fuel y height rowStep → y ≤ svgY < height.
Proof.
  intros Hrs. revert y. induction fuel as [|fuel IH]; intros y; cbn [svgRowsFrom].
  - by intros ?%elem_of_nil.
  - case_decide; [|by intros ?%elem_of_nil].
    intros [->|Hin%IH]%elem_of_cons; lia.
Qed.

Lemma elem_of_svgRows_range (height rowStep svgY : Z) :
  0 ≤ rowStep → svgY ∈ svgRows height rowStep → 0 ≤ svgY < height.
Proof. intros Hrs. apply elem_of_svgRowsFrom, Hrs. Qed.

Lemma joinS_bind {A B} (g : A → list B) (h : B → string) (l : list A) :
  joinS ((λ x, joinS (h <$> g x)) <$> l) = joinS (h <$> (l ≫= g)).
Proof.
  induction l as [|x l IH]; [done|].
  cbn [fmap list_fmap joinS mbind list_bind].
  change (list_fmap B string h) with (fmap (M:=list) h).
  rewrite fmap_app, joinS_app. f_equal. apply IH.
Qed.

(** The path data of a colour is the concatenation of the outlines of its
    rectangles, row by row. *)
Lemma pathDataOf_spec (quantizedColors : list Z) (width height rowStep color : Z) :
  0 ≤ width → length quantizedColors = Z.to_nat (width * height) → 1 ≤ rowStep →
  pathDataOf quantizedColors width height rowStep color =
  joinS (rectPath <$> specRects quantizedColors width height rowStep color).
Proof.
  intros Hw Hlen Hrs. unfold pathDataOf, specRects.
  rewrite (foldl_ext_in _
    (λ acc svgY, acc +:+ joinS (rectPath <$>
       specRowRects quantizedColors width height rowStep color svgY))).
  - rewrite foldl_append, app_empty_l, joinS_bind. by rewrite svgRows_spec.
  - intros acc svgY Hin. apply scanRow_spec; [done..|].
    eapply elem_of_svgRows_range; [|done]. lia.
Qed.

(** ** The runs are the maximal runs *)

Lemma get_app_l (pre row : list Z) (k : Z) :
  k < Z.of_nat (length pre) → get (pre ++ row) k = get pre k.
Proof.
  intros Hk. unfold get. case_decide; [|done]. apply lookup_app_l. lia.
Qed.

Lemma get_app_r (pre row : list Z) (k : Z) :
  Z.of_nat (length pre) ≤ k → get (pre ++ row) k = get row (k - Z.of_nat (length pre)).
Proof.
  intros Hk. unfold get. rewrite !decide_True by lia.
  rewrite lookup_app_r by lia. f_equal. lia.
Qed.

Lemma get_None_ge (row : list Z) (k : Z) : Z.of_nat (length row) ≤ k → get row k = None.
Proof.
  intros Hk. unfold get. case_decide; [|done]. apply lookup_ge_None. lia.
Qed.

Lemma run_start_unique (c : Z) (L : list Z) (s0 x s e : Z) :
  s0 < x → (∀ k, s0 ≤ k < x → get L k = Some c) → get L (s0 - 1) ≠ Some c →
  isRun c L s e → s < x ≤ e → s = s0.
Proof.
  intros Hs0 Hall Hleft (Hse & Hlen & Hrun & Hright & Hl) Hx.
  destruct (Z.lt_trichotomy s s0) as [Hlt|[->|Hgt]]; [|done|].
  - exfalso. apply Hleft, Hrun. lia.
  - exfalso. apply Hl, Hall. lia.
Qed.

Lemma specRuns_runs (c : Z) (row : list Z) :
  ∀ (pre : list Z) (startX : option Z),
    scanned c pre startX →
    ∀ s e, (s, e) ∈ specRuns c row (Z.of_nat (length pre)) startX ↔
           isRun c (pre ++ row) s e ∧ Z.of_nat (length pre) ≤ e.
Proof.
  induction row as [|p row IH]; intros pre startX Hsc s e.
  - cbn [specRuns]. rewrite app_nil_r. destruct startX as [s0|]; cbn in Hsc.
    + destruct Hsc as (Hs0 & Hall & Hleft).
      rewrite list_elem_of_singleton. split.
      * intros [= -> ->]. split; [|lia].
        split_and!; try lia; try done.
        rewrite get_None_ge by lia. done.
      * intros [Hrun Hle].
        assert (e = Z.of_nat (length pre)) as -> by (destruct Hrun as (? & ? & _); lia).
        f_equal. eapply run_start_unique; [| exact Hall | exact Hleft | exact Hrun |];
          destruct Hrun as (? & ? & _); lia.
    + split; [by intros ?%elem_of_nil|].
      intros [(Hse & Hlen & Hrun & _) Hle]. exfalso. apply Hsc, Hrun. lia.
  - assert (pre ++ p :: row = (pre ++ [p]) ++ row) as EL by (by rewrite <- app_assoc).
    assert (Z.of_nat (length pre) + 1 = Z.of_nat (length (pre ++ [p]))) as Elen
      by (rewrite length_app; cbn; lia).
    assert (get (pre ++ p :: row) (Z.of_nat (length pre)) = Some p) as Hp.
    { rewrite get_app_r by lia. by rewrite Z.sub_diag. }
    cbn [specRuns]. destruct (decide (p = c)) as [->|Hpc].
    + rewrite Elen, IH, <- EL, <- Elen.
      * split; [intros [Hrun Hle]; split; [done|lia]|].
        intros [Hrun Hle]. split; [done|].
        destruct (decide (e = Z.of_nat (length pre))) as [->|]; [|lia].
        destruct Hrun as (_ & _ & _ & Hright & _). done.
      * destruct startX as [s0|]; cbn in Hsc |- *.
        -- destruct Hsc as (Hs0 & Hall & Hleft). rewrite <- Elen. split_and!; [lia|lia| |].
           ++ intros k Hk. destruct (decide (k = Z.of_nat (length pre))) as [->|].
              ** rewrite get_app_r by lia. by rewrite Z.sub_diag.
              ** rewrite get_app_l by lia. apply Hall. lia.
           ++ rewrite get_app_l by lia. done.
        -- rewrite <- Elen. split_and!; [lia|lia| |].
           ++ intros k Hk. assert (k = Z.of_nat (length pre)) as -> by lia.
              rewrite get_app_r by lia. by rewrite Z.sub_diag.
           ++ rewrite get_app_l by lia. done.
    + assert (scanned c (pre ++ [p]) None) as Hsc'.
      { cbn. rewrite <- Elen. replace (Z.of_nat (length pre) + 1 - 1) with (Z.of_nat (length pre)) by lia.
        rewrite get_app_r by lia. rewrite Z.sub_diag.
        change (get [p] 0) with (Some p). congruence. }
      destruct startX as [s0|]; cbn in Hsc.
      * destruct Hsc as (Hs0 & Hall & Hleft).
        rewrite elem_of_cons, Elen, IH, <- EL, <- Elen by done. split.
        -- intros [[= -> ->]|[Hrun Hle]]; [|split; [done|lia]].
           split; [|lia]. split_and!; try lia.
           ++ rewrite length_app. cbn. lia.
           ++ intros k Hk. rewrite get_app_l by lia. by apply Hall.
           ++ rewrite Hp. congruence.
           ++ rewrite get_app_l by lia. done.
        -- intros [Hrun Hle].
           destruct (decide (e = Z.of_nat (length pre))) as [->|Hne]; [left|right; split; [done|lia]].
           f_equal. eapply (run_start_unique c (pre ++ p :: row) s0 (Z.of_nat (length pre)));
             [lia| | |exact Hrun|].
           ++ intros k Hk. rewrite get_app_l by lia. by apply Hall.
           ++ rewrite get_app_l by lia. done.
           ++ destruct Hrun as (? & _). lia.
      * rewrite Elen, IH, <- EL, <- Elen by done.
        split; [intros [Hrun Hle]; split; [done|lia]|].
        intros [Hrun Hle]. split; [done|].
        destruct (decide (e = Z.of_nat (length pre))) as [->|]; [|lia].
        exfalso. destruct Hrun as (Hse & _ & Hrun & _).
        apply Hsc. rewrite <- (get_app_l pre (p :: row)) by lia. apply Hrun. lia.
Qed.

(** The runs the scan of a row reports are exactly the maximal runs of
    the colour in that row. *)
Lemma specRuns_maximal (c : Z) (row : list Z) (s e : Z) :
  (s, e) ∈ specRuns c row 0 None ↔ isRun c row s e.
Proof.
  pose proof (specRuns_runs c row [] None) as H. cbn in H.
  rewrite H by done. split; [tauto|]. intros Hrun. split; [done|].
  destruct Hrun as (? & _). lia.
Qed.

(** The rectangles of an output row are those of the maximal runs of the
    colour in its buffer row. *)
Lemma elem_of_specRowRects (buffer : list Z) (width height rowStep c svgY : Z) (r : Rect) :
  r ∈ specRowRects buffer width height rowStep c svgY ↔
  ∃ s e, isRun c (bufferRow buffer width (height - 1 - svgY)) s e ∧
         r = MkRect s svgY (e - s) rowStep.
Proof.
  unfold specRowRects. rewrite list_elem_of_fmap. split.
  - intros ([s e] & -> & Hin%specRuns_maximal). by exists s, e.
  - intros (s & e & Hrun%specRuns_maximal & ->). by exists (s, e).
Qed.

(** ** Which colours get a shape *)

Lemma specRuns_open_nonempty (c : Z) (row : list Z) :
  ∀ x s, specRuns c row x (Some s) ≠ [].
Proof.
  induction row as [|p row IH]; intros x s; cbn [specRuns]; [done|].
  case_decide; [apply IH | done].
Qed.

Lemma specRuns_nil (c : Z) (row : list Z) :
  ∀ x, specRuns c row x None = [] ↔ c ∉ row.
Proof.
  induction row as [|p row IH]; intros x; cbn [specRuns].
  - split; [intros _; apply not_elem_of_nil | done].
  - rewrite not_elem_of_cons. case_decide as Hp.
    + split; [intros H; by apply specRuns_open_nonempty in H | intros [? _]; congruence].
    + rewrite IH. split; [intros ?; split; [congruence | done] | tauto].
Qed.

Lemma rectPath_nonempty (r : Rect) : rectPath r ≠ EmptyString.
Proof. done. Qed.

Lemma joinS_rectPath_empty (l : list Rect) :
  joinS (rectPath <$> l) = EmptyString ↔ l = [].
Proof.
  destruct l as [|r l]; [done|]. cbn [fmap list_fmap joinS].
  rewrite app_eq_empty. split; [intros [H _]; by apply rectPath_nonempty in H | done].
Qed.

Lemma elem_of_bufferRow (buffer : list Z) (width height r c : Z) :
  0 ≤ width → length buffer = Z.to_nat (width * height) → 0 ≤ r < height →
  c ∈ bufferRow buffer width r ↔ ∃ x, 0 ≤ x < width ∧ get buffer (r * width + x) = Some c.
Proof.
  intros Hw Hlen Hr. rewrite list_elem_of_lookup. split.
  - intros [k Hk]. exists (Z.of_nat k). split.
    + apply lookup_lt_Some in Hk. rewrite (length_bufferRow _ _ height) in Hk by done. lia.
    + by apply lookup_bufferRow; [lia..|].
  - intros (x & Hx & Hget). exists (Z.to_nat x).
    unfold get in Hget. rewrite decide_True in Hget by nia.
    unfold bufferRow. apply lookup_take_Some. split; [|lia].
    rewrite lookup_drop, <- Hget. f_equal.
    assert (0 ≤ r * width) by nia. lia.
Qed.

(** A colour has path data exactly when it occurs in a sampled buffer row. *)
Lemma pathDataOf_nonempty (quantizedColors : list Z) (width height rowStep color : Z) :
  0 ≤ width → length quantizedColors = Z.to_nat (width * height) → 1 ≤ rowStep →
  pathDataOf quantizedColors width height rowStep color ≠ EmptyString ↔
  ∃ svgY x, svgY ∈ svgRows height rowStep ∧ 0 ≤ x < width ∧
            get quantizedColors (dataRowOffset width height svgY + x) = Some color.
Proof.
  intros Hw Hlen Hrs. rewrite pathDataOf_spec, joinS_rectPath_empty by done.
  unfold specRects. rewrite <- svgRows_spec by done. split.
  - intros Hne.
    destruct (svgRows height rowStep ≫=
                specRowRects quantizedColors width height rowStep color) as [|r l] eqn:E; [done|].
    assert (r ∈ svgRows height rowStep ≫=
                specRowRects quantizedColors width height rowStep color) as Hr
      by (rewrite E; left).
    apply list_elem_of_bind in Hr as (svgY & Hin & HsvgY).
    pose proof (elem_of_svgRows_range height rowStep svgY ltac:(lia) HsvgY) as Hrange.
    unfold specRowRects in Hin.
    destruct (decide (color ∈ bufferRow quantizedColors width (height - 1 - svgY))) as [Hc|Hc].
    + apply (elem_of_bufferRow _ _ height) in Hc as (x & Hx & Hget); [|done|done|lia].
      exists svgY, x. done.
    + apply (specRuns_nil _ _ 0) in Hc. rewrite Hc in Hin. by apply elem_of_nil in Hin.
  - intros (svgY & x & HsvgY & Hx & Hget) Hnil.
    pose proof (elem_of_svgRows_range height rowStep svgY ltac:(lia) HsvgY) as Hrange.
    assert (color ∈ bufferRow quantizedColors width (height - 1 - svgY)) as Hc.
    { apply (elem_of_bufferRow _ _ height); [done|done|lia|]. by exists x. }
    destruct (specRuns color (bufferRow quantizedColors width (height - 1 - svgY)) 0 None)
      as [|run runs] eqn:E.
    { apply specRuns_nil in E. done. }
    apply (not_elem_of_nil (MkRect run.1 svgY (run.2 - run.1) rowStep)).
    rewrite <- Hnil. apply list_elem_of_bind. exists svgY. split; [|done].
    unfold specRowRects. rewrite E. left.
Qed.

Lemma emitColor_all (quantizedColors : list Z) (width height rowStep : Z)
    (colors : list Z) (svgPaths : string) :
  foldl (emitColor quantizedColors width height rowStep) svgPaths colors =
  svgPaths +:+
  joinS ((λ sh, pathElement sh.2 sh.1) <$>
         filter (λ sh : Z * string, sh.2 ≠ EmptyString)
                ((λ c, (c, pathDataOf quantizedColors width height rowStep c)) <$> colors)).
Proof.
  revert svgPaths. induction colors as [|c colors IH]; intros svgPaths.
  - cbn. by rewrite app_empty_r.
  - cbn [foldl fmap list_fmap]. rewrite IH. unfold emitColor.
    destruct (pathDataOf quantizedColors width height rowStep c) as [|a p] eqn:E.
    + rewrite filter_cons_False by (cbn; intros H; by apply H). done.
    + rewrite filter_cons_True by done.
      cbn [fmap list_fmap joinS fst snd]. by rewrite app_assoc_S.
Qed.

(** The document consists of the header, one [<path>] element per shape,
    and the closing tag. *)
Lemma vectorize_shapes (packedData : list Z) (width height simplification : Z) :
  vectorize packedData width height simplification =
  svgDocument width height
    (joinS ((λ sh, pathElement sh.2 sh.1) <$> shapes packedData width height simplification)).
Proof.
  unfold vectorize, shapes. destruct (repack _ _ _) as [qc uc].
  by rewrite emitColor_all, app_empty_l.
Qed.

(** ** Rounding and quantization *)

Lemma inject_Z_le (x y : Z) : x ≤ y → (inject_Z x <= inject_Z y)%Q.
Proof. by rewrite <- Zle_Qle. Qed.

Lemma inject_Z_lt (x y : Z) : x < y → (inject_Z x < inject_Z y)%Q.
Proof. by rewrite <- Zlt_Qlt. Qed.

Lemma Qfloor_unique (x : Q) (k : Z) :
  (inject_Z k <= x)%Q → (x < inject_Z k + 1)%Q → Qfloor x = k.
Proof.
  intros Hlo Hhi.
  pose proof (Qfloor_le x) as Hfl. pose proof (Qlt_floor x) as Hfu.
  rewrite inject_Z_plus in Hfu. change (inject_Z 1) with 1%Q in Hfu.
  assert (inject_Z (Qfloor x) < inject_Z (k + 1))%Q as H1
    by (rewrite inject_Z_plus; change (inject_Z 1) with 1%Q; lra).
  assert (inject_Z k < inject_Z (Qfloor x + 1))%Q as H2
    by (rewrite inject_Z_plus; change (inject_Z 1) with 1%Q; lra).
  rewrite <- Zlt_Qlt in H1, H2. lia.
Qed.

Lemma Qfloor_half (k : Z) : Qfloor (inject_Z k + 0.5) = k.
Proof. apply Qfloor_unique; lra. Qed.

Lemma Qclamp_range (lo hi x : Q) :
  (lo <= hi)%Q → (lo <= Qclamp lo hi x)%Q ∧ (Qclamp lo hi x <= hi)%Q.
Proof.
  intros Hlh. unfold Qclamp. split.
  - apply Q.min_glb; [apply Q.le_max_r | done].
  - apply Q.le_min_r.
Qed.

Lemma Qclamp_inside (lo hi x : Q) :
  (lo <= x)%Q → (x <= hi)%Q → (Qclamp lo hi x == x)%Q.
Proof.
  intros Hl Hh. unfold Qclamp. rewrite Q.max_l by done. by apply Q.min_l.
Qed.

Lemma Qclamp_above (lo hi x : Q) :
  (lo <= hi)%Q → (hi <= x)%Q → (Qclamp lo hi x == hi)%Q.
Proof.
  intros Hlh Hh. unfold Qclamp. apply Q.min_r.
  apply Qle_trans with x; [exact Hh | apply Q.le_max_l].
Qed.

#[local] Instance Qclamp_proper : Proper (Qeq ==> Qeq ==> Qeq ==> Qeq) Qclamp.
Proof. intros lo lo' Hlo hi hi' Hhi x x' Hx. unfold Qclamp. by rewrite Hlo, Hhi, Hx. Qed.

#[local] Instance unorm8_proper : Proper (Qeq ==> eq) unorm8.
Proof. intros c c' Hc. unfold unorm8. by rewrite Hc. Qed.

#[local] Instance quantize1_proper (q : Q) : Proper (Qeq ==> eq) (Shader.quantize1 q).
Proof. intros c c' Hc. unfold Shader.quantize1. by rewrite Hc. Qed.

(** A fraction [n/255] with [n] a non-negative integer is stored as the
    byte [n], saturating at 255. *)
Lemma unorm8_fraction (n : Z) : 0 ≤ n → unorm8 (inject_Z n / 255) = Z.min 255 n.
Proof.
  intros Hn. unfold unorm8.
  assert (0 <= inject_Z n)%Q as Hn' by (by apply (inject_Z_le 0)).
  destruct (Z_le_gt_dec n 255) as [Hle|Hgt].
  - assert (inject_Z n <= 255)%Q as Hle' by (by apply (inject_Z_le n 255)).
    rewrite Qclamp_inside; [| apply Qle_shift_div_l; lra | apply Qle_shift_div_r; lra].
    rewrite Z.min_r by done. apply Qfloor_unique; field_simplify; lra.
  - assert (255 < inject_Z n)%Q as Hgt' by (apply (inject_Z_lt 255 n); lia).
    rewrite Qclamp_above; [| lra | apply Qle_shift_div_l; lra].
    rewrite Z.min_l by lia. apply Qfloor_unique; [|done]. vm_compute. discriminate.
Qed.

Lemma quantize1_specQuantize (qFactor : Z) (c : Q) :
  (Shader.quantize1 (inject_Z qFactor) c == inject_Z (specQuantize qFactor c) / 255)%Q.
Proof.
  unfold Shader.quantize1, specQuantize, specRound.
  rewrite inject_Z_mult.
  assert (Qfloor (c * 255 / inject_Z qFactor + 0.5)
          = Qfloor (c * 255 / inject_Z qFactor + (1 # 2))) as ->
    by (apply Qfloor_comp; lra).
  reflexivity.
Qed.

Lemma specQuantize_nonneg (qFactor : Z) (c : Q) :
  0 < qFactor → (0 <= c)%Q → 0 ≤ specQuantize qFactor c.
Proof.
  intros Hq Hc. unfold specQuantize, specRound.
  assert (0 < inject_Z qFactor)%Q as Hq' by (by apply (inject_Z_lt 0)).
  apply Z.mul_nonneg_nonneg; [|lia].
  change 0 with (Qfloor (inject_Z 0)) at 1. apply Qfloor_resp_le.
  assert (0 <= c * 255 / inject_Z qFactor)%Q; [|change (inject_Z 0) with 0%Q; lra].
  apply Qle_shift_div_l; lra.
Qed.

Lemma Qscale_bounds (F x q : Q) :
  (0 < q)%Q → (F <= x + (1 # 2))%Q → (x + (1 # 2) < F + 1)%Q →
  (x * q - q / 2 < F * q)%Q ∧ (F * q <= x * q + q / 2)%Q.
Proof.
  intros Hq Hlo Hhi. split.
  - assert (0 < (F - x + (1 # 2)) * q)%Q as H by (apply Qmult_lt_0_compat; lra).
    assert ((F - x + (1 # 2)) * q == F * q - x * q + q / 2)%Q as E by field.
    rewrite E in H. set (a := (F * q)%Q) in *. set (b := (x * q)%Q) in *. lra.
  - assert (0 <= (x + (1 # 2) - F) * q)%Q as H by (apply Qmult_le_0_compat; lra).
    assert ((x + (1 # 2) - F) * q == x * q + q / 2 - F * q)%Q as E by field.
    rewrite E in H. set (a := (F * q)%Q) in *. set (b := (x * q)%Q) in *. lra.
Qed.

(** The multiple of [qFactor] chosen is the nearest one. *)
Lemma specQuantize_nearest (qFactor : Z) (c : Q) :
  0 < qFactor →
  (c * 255 - inject_Z qFactor / 2 < inject_Z (specQuantize qFactor c))%Q ∧
  (inject_Z (specQuantize qFactor c) <= c * 255 + inject_Z qFactor / 2)%Q.
Proof.
  intros Hq. unfold specQuantize, specRound.
  assert (0 < inject_Z qFactor)%Q as Hq' by (by apply (inject_Z_lt 0)).
  set (x := (c * 255 / inject_Z qFactor)%Q).
  pose proof (Qfloor_le (x + (1 # 2))) as Hlo.
  pose proof (Qlt_floor (x + (1 # 2))) as Hhi.
  rewrite inject_Z_plus in Hhi. change (inject_Z 1) with 1%Q in Hhi.
  rewrite inject_Z_mult.
  assert (c * 255 == x * inject_Z qFactor)%Q as -> by (unfold x; field; lra).
  by apply Qscale_bounds.
Qed.

Lemma quantize1_fixed (qF k : Z) :
  0 < qF →
  Shader.quantize1 (inject_Z qF) (inject_Z k * inject_Z qF / 255) =
  (inject_Z k * inject_Z qF / 255)%Q.
Proof.
  intros Hq. unfold Shader.quantize1 at 1.
  assert (0 < inject_Z qF)%Q as Hq' by (by apply (inject_Z_lt 0)).
  assert (Qfloor (inject_Z k * inject_Z qF / 255 * 255 / inject_Z qF + 0.5) = k) as ->; [|done].
  rewrite <- (Qfloor_half k) at 2. apply Qfloor_comp. field. lra.
Qed.

Lemma specQuantize_mono (qF : Z) (c1 c2 : Q) :
  0 < qF → (c1 <= c2)%Q → specQuantize qF c1 ≤ specQuantize qF c2.
Proof.
  intros Hq Hc. unfold specQuantize, specRound.
  assert (0 < inject_Z qF)%Q as Hq' by (by apply (inject_Z_lt 0)).
  apply Z.mul_le_mono_nonneg_r; [lia|]. apply Qfloor_resp_le.
  assert (c1 * 255 / inject_Z qF <= c2 * 255 / inject_Z qF)%Q; [|lra].
  apply Qmult_le_compat_r; [lra|]. apply Qinv_le_0_compat. lra.
Qed.

(** The byte stored for a quantized channel. *)
Lemma unorm8_quantize1 (qF : Z) (c : Q) :
  0 < qF → (0 <= c)%Q →
  unorm8 (Shader.quantize1 (inject_Z qF) c) = Z.min 255 (specQuantize qF c).
Proof.
  intros Hq Hc. rewrite quantize1_specQuantize.
  apply unorm8_fraction. by apply specQuantize_nonneg.
Qed.

(** ** The blur *)

Lemma veq_refl (u : vec3) : veq u u.
Proof. destruct u as [[r g] b]. cbn. done. Qed.

Lemma veq_trans (u v w : vec3) : veq u v → veq v w → veq u w.
Proof.
  destruct u as [[r1 g1] b1], v as [[r2 g2] b2], w as [[r3 g3] b3].
  cbn. intros (-> & -> & ->) (-> & -> & ->). done.
Qed.

Lemma veq_vadd (u u' v v' : vec3) : veq u u' → veq v v' → veq (vadd u v) (vadd u' v').
Proof.
  destruct u as [[r1 g1] b1], u' as [[r2 g2] b2], v as [[r3 g3] b3], v' as [[r4 g4] b4].
  cbn. intros (-> & -> & ->) (-> & -> & ->). done.
Qed.

Lemma veq_vscale (u u' : vec3) (k k' : Q) : veq u u' → (k == k')%Q → veq (vscale u k) (vscale u' k').
Proof.
  destruct u as [[r1 g1] b1], u' as [[r2 g2] b2].
  cbn. intros (-> & -> & ->) ->. done.
Qed.

Lemma vscale_plus (col : vec3) (k1 k2 : Q) :
  veq (vadd (vscale col k1) (vscale col k2)) (vscale col (k1 + k2)).
Proof. destruct col as [[r g] b]. cbn. split_and!; ring. Qed.

Section blur_constant.
Variables (sample : vec2 → vec3) (coord px : vec2) (col : vec3).

Lemma blurRow_constant (ks : list Z) (j : Z) :
  ∀ (acc : vec3) (W : Q),
    (∀ i, i ∈ ks →
       veq (sample (Shader.offset coord px (inject_Z i) (inject_Z j))) col) →
    veq acc (vscale col W) →
    veq (foldl (Shader.blurTap sample coord px j) acc ks)
        (vscale col (W + rowWeight ks j)).
Proof.
  induction ks as [|i ks IH]; intros acc W Hs Hacc.
  - cbn. eapply veq_trans; [exact Hacc|]. apply veq_vscale; [apply veq_refl | ring].
  - cbn [foldl rowWeight foldr].
    eapply veq_trans.
    + apply (IH _ (W + weight i j)%Q).
      * intros i' Hi'. apply Hs. by right.
      * unfold Shader.blurTap. fold (weight i j).
        eapply veq_trans; [|apply vscale_plus].
        apply veq_vadd; [done|]. apply veq_vscale; [|reflexivity].
        apply Hs. left.
    + apply veq_vscale; [apply veq_refl|]. fold (rowWeight ks j). ring.
Qed.

Lemma blur_constant_rows (ks js : list Z) :
  ∀ (acc : vec3) (W : Q),
    (∀ i j, i ∈ ks → j ∈ js →
       veq (sample (Shader.offset coord px (inject_Z i) (inject_Z j))) col) →
    veq acc (vscale col W) →
    veq (foldl (λ acc j, foldl (Shader.blurTap sample coord px j) acc ks) acc js)
        (vscale col (W + kernelWeight ks js)).
Proof.
  induction js as [|j js IH]; intros acc W Hs Hacc.
  - cbn. eapply veq_trans; [exact Hacc|]. apply veq_vscale; [apply veq_refl | ring].
  - cbn [foldl kernelWeight foldr].
    eapply veq_trans.
    + apply (IH _ (W + rowWeight ks j)%Q).
      * intros i j' Hi Hj'. apply Hs; [done | by right].
      * apply blurRow_constant; [|done]. intros i Hi. apply Hs; [done | left].
    + apply veq_vscale; [apply veq_refl|]. fold (kernelWeight ks js). ring.
Qed.

(** Where all 25 taps read the same colour, the blur is that colour
    scaled by the sum of the kernel. *)
Lemma blur_constant :
  (∀ i j, -2 ≤ i ≤ 2 → -2 ≤ j ≤ 2 →
     veq (sample (Shader.offset coord px (inject_Z i) (inject_Z j))) col) →
  veq (Shader.blur sample coord px) (vscale col 0.987).
Proof.
  intros Hs. unfold Shader.blur.
  eapply veq_trans.
  - apply (blur_constant_rows (seqZ (-2) 5) (seqZ (-2) 5) _ 0%Q).
    + intros i j Hi%elem_of_seqZ Hj%elem_of_seqZ. apply Hs; lia.
    + destruct col as [[r g] b]. cbn. split_and!; ring.
  - apply veq_vscale; [apply veq_refl|]. by vm_compute.
Qed.
End blur_constant.

(** ** Bytes and packed colours *)

Lemma unorm8_range (c : Q) : 0 ≤ unorm8 c ≤ 255.
Proof.
  unfold unorm8.
  assert (0 <= 1)%Q as H01 by lra.
  destruct (Qclamp_range 0 1 c H01) as [Hlo Hhi].
  set (v := Qclamp 0 1 c) in *. split.
  - apply Z.le_trans with (Qfloor (0 + (1 # 2))%Q); [by vm_compute|].
    apply Qfloor_resp_le. lra.
  - apply Z.le_trans with (Qfloor (255 + (1 # 2))%Q); [|by vm_compute].
    apply Qfloor_resp_le. lra.
Qed.

(** [packedData] holds bytes. *)
Lemma processOnGPU_bytes (img : HTMLImageElement) (simplification : Z) :
  Forall (λ b, 0 ≤ b ≤ 255) (processOnGPU img simplification).1.1.
Proof.
  unfold processOnGPU. cbn [fst].
  apply Forall_join, Forall_fmap, Forall_forall. intros y _.
  apply Forall_join, Forall_fmap, Forall_forall. intros x _.
  unfold compose, readPixel. destruct (fragColor _ _ _ _) as [[[r g] b] a].
  repeat constructor; apply unorm8_range.
Qed.

Lemma lor_below_2_24 (a b : Z) :
  0 ≤ a < 2 ^ 24 → 0 ≤ b < 2 ^ 24 → 0 ≤ Z.lor a b < 2 ^ 24.
Proof.
  intros Ha Hb. split; [apply Z.lor_nonneg; lia|].
  assert (∀ c, 0 ≤ c < 2 ^ 24 → Z.log2 c < 24) as Hlog.
  { intros c Hc. destruct (decide (c = 0)) as [->|Hne]; [done|].
    apply Z.log2_lt_pow2; lia. }
  destruct (decide (Z.lor a b = 0)) as [->|Hne]; [done|].
  assert (0 ≤ Z.lor a b) by (apply Z.lor_nonneg; lia).
  apply Z.log2_lt_pow2; [lia|]. rewrite Z.log2_lor by lia.
  apply Z.max_lub_lt; apply Hlog; lia.
Qed.

(** The operands of [<<] and [|] are bytes, so the packed colour lies
    below 2^24 and the 32-bit arithmetic of these operators never wraps. *)
Lemma packedColor_range (packedData : list Z) (i : Z) :
  Forall (λ b, 0 ≤ b ≤ 255) packedData → 0 ≤ packedColor packedData i < 2 ^ 24.
Proof.
  intros Hbytes.
  assert (∀ j, 0 ≤ byteAt packedData j ≤ 255) as Hb.
  { intros j. unfold byteAt, get. case_decide; [|done].
    destruct (packedData !! Z.to_nat j) as [b|] eqn:E; [|done].
    apply list_elem_of_lookup_2 in E. rewrite Forall_forall in Hbytes. by apply Hbytes. }
  unfold packedColor.
  pose proof (Hb i). pose proof (Hb (i + 1)). pose proof (Hb (i + 2)).
  rewrite !Z.shiftl_mul_pow2 by lia.
  apply lor_below_2_24; [apply lor_below_2_24|]; lia.
Qed.

(** The colours packed from the read-back fit in 24 bits. *)
Lemma colorAt_range (img : HTMLImageElement) (simplification y x : Z) :
  0 ≤ colorAt (processOnGPU img simplification).1.1 (naturalWidth img) y x < 2 ^ 24.
Proof. apply packedColor_range, processOnGPU_bytes. Qed.

(** ** Texture sampling *)

(** Clamping to the edge keeps every texel index inside the texture. *)
Lemma texel_index_range (W : Z) (u : Q) :
  1 ≤ W →
  0 ≤ Qfloor (Qclamp (1 # 2) (inject_Z W - (1 # 2)) (u * inject_Z W) - (1 # 2))%Q ≤ W - 1.
Proof.
  intros HW.
  assert (1 <= inject_Z W)%Q as HW' by (by apply (inject_Z_le 1)).
  assert ((1 # 2) <= inject_Z W - (1 # 2))%Q as Hlh by lra.
  destruct (Qclamp_range (1 # 2) (inject_Z W - (1 # 2)) (u * inject_Z W) Hlh) as [Hlo Hhi].
  set (s := Qclamp (1 # 2) (inject_Z W - (1 # 2)) (u * inject_Z W)) in *.
  split.
  - change 0 with (Qfloor (inject_Z 0)) at 1. apply Qfloor_resp_le.
    change (inject_Z 0) with 0%Q. lra.
  - rewrite <- (Qfloor_Z (W - 1)). apply Qfloor_resp_le.
    unfold Z.sub. rewrite inject_Z_plus, inject_Z_opp. change (inject_Z 1) with 1%Q. lra.
Qed.

Lemma texture_ext (img1 img2 : HTMLImageElement) :
  naturalWidth img1 = naturalWidth img2 →
  naturalHeight img1 = naturalHeight img2 →
  1 ≤ naturalWidth img1 → 1 ≤ naturalHeight img1 →
  (∀ x y, 0 ≤ x < naturalWidth img1 → 0 ≤ y < naturalHeight img1 →
          pixel img1 x y = pixel img2 x y) →
  ∀ uv, texture img1 uv = texture img2 uv.
Proof.
  intros HW HH HW1 HH1 Hpix [u v]. unfold texture. rewrite <- HW, <- HH.
  pose proof (texel_index_range (naturalWidth img1) u HW1) as Hi.
  pose proof (texel_index_range (naturalHeight img1) v HH1) as Hj.
  cbv zeta.
  assert (∀ i j, 0 ≤ i < naturalWidth img1 → 0 ≤ j < naturalHeight img1 →
                 texel img1 i j = texel img2 i j) as Htex.
  { intros i j Hir Hjr. unfold texel. by rewrite Hpix. }
  rewrite !Htex by lia. done.
Qed.

Lemma texture_black (img : HTMLImageElement) :
  1 ≤ naturalWidth img → 1 ≤ naturalHeight img →
  (∀ x y, 0 ≤ x < naturalWidth img → 0 ≤ y < naturalHeight img →
          pixel img x y = (0, 0, 0)) →
  ∀ uv, veq (texture img uv) (0, 0, 0)%Q.
Proof.
  intros HW1 HH1 Hpix [u v]. unfold texture.
  pose proof (texel_index_range (naturalWidth img) u HW1) as Hi.
  pose proof (texel_index_range (naturalHeight img) v HH1) as Hj.
  cbv zeta.
  assert (∀ i j, 0 ≤ i < naturalWidth img → 0 ≤ j < naturalHeight img →
                 texel img i j = (0 / 255, 0 / 255, 0 / 255)%Q) as Htex.
  { intros i j Hir Hjr. unfold texel. by rewrite Hpix. }
  rewrite !Htex by lia. cbn -[Qdiv Qmult Qplus Qminus]. unfold Qdiv. split_and!; ring.
Qed.

(** ** The shader depends on the picture only through the samples *)

Lemma blur_ext (s1 s2 : vec2 → vec3) (coord px : vec2) :
  (∀ uv, s1 uv = s2 uv) → Shader.blur s1 coord px = Shader.blur s2 coord px.
Proof.
  intros Hs. unfold Shader.blur. apply foldl_ext_in. intros acc j _.
  unfold Shader.blurRow. apply foldl_ext_in. intros acc' i _.
  unfold Shader.blurTap. by rewrite Hs.
Qed.

Lemma main_ext (s1 s2 : vec2 → vec3) (res : vec2) (q : Q) (coord : vec2) :
  (∀ uv, s1 uv = s2 uv) → Shader.main s1 res q coord = Shader.main s2 res q coord.
Proof.
  intros Hs. unfold Shader.main. rewrite (blur_ext s1 s2) by done. by rewrite !Hs.
Qed.

Lemma quantize_veq (q : Q) (u v : vec3) :
  veq u v → Shader.quantize q u = Shader.quantize q v.
Proof.
  destruct u as [[r1 g1] b1], v as [[r2 g2] b2]. cbn.
  intros (Hr & Hg & Hb). by rewrite Hr, Hg, Hb.
Qed.

Lemma unorm8_quantize1_zero (q : Q) : unorm8 (Shader.quantize1 q 0) = 0.
Proof.
  assert (Shader.quantize1 q 0 == 0)%Q as ->; [|by vm_compute].
  unfold Shader.quantize1.
  assert (Qfloor (0 * 255 / q + 0.5) = 0) as ->.
  { assert (0 * 255 / q + 0.5 == inject_Z 0 + 0.5)%Q as ->
      by (change (inject_Z 0) with 0%Q; unfold Qdiv; ring).
    apply Qfloor_half. }
  change (inject_Z 0) with 0%Q. unfold Qdiv. ring.
Qed.

(** A fragment all of whose samples are black is written as four zero
    bytes. *)
Lemma main_black (sample : vec2 → vec3) (res : vec2) (q : Q) (coord : vec2) :
  (∀ uv, veq (sample uv) (0, 0, 0)%Q) →
  let '((r, g, b), a) := Shader.main sample res q coord in
  [unorm8 r; unorm8 g; unorm8 b; unorm8 a] = [0; 0; 0; 0].
Proof.
  intros Hs. unfold Shader.main. cbv zeta.
  rewrite !(quantize_veq q (sample _) (0, 0, 0)%Q) by apply Hs.
  rewrite (quantize_veq q (Shader.blur _ _ _) (0, 0, 0)%Q).
  - cbn [Shader.quantize vmap]. rewrite unorm8_quantize1_zero.
    destruct (Qlt_le_dec _ _) as [Hlt|Hle]; [|done].
    exfalso. revert Hlt.
    set (L := Shader.luminance _).
    assert (Qabs (L - L) == 0)%Q as ->.
    { assert (L - L == 0)%Q as -> by ring. reflexivity. }
    by vm_compute.
  - eapply veq_trans; [apply blur_constant; intros; apply Hs|].
    cbn. split_and!; ring.
Qed.

(** ** [processOnGPU] and the picture *)

Lemma readPixel_ext (img1 img2 : HTMLImageElement) (simplification y x : Z) :
  naturalWidth img1 = naturalWidth img2 →
  naturalHeight img1 = naturalHeight img2 →
  1 ≤ naturalWidth img1 → 1 ≤ naturalHeight img1 →
  (∀ x y, 0 ≤ x < naturalWidth img1 → 0 ≤ y < naturalHeight img1 →
          pixel img1 x y = pixel img2 x y) →
  readPixel img1 simplification y x = readPixel img2 simplification y x.
Proof.
  intros HW HH HW1 HH1 Hpix. unfold readPixel, fragColor.
  rewrite <- HW, <- HH.
  by rewrite (main_ext (texture img1) (texture img2)) by by apply texture_ext.
Qed.

(** The read-back depends only on the size of the picture and on the
    pixels inside it. *)
Lemma processOnGPU_ext (img1 img2 : HTMLImageElement) (simplification : Z) :
  naturalWidth img1 = naturalWidth img2 →
  naturalHeight img1 = naturalHeight img2 →
  (∀ x y, 0 ≤ x < naturalWidth img1 → 0 ≤ y < naturalHeight img1 →
          pixel img1 x y = pixel img2 x y) →
  processOnGPU img1 simplification = processOnGPU img2 simplification.
Proof.
  intros HW HH Hpix. unfold processOnGPU. rewrite <- HW, <- HH.
  do 3 f_equal. apply list_fmap_ext. intros _ y Hy%list_elem_of_lookup_2%elem_of_seqZ.
  f_equal. apply list_fmap_ext. intros _ x Hx%list_elem_of_lookup_2%elem_of_seqZ.
  apply readPixel_ext; (done || lia).
Qed.

Lemma processOnGPU_black (img : HTMLImageElement) (simplification : Z) :
  (∀ x y, 0 ≤ x < naturalWidth img → 0 ≤ y < naturalHeight img →
          pixel img x y = (0, 0, 0)) →
  Forall (λ b, b = 0) (processOnGPU img simplification).1.1.
Proof.
  intros Hpix. unfold processOnGPU. cbn [fst].
  apply Forall_join, Forall_fmap, Forall_forall. intros y Hy%elem_of_seqZ.
  apply Forall_join, Forall_fmap, Forall_forall. intros x Hx%elem_of_seqZ.
  unfold compose, readPixel, fragColor.
  pose proof (main_black (texture img)
                (inject_Z (naturalWidth img), inject_Z (naturalHeight img))
                (inject_Z (qFactor simplification))
                (v_texCoord (naturalWidth img) (naturalHeight img) x y)) as Hm.
  destruct (Shader.main _ _ _ _) as [[[r g] b] a].
  rewrite Hm.
  - by repeat constructor.
  - apply texture_black; (done || lia).
Qed.

Lemma packedColor_zero (packedData : list Z) (i : Z) :
  Forall (λ b, b = 0) packedData → packedColor packedData i = 0.
Proof.
  intros Hz.
  assert (∀ j, byteAt packedData j = 0) as Hb.
  { intros j. unfold byteAt, get. case_decide; [|done].
    destruct (packedData !! Z.to_nat j) as [b|] eqn:E; [|done].
    apply list_elem_of_lookup_2 in E. rewrite Forall_forall in Hz. by apply Hz. }
  unfold packedColor. by rewrite !Hb.
Qed.

(** ** Background only *)

Lemma shapes_background (packedData : list Z) (width height simplification : Z) :
  (∀ y x, 0 ≤ y < height → 0 ≤ x < width → colorAt packedData width y x = 0) →
  shapes packedData width height simplification = [].
Proof.
  intros Hbg. unfold shapes.
  pose proof (elem_of_uniqueColors packedData width height) as Hin.
  destruct (repack packedData width height) as [qc uc]. cbn [snd] in Hin.
  destruct uc as [|c uc]; [done|]. exfalso.
  destruct (proj1 (Hin c) ltac:(left)) as (Hnz & y & x & Hy & Hx & Hc).
  rewrite Hbg in Hc by done. done.
Qed.

(** ** Sampled rows and shape counts *)

Lemma elem_of_svgRows (height rowStep svgY : Z) :
  1 ≤ rowStep →
  svgY ∈ svgRows height rowStep ↔ ∃ k, 0 ≤ k ∧ svgY = k * rowStep ∧ svgY < height.
Proof.
  intros Hrs. rewrite svgRows_spec by done. unfold specSampledRows.
  rewrite list_elem_of_fmap. split.
  - intros (k & -> & Hk%elem_of_seqZ). exists k. split_and!; [lia|done|].
    assert (k + 1 ≤ (height + rowStep - 1) / rowStep) as Hk1 by lia.
    pose proof (Z.mul_div_le (height + rowStep - 1) rowStep ltac:(lia)). nia.
  - intros (k & Hk & -> & Hlt). exists k. split; [done|]. apply elem_of_seqZ.
    split; [lia|].
    assert (k + 1 ≤ (height + rowStep - 1) / rowStep); [|lia].
    apply Z.div_le_lower_bound; lia.
Qed.

Lemma count_NoDup_fst (c : Z) (l : list (Z * string)) :
  NoDup l.*1 →
  length (filter (λ sh, sh.1 = c) l) = if decide (c ∈ l.*1) then 1%nat else 0%nat.
Proof.
  induction l as [|[c0 p] l IH]; intros Hnd.
  - cbn. rewrite decide_False; [done | apply not_elem_of_nil].
  - cbn [fmap list_fmap fst] in Hnd. apply NoDup_cons in Hnd as [Hnin Hnd].
    specialize (IH Hnd). cbn [fmap list_fmap fst].
    destruct (decide (c0 = c)) as [->|Hne].
    + rewrite filter_cons_True by done. cbn [length]. rewrite IH.
      rewrite decide_False by done. rewrite decide_True by left. done.
    + rewrite filter_cons_False by done. rewrite IH.
      destruct (decide (c ∈ l.*1)) as [Hin|Hnin'].
      * rewrite decide_True by (by right). done.
      * rewrite decide_False; [done|]. intros [?|?]%elem_of_cons; congruence.
Qed.

Lemma shapes_colors (packedData : list Z) (width height simplification : Z) :
  (shapes packedData width height simplification).*1 =
  filter (λ c, pathDataOf (repack packedData width height).1 width height
                 (rowStep simplification) c ≠ EmptyString)
         (repack packedData width height).2.
Proof.
  unfold shapes. destruct (repack packedData width height) as [qc uc]. cbn [fst snd].
  induction uc as [|c uc IH]; [done|].
  cbn [fmap list_fmap]. destruct (decide (pathDataOf qc width height (rowStep simplification) c
                                          ≠ EmptyString)) as [Hne|He].
  - rewrite !filter_cons_True by done. cbn [fmap list_fmap fst]. by rewrite <- IH.
  - rewrite !filter_cons_False by done. apply IH.
Qed.

Lemma rowStep_pos (simplification : Z) : 1 ≤ rowStep simplification.
Proof. unfold rowStep. lia. Qed.

(** A colour has a shape exactly when it is not the background and occurs
    in a sampled row of the buffer. *)
Lemma elem_of_shapes_colors (packedData : list Z) (width height simplification c : Z) :
  0 ≤ width →
  c ∈ (shapes packedData width height simplification).*1 ↔
  c ≠ 0 ∧ ∃ k x, 0 ≤ k ∧ k * rowStep simplification < height ∧ 0 ≤ x < width ∧
                 colorAt packedData width (height - 1 - k * rowStep simplification) x = c.
Proof.
  intros Hw. rewrite shapes_colors, list_elem_of_filter, elem_of_uniqueColors.
  rewrite pathDataOf_nonempty;
    [|done|apply length_quantizedColors|apply rowStep_pos].
  split.
  - intros [(svgY & x & HsvgY & Hx & Hget) [Hnz _]]. split; [done|].
    apply elem_of_svgRows in HsvgY as (k & Hk & -> & Hlt); [|apply rowStep_pos].
    exists k, x. split_and!; [done || lia ..|].
    unfold dataRowOffset, dataRowIndex in Hget.
    pose proof (rowStep_pos simplification).
    rewrite get_quantizedColors in Hget by nia. by injection Hget.
  - intros (Hnz & k & x & Hk & Hlt & Hx & Hc). split.
    + exists (k * rowStep simplification), x. split; [|split; [done|]].
      * apply elem_of_svgRows; [apply rowStep_pos|]. by exists k.
      * unfold dataRowOffset, dataRowIndex.
        pose proof (rowStep_pos simplification).
        rewrite get_quantizedColors by nia. by rewrite Hc.
    + split; [done|].
      exists (height - 1 - k * rowStep simplification), x.
      pose proof (rowStep_pos simplification). split_and!; (done || nia).
Qed.

Lemma NoDup_shapes_colors (packedData : list Z) (width height simplification : Z) :
  NoDup (shapes packedData width height simplification).*1.
Proof. rewrite shapes_colors. apply NoDup_filter, NoDup_uniqueColors. Qed.

Lemma traceImageOffline_vectorize (img : HTMLImageElement) (simplification : Z) :
  traceImageOffline img simplification =
  vectorize (processOnGPU img simplification).1.1
            (naturalWidth img) (naturalHeight img) simplification.
Proof. reflexivity. Qed.

(** ** The fragment of window pixel (x, y) reads the picture around its
    pixel (x, y), rows counted from the top *)

Lemma Qclamp_center (W X : Z) (c : Q) :
  1 ≤ W → (c == inject_Z X + (1 # 2))%Q →
  (Qclamp (1 # 2) (inject_Z W - (1 # 2)) c - (1 # 2) == inject_Z (clampZ 0 (W - 1) X))%Q.
Proof.
  intros HW Hc. rewrite Hc. unfold clampZ.
  assert (1 <= inject_Z W)%Q as HW' by (by apply (inject_Z_le 1)).
  destruct (Z_lt_le_dec X 0) as [Hneg|Hnn].
  - assert (inject_Z X + 1 <= 0)%Q as HX
      by (change 1%Q with (inject_Z 1); rewrite <- inject_Z_plus; apply (inject_Z_le _ 0); lia).
    rewrite Z.max_r, Z.min_l by lia.
    unfold Qclamp. rewrite Q.max_r by lra. rewrite Q.min_l by lra.
    change (inject_Z 0) with 0%Q. lra.
  - assert (0 <= inject_Z X)%Q as HX by (by apply (inject_Z_le 0)).
    rewrite Z.max_l by lia.
    destruct (Z_le_gt_dec X (W - 1)) as [Hle|Hgt].
    + assert (inject_Z X + 1 <= inject_Z W)%Q as HXW
        by (change 1%Q with (inject_Z 1); rewrite <- inject_Z_plus; apply inject_Z_le; lia).
      rewrite Z.min_l by lia. rewrite Qclamp_inside by lra. lra.
    + assert (inject_Z W <= inject_Z X)%Q as HXW by (apply inject_Z_le; lia).
      rewrite Z.min_r by lia. rewrite Qclamp_above by lra.
      unfold Z.sub. rewrite inject_Z_plus, inject_Z_opp. change (inject_Z 1) with 1%Q. lra.
Qed.

Lemma texture_at_texel (img : HTMLImageElement) (u v : Q) (X Y : Z) :
  1 ≤ naturalWidth img → 1 ≤ naturalHeight img →
  (u * inject_Z (naturalWidth img) == inject_Z X + (1 # 2))%Q →
  (v * inject_Z (naturalHeight img) == inject_Z Y + (1 # 2))%Q →
  veq (texture img (u, v))
      (texel img (clampZ 0 (naturalWidth img - 1) X) (clampZ 0 (naturalHeight img - 1) Y)).
Proof.
  intros HW HH Hu Hv. unfold texture.
  pose proof (Qclamp_center _ X _ HW Hu) as Hs.
  pose proof (Qclamp_center _ Y _ HH Hv) as Ht.
  cbv zeta.
  set (s := (Qclamp (1 # 2) (inject_Z (naturalWidth img) - (1 # 2))
                    (u * inject_Z (naturalWidth img)) - (1 # 2))%Q) in *.
  set (t := (Qclamp (1 # 2) (inject_Z (naturalHeight img) - (1 # 2))
                    (v * inject_Z (naturalHeight img)) - (1 # 2))%Q) in *.
  assert (Qfloor s = clampZ 0 (naturalWidth img - 1) X) as Hfs
    by (rewrite Hs; apply Qfloor_Z).
  assert (Qfloor t = clampZ 0 (naturalHeight img - 1) Y) as Hft
    by (rewrite Ht; apply Qfloor_Z).
  rewrite Hfs, Hft.
  assert (s - inject_Z (clampZ 0 (naturalWidth img - 1) X) == 0)%Q as Ha by (rewrite Hs; ring).
  assert (t - inject_Z (clampZ 0 (naturalHeight img - 1) Y) == 0)%Q as Hb by (rewrite Ht; ring).
  set (a := (s - inject_Z (clampZ 0 (naturalWidth img - 1) X))%Q) in *.
  set (b := (t - inject_Z (clampZ 0 (naturalHeight img - 1) Y))%Q) in *.
  destruct (texel img (clampZ 0 (naturalWidth img - 1) X)
                      (clampZ 0 (naturalHeight img - 1) Y)) as [[r00 g00] b00].
  destruct (texel img _ (clampZ 0 (naturalHeight img - 1) Y)) as [[r10 g10] b10].
  destruct (texel img (clampZ 0 (naturalWidth img - 1) X) _) as [[r01 g01] b01].
  destruct (texel img _ _) as [[r11 g11] b11].
  cbn. rewrite Ha, Hb. split_and!; ring.
Qed.

(** The coordinate of tap [(i, j)] is the centre of texel
    [(x + i, y + j)]. *)
Lemma texture_tap (img : HTMLImageElement) (x y i j : Z) :
  1 ≤ naturalWidth img → 1 ≤ naturalHeight img →
  veq (texture img
         (Shader.offset (v_texCoord (naturalWidth img) (naturalHeight img) x y)
            ((1 / inject_Z (naturalWidth img))%Q, (1 / inject_Z (naturalHeight img))%Q)
            (inject_Z i) (inject_Z j)))
      (pictureSample img x y i j).
Proof.
  intros HW HH. unfold Shader.offset, v_texCoord, pictureSample. cbn [fst snd].
  assert (1 <= inject_Z (naturalWidth img))%Q as HW' by (by apply (inject_Z_le 1)).
  assert (1 <= inject_Z (naturalHeight img))%Q as HH' by (by apply (inject_Z_le 1)).
  apply texture_at_texel; [done|done| |]; rewrite inject_Z_plus; field; lra.
Qed.

Lemma blurTaps_veq (sample : vec2 → vec3) (coord px : vec2) (t : Z → Z → vec3) :
  (∀ i j, veq (sample (Shader.offset coord px (inject_Z i) (inject_Z j))) (t i j)) →
  veq (Shader.blur sample coord px) (blurTaps t).
Proof.
  intros Hs. unfold Shader.blur, blurTaps.
  generalize (seqZ (-2) 5) at 1 3. intros js.
  assert (veq (0, 0, 0)%Q (0, 0, 0)%Q) as Hacc by apply veq_refl.
  revert Hacc. generalize (0, 0, 0)%Q at 1 3. generalize (0, 0, 0)%Q.
  induction js as [|j js IH]; intros acc' acc Hacc; [done|].
  cbn [foldl]. apply IH. unfold Shader.blurRow.
  generalize (seqZ (-2) 5). intros ks. revert acc acc' Hacc.
  induction ks as [|i ks IHk]; intros acc acc' Hacc; [done|].
  cbn [foldl]. apply IHk. unfold Shader.blurTap. fold (weight i j).
  apply veq_vadd; [done|]. apply veq_vscale; [apply Hs | reflexivity].
Qed.

Lemma fragColor_at (img : HTMLImageElement) (simplification x y : Z) :
  1 ≤ naturalWidth img → 1 ≤ naturalHeight img →
  fragColor img simplification x y = fragColorAt img simplification x y.
Proof.
  intros HW HH. unfold fragColor, fragColorAt, Shader.main. cbv zeta. cbn [fst snd].
  pose proof (λ i j, texture_tap img x y i j HW HH) as Htap.
  set (coord := v_texCoord (naturalWidth img) (naturalHeight img) x y) in *.
  set (px := ((1 / inject_Z (naturalWidth img))%Q, (1 / inject_Z (naturalHeight img))%Q)) in *.
  rewrite (quantize_veq _ (Shader.blur (texture img) coord px)
             (blurTaps (pictureSample img x y)))
    by (by apply blurTaps_veq).
  rewrite (quantize_veq _ (texture img (Shader.offset coord px (-1) 0))
             (pictureSample img x y (-1) 0)) by apply (Htap (-1) 0).
  rewrite (quantize_veq _ (texture img (Shader.offset coord px 1 0))
             (pictureSample img x y 1 0)) by apply (Htap 1 0).
  rewrite (quantize_veq _ (texture img (Shader.offset coord px 0 (-1)))
             (pictureSample img x y 0 (-1))) by apply (Htap 0 (-1)).
  rewrite (quantize_veq _ (texture img (Shader.offset coord px 0 1))
             (pictureSample img x y 0 1)) by apply (Htap 0 1).
  done.
Qed.

Lemma processOnGPU_at (img : HTMLImageElement) (simplification : Z) :
  processOnGPU img simplification = processOnGPUAt img simplification.
Proof.
  unfold processOnGPU, processOnGPUAt. do 3 f_equal.
  apply list_fmap_ext. intros _ y Hy%list_elem_of_lookup_2%elem_of_seqZ.
  f_equal. apply list_fmap_ext. intros _ x Hx%list_elem_of_lookup_2%elem_of_seqZ.
  unfold readPixel, readPixelAt. by rewrite fragColor_at by lia.
Qed.

(** ** Where the read-back puts the rows of the picture *)

Lemma length_readPixel (img : HTMLImageElement) (simplification y x : Z) :
  length (readPixel img simplification y x) = 4%nat.
Proof. unfold readPixel. by destruct (fragColor _ _ _ _) as [[[r g] b] a]. Qed.

Lemma length_readRow (img : HTMLImageElement) (simplification width y : Z) :
  length (mjoin (readPixel img simplification y <$> seqZ 0 width)) = (Z.to_nat width * 4)%nat.
Proof.
  rewrite length_join, (sum_list_fmap_same 4).
  - by rewrite !length_fmap, length_seqZ.
  - apply Forall_fmap, Forall_forall. intros x _. apply length_readPixel.
Qed.

(** Byte [k] of the pixel in column [x] of window row [y] is element
    [(y * width + x) * 4 + k] of [packedData]. *)
Lemma lookup_packedData (img : HTMLImageElement) (simplification y x : Z) (k : nat) (v : Z) :
  0 ≤ y < naturalHeight img → 0 ≤ x < naturalWidth img →
  readPixel img simplification y x !! k = Some v →
  get (processOnGPU img simplification).1.1 (srcIdx (naturalWidth img) y x + Z.of_nat k) = Some v.
Proof.
  intros Hy Hx Hk.
  assert (k < 4)%nat as Hk4 by (apply lookup_lt_Some in Hk; by rewrite length_readPixel in Hk).
  unfold get, srcIdx. rewrite decide_True by nia.
  replace (Z.to_nat ((y * naturalWidth img + x) * 4 + Z.of_nat k))
    with (Z.to_nat y * (Z.to_nat (naturalWidth img) * 4) + (Z.to_nat x * 4 + k))%nat by nia.
  unfold processOnGPU. cbn [fst].
  apply (join_lookup_Some_same_length' (Z.to_nat (naturalWidth img) * 4)).
  - apply Forall_fmap, Forall_forall. intros y' _. apply length_readRow.
  - nia.
  - exists (mjoin (readPixel img simplification y <$> seqZ 0 (naturalWidth img))). split.
    + rewrite list_lookup_fmap, lookup_seqZ_lt by lia.
      rewrite Z.add_0_l, Z2Nat.id by lia. reflexivity.
    + apply (join_lookup_Some_same_length' 4); [|done|].
      * apply Forall_fmap, Forall_forall. intros x' _. apply length_readPixel.
      * exists (readPixel img simplification y x). split; [|exact Hk].
        rewrite list_lookup_fmap, lookup_seqZ_lt by lia.
        rewrite Z.add_0_l, Z2Nat.id by lia. reflexivity.
Qed.

(** Row [y] of the buffer holds the colours computed around row [y] of
    the picture, counted from the top. *)
Lemma colorAt_processOnGPU (img : HTMLImageElement) (simplification y x : Z) :
  0 ≤ y < naturalHeight img → 0 ≤ x < naturalWidth img →
  colorAt (processOnGPU img simplification).1.1 (naturalWidth img) y x =
  pixelColor img simplification x y.
Proof.
  intros Hy Hx. unfold colorAt, packedColor, byteAt, pixelColor.
  pose proof (lookup_packedData img simplification y x) as Hl.
  unfold readPixel in Hl. rewrite fragColor_at in Hl by lia.
  destruct (fragColorAt img simplification x y) as [[[r g] b] a].
  pose proof (Hl 0%nat _ Hy Hx eq_refl) as H0.
  pose proof (Hl 1%nat _ Hy Hx eq_refl) as H1.
  pose proof (Hl 2%nat _ Hy Hx eq_refl) as H2.
  rewrite Z.add_0_r in H0.
  change (Z.of_nat 1) with 1 in H1. change (Z.of_nat 2) with 2 in H2.
  by rewrite H0, H1, H2.
Qed.

(** The mirroring, for every picture: the row loop fills output row
    [svgY] with the colours of picture row [height - 1 - svgY]. *)
Lemma output_row_is_mirrored_picture_row (img : HTMLImageElement)
    (simplification svgY x : Z) :
  0 ≤ svgY < naturalHeight img → 0 ≤ x < naturalWidth img →
  get (repack (processOnGPU img simplification).1.1
              (naturalWidth img) (naturalHeight img)).1
      (dataRowOffset (naturalWidth img) (naturalHeight img) svgY + x) =
  Some (pixelColor img simplification x (naturalHeight img - 1 - svgY)).
Proof.
  intros Hy Hx. unfold dataRowOffset, dataRowIndex.
  rewrite get_quantizedColors by lia. f_equal. apply colorAt_processOnGPU; lia.
Qed.

(** ** The read-back of the example pictures *)

Lemma blueOverRed_readback :
  processOnGPU blueOverRed 0 =
  ([ 76; 0; 176; 255; 76; 0; 176; 255; 76; 0; 176; 255; 76; 0; 176; 255;
     176; 0; 76; 255; 176; 0; 76; 255; 176; 0; 76; 255; 176; 0; 76; 255;
     236; 0; 12; 0; 236; 0; 12; 0; 236; 0; 12; 0; 236; 0; 12; 0;
     252; 0; 0; 0; 252; 0; 0; 0; 252; 0; 0; 0; 252; 0; 0; 0 ], 4, 4).
Proof. rewrite processOnGPU_at. by vm_compute. Qed.

Lemma whiteOverBlack_readback :
  processOnGPU whiteOverBlack 0 =
  ([ 176; 176; 176; 255; 176; 176; 176; 255;
     76; 76; 76; 255; 76; 76; 76; 255;
     12; 12; 12; 0; 12; 12; 12; 0;
     0; 0; 0; 0; 0; 0; 0; 0 ], 2, 4).
Proof. rewrite processOnGPU_at. by vm_compute. Qed.

Lemma twoRows_readback :
  processOnGPU twoRows 40 = ([182; 182; 182; 255; 78; 78; 78; 255], 1, 2).
Proof. rewrite processOnGPU_at. by vm_compute. Qed.

(** ** The order in which colours are met *)

Lemma bind_mjoin {A B} (f : A → list B) (l : list A) : l ≫= f = mjoin (f <$> l).
Proof. induction l as [|a l IH]; [done|]. rewrite bind_cons, IH. done. Qed.

(** Element [y * width + x] of the scan order is the colour of column [x]
    of buffer row [y]. *)
Lemma lookup_scanOrder (packedData : list Z) (width height : Z) (n : nat) (c : Z) :
  scanOrder packedData width height !! n = Some c ↔
  ∃ y x, 0 ≤ y < height ∧ 0 ≤ x < width ∧ n = Z.to_nat (y * width + x) ∧
         colorAt packedData width y x = c.
Proof.
  unfold scanOrder. rewrite bind_mjoin.
  rewrite (join_lookup_Some_same_length (Z.to_nat width)).
  2:{ apply Forall_fmap, Forall_forall. intros y _. cbn.
      by rewrite length_fmap, length_seqZ. }
  split.
  - intros (j & l & i' & Hj & Hi' & ->).
    apply list_lookup_fmap_Some in Hj as (y & -> & Hy).
    apply list_lookup_fmap_Some in Hi' as (x & -> & Hx).
    apply lookup_seqZ in Hy as [-> Hy]. apply lookup_seqZ in Hx as [-> Hx].
    exists (0 + Z.of_nat j), (0 + Z.of_nat i'). split_and!; [lia..| |done]. nia.
  - intros (y & x & Hy & Hx & -> & <-).
    exists (Z.to_nat y), (colorAt packedData width y <$> seqZ 0 width), (Z.to_nat x).
    split_and!.
    + rewrite list_lookup_fmap, lookup_seqZ_lt by lia. cbn. do 3 f_equal. lia.
    + rewrite list_lookup_fmap, lookup_seqZ_lt by lia. cbn. do 2 f_equal. lia.
    + nia.
Qed.

(** [uniqueColors] lists the colours in the order of their first
    occurrence. *)
Lemma addNonZero_order (l : list Z) :
  ∀ (i j : nat) (c1 c2 : Z),
    (i < j)%nat →
    foldl addNonZero [] l !! i = Some c1 → foldl addNonZero [] l !! j = Some c2 →
    ∃ n1, l !! n1 = Some c1 ∧ ∀ n2, l !! n2 = Some c2 → (n1 < n2)%nat.
Proof.
  induction l as [|c l IH] using rev_ind; intros i j c1 c2 Hij H1 H2; [done|].
  rewrite foldl_snoc in H1, H2.
  assert (∀ n1, l !! n1 = Some c1 → (∀ n2, l !! n2 = Some c2 → (n1 < n2)%nat) →
            ∃ n1, (l ++ [c]) !! n1 = Some c1 ∧
                  ∀ n2, (l ++ [c]) !! n2 = Some c2 → (n1 < n2)%nat) as Hold.
  { intros n1 Hn1 Hall. exists n1. split; [by apply lookup_app_l_Some|].
    intros n2 Hn2. apply lookup_lt_Some in Hn1 as Hlt.
    destruct (decide (n2 < length l)%nat) as [Hn|Hn].
    - rewrite lookup_app_l in Hn2 by done. by apply Hall.
    - lia. }
  assert (∀ c', c' ∈ foldl addNonZero [] l ↔ c' ≠ 0 ∧ c' ∈ l) as Hmem.
  { intros c'. rewrite elem_of_addNonZero_all. rewrite elem_of_nil. tauto. }
  revert IH H1 H2 Hmem. generalize (foldl addNonZero [] l). intros u IH H1 H2 Hmem.
  unfold addNonZero, add in H1, H2.
  destruct (decide (c ≠ 0)) as [Hc|Hc]; [destruct (decide (c ∈ u)) as [Hin|Hin]|].
  - destruct (IH _ _ _ _ Hij H1 H2) as (n1 & ? & ?). eauto.
  - apply lookup_lt_Some in H2 as Hj. rewrite length_app in Hj. cbn in Hj.
    destruct (decide (j < length u)%nat) as [Hj'|Hj'].
    + rewrite lookup_app_l in H1, H2 by lia.
      destruct (IH _ _ _ _ Hij H1 H2) as (n1 & ? & ?). eauto.
    + assert (j = length u) as -> by lia.
      rewrite lookup_app_l in H1 by lia.
      rewrite list_lookup_middle in H2 by done. injection H2 as <-.
      assert (c1 ∈ l) as Hc1.
      { apply list_elem_of_lookup_2 in H1. by apply Hmem in H1 as [_ H1]. }
      apply list_elem_of_lookup_1 in Hc1 as [n1 Hn1]. exists n1.
      split; [by apply lookup_app_l_Some|].
      intros n2 Hn2. apply lookup_lt_Some in Hn1 as Hlt.
      destruct (decide (n2 < length l)%nat) as [Hn|Hn]; [|lia].
      rewrite lookup_app_l in Hn2 by done. apply list_elem_of_lookup_2 in Hn2.
      destruct Hin. by apply Hmem.
  - destruct (IH _ _ _ _ Hij H1 H2) as (n1 & ? & ?). eauto.
Qed.

(** Filtering keeps the order of the elements. *)
Lemma filter_order {A} (P : A → Prop) `{!∀ a, Decision (P a)} (l : list A) :
  ∀ (i j : nat) (a1 a2 : A),
    (i < j)%nat → filter P l !! i = Some a1 → filter P l !! j = Some a2 →
    ∃ i' j', (i' < j')%nat ∧ l !! i' = Some a1 ∧ l !! j' = Some a2.
Proof.
  induction l as [|a l IH]; intros i j a1 a2 Hij H1 H2; [done|].
  rewrite filter_cons in H1, H2. destruct (decide (P a)) as [Ha|Ha].
  - destruct j as [|j]; [lia|]. destruct i as [|i].
    + cbn in H1, H2. injection H1 as ->.
      apply list_elem_of_lookup_2, list_elem_of_filter in H2 as [_ H2].
      apply list_elem_of_lookup_1 in H2 as [j' Hj']. exists 0%nat, (S j'). split_and!; [lia|done..].
    + cbn in H1, H2. destruct (IH i j a1 a2) as (i' & j' & ? & ? & ?); [lia|done..|].
      exists (S i'), (S j'). split_and!; [lia|done..].
  - destruct (IH i j a1 a2) as (i' & j' & ? & ? & ?); [lia|done..|].
    exists (S i'), (S j'). split_and!; [lia|done..].
Qed.

(** * The claims *)

(** C1 (the code at a failing input): the 2x4 picture [whiteOverBlack] has
    a white stripe in its top row and is black below.  The stripe, smoothed
    and quantized to (176,176,176), is drawn at svgY = 3, the bottom of
    the canvas; the row below it at svgY = 2, the next at svgY = 1, and
    the top of the canvas, svgY = 0, stays empty: the document is the
    picture mirrored vertically. *)
Theorem C1_top_stripe_drawn_at_bottom :
  shapes (processOnGPU whiteOverBlack 0).1.1 2 4 0 =
    [ (packRGB 176 176 176, rectPath (MkRect 0 3 2 1));
      (packRGB 76 76 76, rectPath (MkRect 0 2 2 1));
      (packRGB 12 12 12, rectPath (MkRect 0 1 2 1)) ] ∧
  traceImageOffline whiteOverBlack 0 =
    svgDocument 2 4
      (pathElement (rectPath (MkRect 0 3 2 1)) (packRGB 176 176 176) +:+
       pathElement (rectPath (MkRect 0 2 2 1)) (packRGB 76 76 76) +:+
       pathElement (rectPath (MkRect 0 1 2 1)) (packRGB 12 12 12)).
Proof.
  rewrite traceImageOffline_vectorize, whiteOverBlack_readback.
  split; by vm_compute.
Qed.

(** C2 (as stated, refuted): for the 4x4 picture that is red below a blue
    top row and simplification 0, the document does not consist of a blue
    shape and a red shape. *)
Lemma C2_counterexample :
  ¬ ∃ redPath : string,
      shapes (processOnGPU blueOverRed 0).1.1 4 4 0 =
        [(packRGB 0 0 255, rectPath (MkRect 0 0 4 1)); (packRGB 255 0 0, redPath)]
      ∨ shapes (processOnGPU blueOverRed 0).1.1 4 4 0 =
        [(packRGB 255 0 0, redPath); (packRGB 0 0 255, rectPath (MkRect 0 0 4 1))].
Proof.
  assert (length (shapes (processOnGPU blueOverRed 0).1.1 4 4 0) = 4%nat) as Hlen
    by (rewrite blueOverRed_readback; by vm_compute).
  intros (redPath & [H|H]); rewrite H in Hlen; discriminate Hlen.
Qed.

(** C2 (amended): for that picture and simplification 0 (qFactor 4,
    rowStep 1) the document has exactly four shapes, one per picture row,
    because the smoothing mixes the two colours near their border: from
    the top row of the picture to its bottom row their fills are
    rgb(76,0,176), rgb(176,0,76), rgb(236,0,12) and rgb(252,0,0), and each
    is a single rectangle of width 4 and height 1 in a row of its own. *)
Theorem C2_four_blended_rows :
  qFactor 0 = 4 ∧ rowStep 0 = 1 ∧
  ∃ y0 y1 y2 y3 : Z,
    NoDup [y0; y1; y2; y3] ∧
    Forall (λ y, 0 ≤ y < 4) [y0; y1; y2; y3] ∧
    shapes (processOnGPU blueOverRed 0).1.1 4 4 0 =
      [ (packRGB 76 0 176, rectPath (MkRect 0 y0 4 1));
        (packRGB 176 0 76, rectPath (MkRect 0 y1 4 1));
        (packRGB 236 0 12, rectPath (MkRect 0 y2 4 1));
        (packRGB 252 0 0, rectPath (MkRect 0 y3 4 1)) ] ∧
    traceImageOffline blueOverRed 0 =
      svgDocument 4 4
        (pathElement (rectPath (MkRect 0 y0 4 1)) (packRGB 76 0 176) +:+
         pathElement (rectPath (MkRect 0 y1 4 1)) (packRGB 176 0 76) +:+
         pathElement (rectPath (MkRect 0 y2 4 1)) (packRGB 236 0 12) +:+
         pathElement (rectPath (MkRect 0 y3 4 1)) (packRGB 252 0 0)).
Proof.
  split; [done|]. split; [done|].
  exists 3, 2, 1, 0.
  rewrite traceImageOffline_vectorize, blueOverRed_readback. split_and!.
  - apply (bool_decide_unpack _). by vm_compute.
  - repeat constructor; lia.
  - by vm_compute.
  - by vm_compute.
Qed.

(** C3 (as stated, refuted): for simplification 48 (qFactor 16) and the
    Gaussian average of an all-white neighbourhood, the formula
    round(c*255/qFactor)*qFactor gives 256, which is not in 0..255 and is
    not the byte the buffer holds (255). *)
Lemma C3_counterexample :
  ¬ (unorm8 (Shader.quantize1 (inject_Z (qFactor 48)) whiteBlurred)
       = specQuantize (qFactor 48) whiteBlurred
     ∧ 0 ≤ specQuantize (qFactor 48) whiteBlurred ≤ 255).
Proof.
  assert (specQuantize (qFactor 48) whiteBlurred = 256) as -> by (by vm_compute).
  lia.
Qed.

(** C3 (amended): for every simplification in [0,100] and every channel
    value c in [0,1], qFactor = max(4, floor(simplification/3)) lies in
    4..33; the shader's quantize maps c to round(c*255/qFactor)*qFactor/255
    with rounding to nearest (halves up), so the multiple of qFactor it
    picks is within qFactor/2 of c*255; the byte stored in the buffer is
    that multiple saturated at 255, an integer in 0..255; the three
    channels are quantized independently. *)
Theorem C3_quantize_nearest_saturating (simplification : Z) (c : Q) :
  0 ≤ simplification ≤ 100 → (0 <= c)%Q → (c <= 1)%Q →
  let qF := qFactor simplification in
  qF = Z.max 4 (simplification / 3) ∧ 4 ≤ qF ≤ 33 ∧
  (Shader.quantize1 (inject_Z qF) c == inject_Z (specQuantize qF c) / 255)%Q ∧
  (c * 255 - inject_Z qF / 2 < inject_Z (specQuantize qF c))%Q ∧
  (inject_Z (specQuantize qF c) <= c * 255 + inject_Z qF / 2)%Q ∧
  unorm8 (Shader.quantize1 (inject_Z qF) c) = Z.min 255 (specQuantize qF c) ∧
  0 ≤ unorm8 (Shader.quantize1 (inject_Z qF) c) ≤ 255 ∧
  ∀ r g b : Q,
    Shader.quantize (inject_Z qF) (r, g, b) =
    (Shader.quantize1 (inject_Z qF) r, Shader.quantize1 (inject_Z qF) g,
     Shader.quantize1 (inject_Z qF) b).
Proof.
  intros Hs Hc0 Hc1 qF.
  assert (4 ≤ qF ≤ 33) as HqF.
  { unfold qF, qFactor. Z.div_mod_to_equations. lia. }
  pose proof (specQuantize_nearest qF c ltac:(lia)) as [Hlo Hhi].
  pose proof (specQuantize_nonneg qF c ltac:(lia) Hc0) as Hnn.
  pose proof (unorm8_quantize1 qF c ltac:(lia) Hc0) as Hbyte.
  split_and!; try done; try lia.
  apply quantize1_specQuantize.
Qed.

Lemma C3_quantize_nearest_saturating_witness :
  0 ≤ 48 ≤ 100 ∧
  unorm8 (Shader.quantize1 (inject_Z (qFactor 48)) 0.987) =
  Z.min 255 (specQuantize (qFactor 48) 0.987).
Proof.
  split; [lia|].
  apply (C3_quantize_nearest_saturating 48 0.987); [lia | by vm_compute | by vm_compute].
Defined.

(** C4: for every colour c the vectorizer visits svgY = 0, rowStep,
    2 rowStep, ... below height with rowStep = max(1, floor(simplification/20)),
    reads buffer row height - 1 - svgY, and appends for every run of c in
    that row (opened at the first column that equals c, closed at the first
    column that differs or at the row's end, x = width) the rectangle
    (startX, svgY) of size (x - startX, rowStep). *)
Theorem C4_scan_follows_spec (quantizedColors : list Z)
    (width height simplification c : Z) :
  0 ≤ width → length quantizedColors = Z.to_nat (width * height) →
  rowStep simplification = Z.max 1 (simplification / 20) ∧
  svgRows height (rowStep simplification) = specSampledRows height (rowStep simplification) ∧
  (∀ svgY, svgY ∈ svgRows height (rowStep simplification) →
     dataRowIndex height svgY = height - 1 - svgY) ∧
  pathDataOf quantizedColors width height (rowStep simplification) c =
  joinS (rectPath <$> specRects quantizedColors width height (rowStep simplification) c).
Proof.
  intros Hw Hlen. split_and!.
  - done.
  - apply svgRows_spec, rowStep_pos.
  - done.
  - apply pathDataOf_spec; [done..|apply rowStep_pos].
Qed.

Lemma C4_scan_follows_spec_witness :
  pathDataOf [7; 7; 0; 7; 0; 7; 7; 7] 4 2 (rowStep 0) 7 =
  joinS (rectPath <$> [MkRect 1 0 3 1; MkRect 0 1 2 1; MkRect 3 1 1 1]).
Proof.
  pose proof (C4_scan_follows_spec [7; 7; 0; 7; 0; 7; 7; 7] 4 2 0 7
                ltac:(lia) ltac:(reflexivity)) as (_ & _ & _ & H).
  exact H.
Defined.

(** C5 (as stated, refuted): with simplification 40 (rowStep 2) the
    2-row picture [twoRows] has the colour (182,182,182) in its buffer,
    but the document has no shape of that colour. *)
Lemma C5_counterexample :
  let packedData := (processOnGPU twoRows 40).1.1 in
  ¬ (∀ c, c ≠ 0 →
          (∃ y x, 0 ≤ y < 2 ∧ 0 ≤ x < 1 ∧ colorAt packedData 1 y x = c) →
          length (filter (λ sh, sh.1 = c) (shapes packedData 1 2 40)) = 1%nat).
Proof.
  intros packedData H. unfold packedData in H. rewrite twoRows_readback in H.
  specialize (H (packRGB 182 182 182) ltac:(done)).
  assert (length (filter (λ sh, sh.1 = packRGB 182 182 182)
                         (shapes [182; 182; 182; 255; 78; 78; 78; 255] 1 2 40)) = 0%nat)
    as Hcount by (by vm_compute).
  cbn [fst] in H. rewrite Hcount in H. enough (0 = 1)%nat by done. apply H.
  exists 0, 0. split_and!; [lia..|]. by vm_compute.
Qed.

(** C5 (amended): for every buffer and every simplification, a
    non-background colour yields exactly one shape element when it matches
    a pixel of a sampled buffer row (row height - 1 - k rowStep with
    k rowStep < height), and none otherwise. *)
Theorem C5_one_shape_per_sampled_color (packedData : list Z)
    (width height simplification c : Z) :
  0 ≤ width → c ≠ 0 →
  let sampled :=
    ∃ k x, 0 ≤ k ∧ k * rowStep simplification < height ∧ 0 ≤ x < width ∧
           colorAt packedData width (height - 1 - k * rowStep simplification) x = c in
  let count :=
    length (filter (λ sh, sh.1 = c) (shapes packedData width height simplification)) in
  (sampled → count = 1%nat) ∧ (¬ sampled → count = 0%nat).
Proof.
  intros Hw Hc sampled count. unfold count.
  rewrite count_NoDup_fst by apply NoDup_shapes_colors.
  pose proof (elem_of_shapes_colors packedData width height simplification c Hw) as Hiff.
  fold sampled in Hiff. case_decide; tauto.
Qed.

Lemma C5_one_shape_per_sampled_color_witness :
  length (filter (λ sh, sh.1 = 20) (shapes [0; 0; 10; 255; 0; 0; 20; 255] 1 2 0)) = 1%nat.
Proof.
  apply (C5_one_shape_per_sampled_color [0; 0; 10; 255; 0; 0; 20; 255] 1 2 0 20);
    [lia | done |].
  exists 0, 0. vm_compute. repeat split; discriminate.
Defined.

(** C6 (as stated, refuted): the 25 weights do not sum to 1, the blur of
    an all-white picture is not white, and with simplification 0 its
    pixels are stored as 252, not 255. *)
Lemma C6_counterexample :
  ¬ (kernelSum == 1)%Q ∧
  ¬ veq (Shader.blur (texture whitePixel) (v_texCoord 1 1 0 0) (1, 1)%Q) (1, 1, 1)%Q ∧
  unorm8 (Shader.quantize1 (inject_Z (qFactor 0)) whiteBlurred) = 252.
Proof.
  split_and!.
  - by vm_compute.
  - vm_compute. intros [H _]. discriminate H.
  - by vm_compute.
Qed.

(** C6 (amended): the fixed 5x5 kernel has 25 weights that sum to 0.987,
    so the blur of a region of constant colour scales each channel of that
    colour by 0.987. *)
Theorem C6_kernel_sum (sample : vec2 → vec3) (coord px : vec2) (col : vec3) :
  (∀ i j, -2 ≤ i ≤ 2 → -2 ≤ j ≤ 2 →
     veq (sample (Shader.offset coord px (inject_Z i) (inject_Z j))) col) →
  length Shader.w = 25%nat ∧
  (kernelSum == 0.987)%Q ∧
  veq (Shader.blur sample coord px) (vscale col 0.987).
Proof.
  intros Hs. split_and!; [done | by vm_compute | by apply blur_constant].
Qed.

Lemma C6_kernel_sum_witness :
  veq (Shader.blur (λ _, (1, 1, 1)%Q) (v_texCoord 1 1 0 0) (1, 1)%Q)
      (vscale (1, 1, 1)%Q 0.987).
Proof.
  apply (C6_kernel_sum (λ _, (1, 1, 1)%Q) (v_texCoord 1 1 0 0) (1, 1)%Q (1, 1, 1)%Q).
  intros i j _ _. vm_compute. done.
Defined.

(** C7: when the quantized buffer holds only the background colour
    0x000000 -- in particular when the picture is all black -- there is no
    shape, and in a browser that gives a WebGL 2 context, compiles the
    shaders and raises nothing else the handler does not fail: it returns
    the document that consists of the opening tag with the viewBox of the
    picture, immediately followed by the closing tag. *)
Theorem C7_background_only (browser : Browser) (gl : WebGL2RenderingContext)
    (img : HTMLImageElement) (simplification : Z) :
  getContext browser = Some gl → createProgram gl = true →
  thrown browser img simplification = None →
  (∀ y x, 0 ≤ y < naturalHeight img → 0 ≤ x < naturalWidth img →
          colorAt (processOnGPU img simplification).1.1 (naturalWidth img) y x = 0)
  ∨ (∀ x y, 0 ≤ x < naturalWidth img → 0 ≤ y < naturalHeight img →
            pixel img x y = (0, 0, 0)) →
  shapes (processOnGPU img simplification).1.1
         (naturalWidth img) (naturalHeight img) simplification = [] ∧
  onload browser img simplification =
  Returns ("<svg viewBox=" +:+ dq +:+ "0 0 " +:+ pretty (naturalWidth img) +:+ " " +:+
           pretty (naturalHeight img) +:+ dq +:+
           " xmlns=" +:+ dq +:+ "http://www.w3.org/2000/svg" +:+ dq +:+
           " shape-rendering=" +:+ dq +:+ "crispEdges" +:+ dq +:+ ">" +:+ "</svg>").
Proof.
  intros Hgl Hprog Hthrown Hbg.
  assert (shapes (processOnGPU img simplification).1.1
            (naturalWidth img) (naturalHeight img) simplification = []) as Hshapes.
  { apply shapes_background. destruct Hbg as [Hbuf|Hblack]; [done|].
    intros y x _ _. apply packedColor_zero. by apply processOnGPU_black. }
  split; [done|].
  unfold onload. rewrite Hgl, Hprog, Hthrown. cbn [negb].
  rewrite traceImageOffline_vectorize, vectorize_shapes, Hshapes.
  reflexivity.
Qed.

Lemma C7_background_only_witness :
  onload workingBrowser blackImage 20 =
  Returns ("<svg viewBox=" +:+ dq +:+ "0 0 " +:+ pretty (naturalWidth blackImage) +:+ " " +:+
           pretty (naturalHeight blackImage) +:+ dq +:+
           " xmlns=" +:+ dq +:+ "http://www.w3.org/2000/svg" +:+ dq +:+
           " shape-rendering=" +:+ dq +:+ "crispEdges" +:+ dq +:+ ">" +:+ "</svg>").
Proof.
  apply (C7_background_only workingBrowser workingContext blackImage 20);
    [reflexivity | reflexivity | reflexivity |].
  right. intros x y _ _. reflexivity.
Defined.

(** C8: the per-channel quantization is idempotent for every qFactor >= 4:
    quantizing a quantized channel value, a quantized colour, or a byte of
    an already quantized buffer again with the same qFactor changes
    nothing. *)
Theorem C8_quantize_idempotent (qF : Z) :
  4 ≤ qF →
  (∀ c : Q,
     Shader.quantize1 (inject_Z qF) (Shader.quantize1 (inject_Z qF) c) =
     Shader.quantize1 (inject_Z qF) c) ∧
  (∀ color : vec3,
     Shader.quantize (inject_Z qF) (Shader.quantize (inject_Z qF) color) =
     Shader.quantize (inject_Z qF) color) ∧
  (∀ c : Q, (0 <= c)%Q → (c <= 1)%Q →
     let b := unorm8 (Shader.quantize1 (inject_Z qF) c) in
     unorm8 (Shader.quantize1 (inject_Z qF) (inject_Z b / 255)) = b).
Proof.
  intros Hq.
  assert (∀ c : Q,
     Shader.quantize1 (inject_Z qF) (Shader.quantize1 (inject_Z qF) c) =
     Shader.quantize1 (inject_Z qF) c) as Hidem.
  { intros c. unfold Shader.quantize1 at 2 3. apply quantize1_fixed. lia. }
  split_and!; [done| |].
  - intros [[r g] b]. unfold Shader.quantize, vmap. by rewrite !Hidem.
  - intros c Hc0 Hc1 b. unfold b. rewrite (unorm8_quantize1 qF c) by (lia || done).
    pose proof (specQuantize_nonneg qF c ltac:(lia) Hc0) as Hnn.
    destruct (Z_le_gt_dec (specQuantize qF c) 255) as [Hle|Hgt].
    + rewrite Z.min_r by done.
      assert (inject_Z (specQuantize qF c) / 255 ==
              Shader.quantize1 (inject_Z qF) c)%Q as ->
        by (rewrite quantize1_specQuantize; reflexivity).
      rewrite Hidem, unorm8_quantize1 by (lia || done). lia.
    + rewrite Z.min_l by lia.
      rewrite unorm8_quantize1 by (lia || by vm_compute).
      pose proof (specQuantize_mono qF c (inject_Z 255 / 255) ltac:(lia)) as Hm.
      assert (inject_Z 255 / 255 == 1)%Q as E by reflexivity.
      assert (c <= inject_Z 255 / 255)%Q as Hc255 by (by rewrite E).
      specialize (Hm Hc255). lia.
Qed.

Lemma C8_quantize_idempotent_witness :
  4 ≤ 4 ∧
  Shader.quantize1 (inject_Z 4) (Shader.quantize1 (inject_Z 4) 0.3) =
  Shader.quantize1 (inject_Z 4) 0.3.
Proof.
  split; [lia|]. apply (C8_quantize_idempotent 4). lia.
Defined.

(** C9: the output is fixed by the input, order of the shapes included.
    Two runs on pictures of the same size with the same pixels and the
    same simplification return the same string, character for character.
    That string is the opening tag, the shape elements one after the
    other, and the closing tag; no two shape elements have the same
    colour, and they stand in the order in which their colours are first
    met when the smoothed and quantized pixels of the picture are read row
    by row from the top left: of two shapes, the earlier one has a pixel
    that comes before every pixel of the later one's colour. *)
Theorem C9_deterministic (img1 img2 : HTMLImageElement) (simplification : Z) :
  naturalWidth img1 = naturalWidth img2 →
  naturalHeight img1 = naturalHeight img2 →
  (∀ x y, 0 ≤ x < naturalWidth img1 → 0 ≤ y < naturalHeight img1 →
          pixel img1 x y = pixel img2 x y) →
  let width := naturalWidth img1 in
  let height := naturalHeight img1 in
  let shapes1 := shapes (processOnGPU img1 simplification).1.1 width height simplification in
  traceImageOffline img1 simplification = traceImageOffline img2 simplification ∧
  traceImageOffline img1 simplification =
    "<svg viewBox=" +:+ dq +:+ "0 0 " +:+ pretty width +:+ " " +:+ pretty height +:+ dq +:+
    " xmlns=" +:+ dq +:+ "http://www.w3.org/2000/svg" +:+ dq +:+
    " shape-rendering=" +:+ dq +:+ "crispEdges" +:+ dq +:+ ">" +:+
    joinS ((λ sh, pathElement sh.2 sh.1) <$> shapes1) +:+ "</svg>" ∧
  NoDup shapes1.*1 ∧
  ∀ (i j : nat) (c1 c2 : Z) (p1 p2 : string),
    (i < j)%nat → shapes1 !! i = Some (c1, p1) → shapes1 !! j = Some (c2, p2) →
    ∃ y1 x1, 0 ≤ y1 < height ∧ 0 ≤ x1 < width ∧
      pixelColor img1 simplification x1 y1 = c1 ∧
      pixelColor img2 simplification x1 y1 = c1 ∧
      ∀ y2 x2, 0 ≤ y2 < height → 0 ≤ x2 < width →
               pixelColor img1 simplification x2 y2 = c2 →
               y1 * width + x1 < y2 * width + x2.
Proof.
  intros HW HH Hpix width height shapes1.
  pose proof (processOnGPU_ext img1 img2 simplification HW HH Hpix) as Heq.
  split_and!.
  - unfold traceImageOffline. by rewrite Heq.
  - rewrite traceImageOffline_vectorize, vectorize_shapes. reflexivity.
  - apply NoDup_shapes_colors.
  - intros i j c1 c2 p1 p2 Hij H1 H2.
    apply (list_lookup_fmap_Some_2 fst) in H1, H2. cbn [fst] in H1, H2.
    unfold shapes1 in H1, H2. rewrite shapes_colors in H1, H2.
    destruct (filter_order _ _ _ _ _ _ Hij H1 H2) as (i' & j' & Hij' & Hi' & Hj').
    rewrite repack_split in Hi', Hj'. cbn [snd] in Hi', Hj'.
    destruct (addNonZero_order _ _ _ _ _ Hij' Hi' Hj') as (n1 & Hn1 & Hall).
    apply lookup_scanOrder in Hn1 as (y1 & x1 & Hy1 & Hx1 & -> & Hc1).
    exists y1, x1. split_and!; [lia..| | |].
    + rewrite <- Hc1. symmetry. by apply colorAt_processOnGPU.
    + rewrite <- Hc1, Heq. unfold width, height in *. rewrite HW.
      symmetry. apply colorAt_processOnGPU; lia.
    + intros y2 x2 Hy2 Hx2 Hc2.
      assert (scanOrder (processOnGPU img1 simplification).1.1 width height
                !! Z.to_nat (y2 * width + x2) = Some c2) as Hn2.
      { apply lookup_scanOrder. exists y2, x2. split_and!; [lia..|done|].
        rewrite <- Hc2. by apply colorAt_processOnGPU. }
      apply Hall in Hn2. nia.
Qed.

Lemma C9_deterministic_witness :
  traceImageOffline blueOverRed 0 = traceImageOffline blueOverRed' 0 ∧
  length (shapes (processOnGPU blueOverRed 0).1.1 4 4 0) = 4%nat.
Proof.
  split.
  - destruct (C9_deterministic blueOverRed blueOverRed' 0) as [Hsame _];
      [reflexivity | reflexivity | | exact Hsame].
    intros x y Hx Hy. change (0 ≤ x < 4) in Hx. change (0 ≤ y < 4) in Hy.
    unfold blueOverRed, blueOverRed'. cbn [pixel].
    rewrite (decide_True (P := 0 ≤ x < 4 ∧ 0 ≤ y < 4)) by lia. reflexivity.
  - rewrite blueOverRed_readback. by vm_compute.
Defined.

(** C10: for width, height >= 1 every svgY the row loop visits satisfies
    0 <= svgY < height, its buffer row height - 1 - svgY lies in
    [0, height - 1], every read quantizedColors[dataRowOffset + x] with
    0 <= x < width addresses an index below width * height, and the reads
    of packedData and the writes of quantizedColors during repacking stay
    inside the arrays. *)
Theorem C10_accesses_in_bounds (packedData : list Z) (width height simplification : Z) :
  1 ≤ width → 1 ≤ height →
  length packedData = Z.to_nat (width * height * 4) →
  (∀ svgY, svgY ∈ svgRows height (rowStep simplification) →
     0 ≤ svgY < height ∧
     0 ≤ dataRowIndex height svgY ≤ height - 1 ∧
     ∀ x, x ∈ seqZ 0 width →
       0 ≤ dataRowOffset width height svgY + x < width * height ∧
       is_Some (get (repack packedData width height).1
                    (dataRowOffset width height svgY + x))) ∧
  (∀ y x, y ∈ seqZ 0 height → x ∈ seqZ 0 width →
     0 ≤ srcIdx width y x ∧ srcIdx width y x + 2 < width * height * 4 ∧
     is_Some (get packedData (srcIdx width y x)) ∧
     is_Some (get packedData (srcIdx width y x + 1)) ∧
     is_Some (get packedData (srcIdx width y x + 2)) ∧
     0 ≤ y * width + x < width * height).
Proof.
  intros Hw Hh Hlen. split.
  - intros svgY HsvgY.
    pose proof (elem_of_svgRows_range height (rowStep simplification) svgY
                  ltac:(pose proof (rowStep_pos simplification); lia) HsvgY) as Hr.
    unfold dataRowOffset, dataRowIndex. split_and!; try lia.
    intros x Hx%elem_of_seqZ.
    assert (0 ≤ (height - 1 - svgY) * width + x < width * height) as Hi by nia.
    split; [done|]. apply get_in_range. rewrite length_quantizedColors. lia.
  - intros y x Hy%elem_of_seqZ Hx%elem_of_seqZ. unfold srcIdx.
    assert (0 ≤ y * width + x < width * height) as Hi by nia.
    split_and!; try lia; apply get_in_range; rewrite Hlen; lia.
Qed.

Lemma C10_accesses_in_bounds_witness :
  1 ≤ 1 ∧ 1 ≤ 2 ∧
  0 ≤ srcIdx 1 1 0 ∧ srcIdx 1 1 0 + 2 < 1 * 2 * 4 ∧
  is_Some (get [182; 182; 182; 255; 78; 78; 78; 255] (srcIdx 1 1 0)) ∧
  is_Some (get [182; 182; 182; 255; 78; 78; 78; 255] (srcIdx 1 1 0 + 1)) ∧
  is_Some (get [182; 182; 182; 255; 78; 78; 78; 255] (srcIdx 1 1 0 + 2)) ∧
  0 ≤ 1 * 1 + 0 < 1 * 2.
Proof.
  split; [lia|]. split; [lia|].
  apply (C10_accesses_in_bounds [182; 182; 182; 255; 78; 78; 78; 255] 1 2 40);
    [lia | lia | reflexivity | apply elem_of_seqZ; lia | apply elem_of_seqZ; lia].
Defined.

(** * Further properties of the vectorizer *)

(** ** The rectangles of a colour *)

Lemma elem_of_specSampledRows (height rowStep svgY : Z) :
  1 ≤ rowStep →
  svgY ∈ specSampledRows height rowStep ↔ ∃ k, 0 ≤ k ∧ svgY = k * rowStep ∧ svgY < height.
Proof. intros Hrs. rewrite <- svgRows_spec by done. by apply elem_of_svgRows. Qed.

Lemma elem_of_specRects (buffer : list Z) (width height rowStep c : Z) (r : Rect) :
  r ∈ specRects buffer width height rowStep c ↔
  ∃ svgY s e, svgY ∈ specSampledRows height rowStep ∧
              isRun c (bufferRow buffer width (height - 1 - svgY)) s e ∧
              r = MkRect s svgY (e - s) rowStep.
Proof.
  unfold specRects. rewrite list_elem_of_bind. split.
  - intros (svgY & (s & e & Hrun & ->)%elem_of_specRowRects & HsvgY). by exists svgY, s, e.
  - intros (svgY & s & e & HsvgY & Hrun & ->). exists svgY. split; [|done].
    apply elem_of_specRowRects. by exists s, e.
Qed.

(** Two maximal runs of a row that share a column are the same run. *)
Lemma isRun_unique (c : Z) (row : list Z) (s1 e1 s2 e2 x : Z) :
  isRun c row s1 e1 → isRun c row s2 e2 → s1 ≤ x < e1 → s2 ≤ x < e2 →
  s1 = s2 ∧ e1 = e2.
Proof.
  intros (H1 & Hl1 & Hr1 & Hright1 & Hleft1) (H2 & Hl2 & Hr2 & Hright2 & Hleft2) Hx1 Hx2.
  split.
  - destruct (Z.lt_trichotomy s1 s2) as [Hlt|[->|Hgt]]; [|done|].
    + exfalso. apply Hleft2, Hr1. lia.
    + exfalso. apply Hleft1, Hr2. lia.
  - destruct (Z.lt_trichotomy e1 e2) as [Hlt|[->|Hgt]]; [|done|].
    + exfalso. apply Hright1, Hr2. lia.
    + exfalso. apply Hright2, Hr1. lia.
Qed.

Lemma run_extend_left (c : Z) (row : list Z) (n : nat) :
  ∀ x, x = Z.of_nat n → get row x = Some c →
  ∃ s, 0 ≤ s ≤ x ∧ (∀ k, s ≤ k ≤ x → get row k = Some c) ∧ get row (s - 1) ≠ Some c.
Proof.
  induction n as [|n IH]; intros x -> Hx.
  - exists 0. split_and!; [lia..| |done].
    intros k Hk. by replace k with (Z.of_nat 0) by lia.
  - destruct (decide (get row (Z.of_nat (S n) - 1) = Some c)) as [Hp|Hp].
    + replace (Z.of_nat (S n) - 1) with (Z.of_nat n) in Hp by lia.
      destruct (IH _ eq_refl Hp) as (s & Hs & Hall & Hleft).
      exists s. split_and!; [lia|lia| |done].
      intros k Hk. destruct (decide (k = Z.of_nat (S n))) as [->|]; [done|].
      apply Hall. lia.
    + exists (Z.of_nat (S n)). split_and!; [lia|lia| |done].
      intros k Hk. by replace k with (Z.of_nat (S n)) by lia.
Qed.

Lemma run_extend_right (c : Z) (row : list Z) (n : nat) :
  ∀ x, Z.of_nat (length row) - x = Z.of_nat n → 0 ≤ x →
  get row x = Some c →
  ∃ e, x < e ≤ Z.of_nat (length row) ∧ (∀ k, x ≤ k < e → get row k = Some c) ∧
       get row e ≠ Some c.
Proof.
  induction n as [|n IH]; intros x Hn Hx0 Hx.
  - rewrite get_None_ge in Hx by lia. done.
  - destruct (decide (get row (x + 1) = Some c)) as [Hp|Hp].
    + destruct (IH (x + 1) ltac:(lia) ltac:(lia) Hp) as (e & He & Hall & Hright).
      exists e. split_and!; [lia|lia| |done].
      intros k Hk. destruct (decide (k = x)) as [->|]; [done|]. apply Hall. lia.
    + exists (x + 1). split_and!; [lia|lia| |done].
      intros k Hk. by replace k with x by lia.
Qed.

(** Every column that holds the colour lies in a maximal run. *)
Lemma isRun_exists (c : Z) (row : list Z) (x : Z) :
  get row x = Some c → ∃ s e, isRun c row s e ∧ s ≤ x < e.
Proof.
  intros Hx.
  assert (0 ≤ x) as Hx0 by (unfold get in Hx; by case_decide).
  destruct (run_extend_left c row (Z.to_nat x) x ltac:(lia) Hx) as (s & Hs & Hl & Hleft).
  assert (x < Z.of_nat (length row)) as Hlt.
  { unfold get in Hx. rewrite decide_True in Hx by done. apply lookup_lt_Some in Hx. lia. }
  destruct (run_extend_right c row (Z.to_nat (Z.of_nat (length row) - x)) x
              ltac:(lia) Hx0 Hx) as (e & He & Hr & Hright).
  exists s, e. split; [|lia]. split_and!; [lia|lia|lia| |done|done].
  intros k Hk. destruct (Z_le_gt_dec k x); [apply Hl | apply Hr]; lia.
Qed.

(** X1: the rectangles that make up the path data of a colour lie on the
    canvas.  Each starts at a column in 0..width-1, is at least one column
    wide and ends at column width at most; each is rowStep high and starts
    at a row below height that is a multiple of rowStep.  A rectangle of
    the last sampled row reaches below the canvas by less than rowStep,
    and not at all when rowStep divides height. *)
Theorem X1_rectangles_inside (quantizedColors : list Z) (width height simplification c : Z) :
  0 ≤ width → length quantizedColors = Z.to_nat (width * height) →
  let rects := specRects quantizedColors width height (rowStep simplification) c in
  pathDataOf quantizedColors width height (rowStep simplification) c =
    joinS (rectPath <$> rects) ∧
  ∀ r, r ∈ rects →
    0 ≤ rectX r ∧ 1 ≤ rectW r ∧ rectX r + rectW r ≤ width ∧
    rectH r = rowStep simplification ∧
    0 ≤ rectY r < height ∧ (rowStep simplification | rectY r) ∧
    rectY r + rectH r < height + rowStep simplification ∧
    ((rowStep simplification | height) → rectY r + rectH r ≤ height).
Proof.
  intros Hw Hlen rects. pose proof (rowStep_pos simplification) as Hrs.
  split; [by apply pathDataOf_spec|].
  intros r (svgY & s & e & HsvgY & Hrun & ->)%elem_of_specRects.
  apply elem_of_specSampledRows in HsvgY as (k & Hk & -> & Hlt); [|done].
  destruct Hrun as (Hse & Hle & _).
  rewrite (length_bufferRow _ _ height) in Hle by (done || nia).
  cbn [rectX rectY rectW rectH]. split_and!; try lia; try nia.
  - by exists k.
  - intros [m ->]. assert (k + 1 ≤ m) as Hkm by nia.
    apply (Z.mul_le_mono_nonneg_r _ _ (rowStep simplification)) in Hkm; lia.
Qed.

Lemma X1_rectangles_inside_witness :
  0 ≤ 4 ∧ length [7; 7; 0; 7; 0; 7; 7; 7] = Z.to_nat (4 * 2) ∧
  0 ≤ rectX (MkRect 3 1 1 1) ∧ 1 ≤ rectW (MkRect 3 1 1 1) ∧
  rectX (MkRect 3 1 1 1) + rectW (MkRect 3 1 1 1) ≤ 4.
Proof.
  split; [lia|]. split; [reflexivity|].
  destruct (X1_rectangles_inside [7; 7; 0; 7; 0; 7; 7; 7] 4 2 0 7) as [_ H];
    [lia | reflexivity |].
  destruct (H (MkRect 3 1 1 1)) as (? & ? & ? & _); [|done].
  vm_compute. repeat constructor.
Defined.

(** In the band of a sampled row, a cell is covered by a rectangle of
    colour [c] exactly when the buffer holds [c] in its column of the
    sampled row. *)
Lemma covered_iff_colour (quantizedColors : list Z)
    (width height simplification c svgY x y : Z) :
  0 ≤ width → length quantizedColors = Z.to_nat (width * height) →
  svgY ∈ svgRows height (rowStep simplification) →
  svgY ≤ y < svgY + rowStep simplification → 0 ≤ x < width →
  (∃ r, r ∈ specRects quantizedColors width height (rowStep simplification) c ∧ covers r x y)
  ↔ get quantizedColors (dataRowOffset width height svgY + x) = Some c.
Proof.
  intros Hw Hlen HsvgY Hy Hx. pose proof (rowStep_pos simplification) as Hrs.
  pose proof (elem_of_svgRows_range height (rowStep simplification) svgY ltac:(lia) HsvgY)
    as Hrange.
  apply elem_of_svgRows in HsvgY as (k & Hk & -> & Hlt); [|done].
  unfold dataRowOffset, dataRowIndex. split.
  - intros (r & (svgY' & s & e & Hs' & Hrun & ->)%elem_of_specRects & [Hcx Hcy]).
    cbn [rectX rectY rectW rectH] in Hcx, Hcy.
    apply elem_of_specSampledRows in Hs' as (k' & Hk' & -> & Hlt'); [|done].
    assert (k' = k) as -> by nia.
    destruct Hrun as (Hse & Hle & Hall & _).
    specialize (Hall x ltac:(lia)).
    unfold get in Hall. rewrite decide_True in Hall by lia.
    apply lookup_bufferRow in Hall; [|lia..].
    by rewrite Z2Nat.id in Hall by lia.
  - intros Hget.
    assert (get (bufferRow quantizedColors width (height - 1 - k * rowStep simplification)) x
            = Some c) as Hrow.
    { unfold get. rewrite decide_True by lia. unfold bufferRow.
      apply lookup_take_Some. split; [|lia].
      rewrite lookup_drop. unfold get in Hget. rewrite decide_True in Hget by nia.
      rewrite <- Hget. f_equal. nia. }
    destruct (isRun_exists _ _ _ Hrow) as (s & e & Hrun & Hsx).
    exists (MkRect s (k * rowStep simplification) (e - s) (rowStep simplification)). split.
    + apply elem_of_specRects.
      exists (k * rowStep simplification), s, e. split_and!; [|done..].
      apply elem_of_specSampledRows; [done|]. by exists k.
    + split; cbn [rectX rectY rectW rectH]; lia.
Qed.

(** X3: no cell of the canvas is covered twice.  Two rectangles of the
    document that cover the same cell, of the same colour or of two
    colours, are one rectangle of one colour: shapes never overlap and
    never hide each other. *)
Theorem X3_rectangles_do_not_overlap (quantizedColors : list Z)
    (width height simplification : Z) :
  0 ≤ width → length quantizedColors = Z.to_nat (width * height) →
  let rects := specRects quantizedColors width height (rowStep simplification) in
  (∀ c, pathDataOf quantizedColors width height (rowStep simplification) c =
        joinS (rectPath <$> rects c)) ∧
  ∀ c1 c2 r1 r2 x y,
    r1 ∈ rects c1 → r2 ∈ rects c2 → covers r1 x y → covers r2 x y →
    c1 = c2 ∧ r1 = r2.
Proof.
  intros Hw Hlen rects. pose proof (rowStep_pos simplification) as Hrs.
  split; [intros c; by apply pathDataOf_spec|].
  intros c1 c2 r1 r2 x y
         (svgY1 & s1 & e1 & Hs1 & Hrun1 & ->)%elem_of_specRects
         (svgY2 & s2 & e2 & Hs2 & Hrun2 & ->)%elem_of_specRects [Hx1 Hy1] [Hx2 Hy2].
  cbn [rectX rectY rectW rectH] in *.
  apply elem_of_specSampledRows in Hs1 as (k1 & Hk1 & -> & Hlt1); [|done].
  apply elem_of_specSampledRows in Hs2 as (k2 & Hk2 & -> & Hlt2); [|done].
  assert (k1 = k2) as -> by nia.
  assert (c1 = c2) as ->.
  { destruct Hrun1 as (_ & _ & Hall1 & _), Hrun2 as (_ & _ & Hall2 & _).
    specialize (Hall1 x ltac:(lia)). specialize (Hall2 x ltac:(lia)). congruence. }
  split; [done|].
  destruct (isRun_unique _ _ _ _ _ _ x Hrun1 Hrun2) as [-> ->]; [lia..|done].
Qed.

Lemma X3_rectangles_do_not_overlap_witness :
  0 ≤ 4 ∧ length [7; 7; 0; 7; 0; 7; 7; 7] = Z.to_nat (4 * 2) ∧
  ∀ c1 c2 r1 r2 x y,
    r1 ∈ specRects [7; 7; 0; 7; 0; 7; 7; 7] 4 2 (rowStep 0) c1 →
    r2 ∈ specRects [7; 7; 0; 7; 0; 7; 7; 7] 4 2 (rowStep 0) c2 →
    covers r1 x y → covers r2 x y → c1 = c2 ∧ r1 = r2.
Proof.
  split; [lia|]. split; [reflexivity|].
  apply (X3_rectangles_do_not_overlap [7; 7; 0; 7; 0; 7; 7; 7] 4 2 0); [lia | reflexivity].
Defined.

(** ** The number of rectangles *)

Lemma specRuns_count (c : Z) (row : list Z) :
  ∀ (x : Z) (startX : option Z),
    (2 * length (specRuns c row x startX)
     ≤ length row + (if startX is Some _ then 2 else 1))%nat.
Proof.
  induction row as [|p row IH]; intros x startX.
  - destruct startX; cbn; lia.
  - cbn [specRuns]. case_decide.
    + specialize (IH (x + 1) (Some (default x startX))). cbn in *. destruct startX; lia.
    + destruct startX; cbn [length]; specialize (IH (x + 1) None); cbn in *; lia.
Qed.

Lemma length_bind_le {A B} (f : A → list B) (l : list A) (n : nat) :
  (∀ a, a ∈ l → (length (f a) ≤ n)%nat) → (length (l ≫= f) ≤ length l * n)%nat.
Proof.
  induction l as [|a l IH]; intros Hf; [done|].
  rewrite bind_cons, length_app. cbn [length].
  pose proof (Hf a (list_elem_of_here _ _)).
  assert (length (l ≫= f) ≤ length l * n)%nat
    by (apply IH; intros; apply Hf; by apply list_elem_of_further).
  lia.
Qed.

Lemma filter_all_in {A} (P : A → Prop) `{!∀ a, Decision (P a)} (l : list A) :
  (∀ a, a ∈ l → P a) → filter P l = l.
Proof.
  induction l as [|a l IH]; intros Hall; [done|].
  rewrite filter_cons, decide_True by (apply Hall; left).
  f_equal. apply IH. intros a' Ha'. apply Hall. by right.
Qed.

Lemma filter_none_in {A} (P : A → Prop) `{!∀ a, Decision (P a)} (l : list A) :
  (∀ a, a ∈ l → ¬ P a) → filter P l = [].
Proof.
  induction l as [|a l IH]; intros Hall; [done|].
  rewrite filter_cons, decide_False by (apply Hall; left).
  apply IH. intros a' Ha'. apply Hall. by right.
Qed.

(** Of the rectangles of a colour, those that start in row [svgY] are the
    rectangles the scan of that row produces. *)
Lemma specRects_of_row (buffer : list Z) (width height rowStep c svgY : Z) :
  1 ≤ rowStep →
  filter (λ r, rectY r = svgY) (specRects buffer width height rowStep c) =
  if decide (svgY ∈ specSampledRows height rowStep)
  then specRowRects buffer width height rowStep c svgY else [].
Proof.
  intros Hrs. unfold specRects.
  assert (NoDup (specSampledRows height rowStep)) as Hnd.
  { unfold specSampledRows. apply NoDup_fmap_2_strong; [|apply NoDup_seqZ].
    intros a b _ _ Hab. nia. }
  revert Hnd. generalize (specSampledRows height rowStep). intros rows Hnd.
  induction rows as [|a rows IH]; [done|].
  apply NoDup_cons in Hnd as [Ha Hnd]. rewrite bind_cons, filter_app, IH by done.
  destruct (decide (a = svgY)) as [->|Hne].
  - rewrite filter_all_in.
    2:{ intros r (s0 & e0 & _ & ->)%elem_of_specRowRects. done. }
    rewrite (decide_False (P := svgY ∈ rows)) by done.
    rewrite (decide_True (P := svgY ∈ svgY :: rows)) by left. by rewrite app_nil_r.
  - rewrite filter_none_in.
    2:{ intros r (s0 & e0 & _ & ->)%elem_of_specRowRects. done. }
    cbn [app]. destruct (decide (svgY ∈ rows)) as [Hin|Hin].
    + rewrite (decide_True (P := svgY ∈ a :: rows)) by (by right). done.
    + rewrite (decide_False (P := svgY ∈ a :: rows)); [done|].
      intros [?|?]%elem_of_cons; done.
Qed.

(** X8: the size of a path is bounded.  Of the rectangles of a colour, at
    most ceil(width / 2) start in any one row, so the path has at most
    ceil(height / rowStep) * ceil(width / 2) rectangles in all. *)
Theorem X8_rectangle_count (quantizedColors : list Z) (width height simplification c : Z) :
  0 ≤ width → 0 ≤ height → length quantizedColors = Z.to_nat (width * height) →
  let rowStep := rowStep simplification in
  let rects := specRects quantizedColors width height rowStep c in
  pathDataOf quantizedColors width height rowStep c = joinS (rectPath <$> rects) ∧
  (∀ svgY, Z.of_nat (length (filter (λ r, rectY r = svgY) rects)) ≤ (width + 1) / 2) ∧
  Z.of_nat (length rects) ≤ ((height + rowStep - 1) / rowStep) * ((width + 1) / 2).
Proof.
  intros Hw Hh Hlen rs rects. pose proof (rowStep_pos simplification) as Hrs.
  split; [by apply pathDataOf_spec|].
  assert (∀ svgY, (length (specRowRects quantizedColors width height rs c svgY)
                   ≤ (Z.to_nat width + 1) / 2)%nat) as Hrow.
  { intros svgY. unfold specRowRects. rewrite length_fmap.
    pose proof (specRuns_count c
                  (bufferRow quantizedColors width (height - 1 - svgY)) 0 None) as H.
    unfold bufferRow in H |- *. rewrite length_take in H.
    apply Nat.div_le_lower_bound; lia. }
  assert (Z.of_nat ((Z.to_nat width + 1) / 2) = (width + 1) / 2) as Hhalf.
  { rewrite Nat2Z.inj_div. f_equal. lia. }
  split.
  - intros svgY. unfold rects. rewrite specRects_of_row by done.
    case_decide.
    + specialize (Hrow svgY). lia.
    + cbn [length]. apply Z.div_pos; lia.
  - assert (length rects
            ≤ length (specSampledRows height rs) * ((Z.to_nat width + 1) / 2))%nat
      as Hall by (apply length_bind_le; intros svgY _; apply Hrow).
    unfold specSampledRows in Hall. rewrite length_fmap, length_seqZ in Hall.
    fold rs in Hall.
    set (n := (height + rs - 1) / rs) in *.
    assert (0 ≤ n) by (apply Z.div_pos; lia).
    rewrite <- Hhalf. nia.
Qed.

Lemma X8_rectangle_count_witness :
  0 ≤ 4 ∧ 0 ≤ 2 ∧
  (∀ svgY,
     Z.of_nat (length (filter (λ r, rectY r = svgY)
                         (specRects [7; 7; 0; 7; 0; 7; 7; 7] 4 2 (rowStep 0) 7)))
     ≤ (4 + 1) / 2) ∧
  Z.of_nat (length (specRects [7; 7; 0; 7; 0; 7; 7; 7] 4 2 (rowStep 0) 7))
  ≤ ((2 + rowStep 0 - 1) / rowStep 0) * ((4 + 1) / 2).
Proof.
  split; [lia|]. split; [lia|].
  apply (X8_rectangle_count [7; 7; 0; 7; 0; 7; 7; 7] 4 2 0 7); [lia | lia | reflexivity].
Defined.

(** ** What is painted where *)

(** The cell [(x, y)] of the canvas lies in the band of the sampled row
    [svgY = floor(y / rowStep) * rowStep]; it is painted with the colour
    the buffer holds in column [x] of that row. *)
Lemma painted_colour (packedData : list Z) (width height simplification x y c : Z) :
  0 ≤ x < width → 0 ≤ y < height →
  let rowStep := rowStep simplification in
  let quantizedColors := (repack packedData width height).1 in
  get quantizedColors (dataRowOffset width height (y / rowStep * rowStep) + x) = Some c →
  (c ≠ 0 →
   ∃ pathData r,
     (c, pathData) ∈ shapes packedData width height simplification ∧
     pathData = joinS (rectPath <$> specRects quantizedColors width height rowStep c) ∧
     r ∈ specRects quantizedColors width height rowStep c ∧ covers r x y) ∧
  (∀ c' r, r ∈ specRects quantizedColors width height rowStep c' → covers r x y → c' = c).
Proof.
  intros Hx Hy rs qc Hget. pose proof (rowStep_pos simplification) as Hrs.
  fold rs in Hrs. set (svgY := y / rs * rs) in *.
  assert (0 ≤ svgY ≤ y ∧ y < svgY + rs) as Hband.
  { unfold svgY. pose proof (Z.mul_div_le y rs ltac:(lia)).
    pose proof (Z.mul_succ_div_gt y rs ltac:(lia)).
    assert (0 ≤ y / rs) by (apply Z.div_pos; lia). nia. }
  assert (svgY ∈ svgRows height rs) as HsvgY.
  { apply elem_of_svgRows; [done|]. exists (y / rs). split_and!; [apply Z.div_pos; lia|done|lia]. }
  assert (length qc = Z.to_nat (width * height)) as Hlen by apply length_quantizedColors.
  pose proof (covered_iff_colour qc width height simplification) as Hcov.
  split.
  - intros Hc.
    destruct (proj2 (Hcov c svgY x y ltac:(lia) Hlen HsvgY ltac:(fold rs; lia) Hx) Hget)
      as (r & Hr & Hcr).
    exists (pathDataOf qc width height rs c), r.
    split_and!; [|by apply pathDataOf_spec; lia|done..].
    assert (c ∈ (repack packedData width height).2) as Hu.
    { apply elem_of_uniqueColors. split; [done|].
      exists (height - 1 - svgY), x. split_and!; [lia..|].
      unfold dataRowOffset, dataRowIndex in Hget. subst qc.
      rewrite get_quantizedColors in Hget by lia. congruence. }
    unfold shapes. fold qc. destruct (repack packedData width height) as [qc' uc] eqn:E.
    cbn [fst snd] in *. subst qc.
    apply list_elem_of_filter. split.
    + cbn [snd]. apply pathDataOf_nonempty; [lia|done|done|]. by exists svgY, x.
    + apply list_elem_of_fmap. by exists c.
  - intros c' r Hr Hcr.
    assert (get qc (dataRowOffset width height svgY + x) = Some c') as Hget'.
    { apply (Hcov c' svgY x y); [lia|done|done|fold rs; lia|done|]. by exists r. }
    congruence.
Qed.

(** No shape is black. *)
Lemma shapes_not_black (packedData : list Z) (width height simplification c : Z)
    (pathData : string) :
  (c, pathData) ∈ shapes packedData width height simplification → c ≠ 0.
Proof.
  intros Hin.
  assert (c ∈ (shapes packedData width height simplification).*1) as Hc.
  { apply list_elem_of_fmap. by exists (c, pathData). }
  rewrite shapes_colors in Hc. apply list_elem_of_filter in Hc as [_ Hc].
  by apply elem_of_uniqueColors in Hc as [Hc _].
Qed.

(** X2: what the document shows at a cell of the canvas.  The cell in
    column x of row y lies in the band of the sampled row
    svgY = floor(y / rowStep) * rowStep and shows the colour c that
    packedData holds in column x of buffer row height - 1 - svgY.  When c
    is not black, the shape of colour c has a rectangle that covers the
    cell; every rectangle that covers the cell belongs to colour c; there
    is no shape of colour 0, so when c is black no rectangle of any shape
    covers the cell. *)
Theorem X2_canvas_point_colour (packedData : list Z) (width height simplification x y : Z) :
  0 ≤ x < width → 0 ≤ y < height →
  let rowStep := rowStep simplification in
  let quantizedColors := (repack packedData width height).1 in
  let svgY := y / rowStep * rowStep in
  let c := colorAt packedData width (height - 1 - svgY) x in
  (c ≠ 0 →
   ∃ pathData r,
     (c, pathData) ∈ shapes packedData width height simplification ∧
     pathData = joinS (rectPath <$> specRects quantizedColors width height rowStep c) ∧
     r ∈ specRects quantizedColors width height rowStep c ∧ covers r x y) ∧
  (∀ c' r, r ∈ specRects quantizedColors width height rowStep c' → covers r x y → c' = c) ∧
  (∀ pathData, (0, pathData) ∉ shapes packedData width height simplification) ∧
  (c = 0 →
   ∀ c' pathData r,
     (c', pathData) ∈ shapes packedData width height simplification →
     r ∈ specRects quantizedColors width height rowStep c' → ¬ covers r x y).
Proof.
  intros Hx Hy rs qc svgY c. pose proof (rowStep_pos simplification) as Hrs.
  assert (0 ≤ y / rowStep simplification * rowStep simplification ≤ y) as Hband.
  { pose proof (Z.mul_div_le y (rowStep simplification) ltac:(lia)).
    assert (0 ≤ y / rowStep simplification) by (apply Z.div_pos; lia). nia. }
  destruct (painted_colour packedData width height simplification x y c Hx Hy)
    as [Hshape Honly].
  { unfold dataRowOffset, dataRowIndex. apply get_quantizedColors; lia. }
  split_and!; [exact Hshape | exact Honly | |].
  - intros pathData Hin. by apply shapes_not_black in Hin.
  - intros Hc c' pathData r Hin Hr Hcov.
    apply shapes_not_black in Hin. apply Hin.
    rewrite (Honly c' r Hr Hcov). exact Hc.
Qed.

Lemma X2_canvas_point_colour_witness :
  0 ≤ 0 < 1 ∧ 0 ≤ 1 < 2 ∧
  (∀ c' r,
     r ∈ specRects (repack [0; 0; 10; 255; 0; 0; 20; 255] 1 2).1 1 2 (rowStep 0) c' →
     covers r 0 1 →
     c' = colorAt [0; 0; 10; 255; 0; 0; 20; 255] 1 (2 - 1 - 1 / rowStep 0 * rowStep 0) 0) ∧
  ∀ pathData, (0, pathData) ∉ shapes [0; 0; 10; 255; 0; 0; 20; 255] 1 2 0.
Proof.
  split; [lia|]. split; [lia|].
  destruct (X2_canvas_point_colour [0; 0; 10; 255; 0; 0; 20; 255] 1 2 0 0 1)
    as (_ & Honly & Hblack & _); [lia | lia |].
  split; [exact Honly | exact Hblack].
Defined.

(** ** The fourth byte of a pixel *)

Lemma colorAt_ext (pd pd' : list Z) (width y x : Z) :
  (∀ i, i mod 4 ≠ 3 → get pd i = get pd' i) →
  colorAt pd width y x = colorAt pd' width y x.
Proof.
  intros H. unfold colorAt, packedColor, byteAt, srcIdx.
  rewrite !(H ((y * width + x) * 4)), !(H ((y * width + x) * 4 + 1)),
    !(H ((y * width + x) * 4 + 2)); [done|..].
  all: Z.div_mod_to_equations; lia.
Qed.

Lemma repack_ext (pd pd' : list Z) (width height : Z) :
  (∀ y x, colorAt pd width y x = colorAt pd' width y x) →
  repack pd width height = repack pd' width height.
Proof.
  intros H. unfold repack. apply foldl_ext_in. intros st y _.
  unfold repackRow. apply foldl_ext_in. intros [qc uc] x _.
  unfold repackPixel. fold (colorAt pd width y x). fold (colorAt pd' width y x).
  by rewrite H.
Qed.

(** X4: the vectorizer never looks at the fourth byte of a pixel.  Two
    read-backs that agree on every byte whose index is not 3 modulo 4 give
    the same document: the edge mask the shader stores in the alpha
    channel has no influence on the output. *)
Theorem X4_alpha_ignored (packedData packedData' : list Z)
    (width height simplification : Z) :
  (∀ i, i mod 4 ≠ 3 → get packedData i = get packedData' i) →
  vectorize packedData width height simplification =
  vectorize packedData' width height simplification.
Proof.
  intros H. unfold vectorize.
  rewrite (repack_ext packedData packedData'); [done|].
  intros y x. by apply colorAt_ext.
Qed.

Lemma X4_alpha_ignored_witness :
  vectorize [10; 20; 30; 255] 1 1 0 = vectorize [10; 20; 30; 0] 1 1 0.
Proof.
  apply (X4_alpha_ignored [10; 20; 30; 255] [10; 20; 30; 0] 1 1 0).
  intros i Hi. unfold get. case_decide as H0; [|reflexivity].
  destruct (Z.to_nat i) as [|[|[|[|n]]]] eqn:E; try reflexivity.
  exfalso. apply Hi. replace i with 3 by lia. reflexivity.
Defined.

(** ** Packing and unpacking a colour *)

Lemma lor_shiftl_add (a b n : Z) :
  0 ≤ n → 0 ≤ b < 2 ^ n → Z.lor (Z.shiftl a n) b = a * 2 ^ n + b.
Proof.
  intros Hn Hb.
  assert (Z.land (Z.shiftl a n) b = 0) as Hland.
  { apply Z.bits_inj'. intros m Hm. rewrite Z.land_spec, Z.bits_0.
    destruct (Z.lt_ge_cases m n) as [Hlt|Hge].
    - by rewrite Z.shiftl_spec_low.
    - rewrite <- (Z.mod_small b (2 ^ n)) by lia.
      rewrite Z.mod_pow2_bits_high by lia. apply andb_false_r. }
  rewrite <- Z.lxor_lor by done. rewrite <- Z.add_nocarry_lxor by done.
  by rewrite Z.shiftl_mul_pow2 by lia.
Qed.

Lemma packRGB_sum (r g b : Z) :
  0 ≤ g ≤ 255 → 0 ≤ b ≤ 255 → packRGB r g b = r * 65536 + g * 256 + b.
Proof.
  intros Hg Hb. unfold packRGB.
  rewrite (lor_shiftl_add r (Z.shiftl g 8) 16) by (rewrite ?Z.shiftl_mul_pow2; lia).
  rewrite Z.shiftl_mul_pow2 by lia.
  replace (r * 2 ^ 16 + g * 2 ^ 8) with (Z.shiftl (r * 256 + g) 8)
    by (rewrite Z.shiftl_mul_pow2; lia).
  rewrite lor_shiftl_add by lia. lia.
Qed.

(** [(color >> 16) & 0xFF], [(color >> 8) & 0xFF] and [color & 0xFF] give
    back the three bytes a colour was packed from. *)
Lemma unpack_packRGB (r g b : Z) :
  0 ≤ r ≤ 255 → 0 ≤ g ≤ 255 → 0 ≤ b ≤ 255 →
  Z.land (Z.shiftr (packRGB r g b) 16) 255 = r ∧
  Z.land (Z.shiftr (packRGB r g b) 8) 255 = g ∧
  Z.land (packRGB r g b) 255 = b.
Proof.
  intros Hr Hg Hb. rewrite packRGB_sum by done.
  change 255 with (Z.ones 8). rewrite !Z.land_ones, !Z.shiftr_div_pow2 by lia.
  change (2 ^ 16) with 65536. change (2 ^ 8) with 256.
  split_and!; Z.div_mod_to_equations; lia.
Qed.

(** X5: packing a colour into 24 bits and unpacking it for the fill
    attribute loses nothing.  When packedData holds bytes, every shape of
    the document is filled with rgb(r,g,b) where r, g and b are the first
    three bytes of one pixel of packedData. *)
Theorem X5_fill_is_a_pixel (packedData : list Z) (width height simplification c : Z)
    (pathData : string) :
  Forall (λ b, 0 ≤ b ≤ 255) packedData →
  (c, pathData) ∈ shapes packedData width height simplification →
  ∃ y x, 0 ≤ y < height ∧ 0 ≤ x < width ∧
    let r := byteAt packedData (srcIdx width y x) in
    let g := byteAt packedData (srcIdx width y x + 1) in
    let b := byteAt packedData (srcIdx width y x + 2) in
    pathElement pathData c =
    "<path d=" +:+ dq +:+ pathData +:+ dq +:+ " fill=" +:+ dq +:+
    "rgb(" +:+ pretty r +:+ "," +:+ pretty g +:+ "," +:+ pretty b +:+ ")" +:+ dq +:+ " />".
Proof.
  intros Hbytes Hin.
  assert (c ∈ (shapes packedData width height simplification).*1) as Hc.
  { apply list_elem_of_fmap. by exists (c, pathData). }
  rewrite shapes_colors in Hc. apply list_elem_of_filter in Hc as [_ Hc].
  apply elem_of_uniqueColors in Hc as (_ & y & x & Hy & Hx & <-).
  exists y, x. split_and!; [lia..|].
  assert (∀ j, 0 ≤ byteAt packedData j ≤ 255) as Hb.
  { intros j. unfold byteAt, get. case_decide; [|done].
    destruct (packedData !! Z.to_nat j) as [b|] eqn:E; [|done].
    apply list_elem_of_lookup_2 in E. rewrite Forall_forall in Hbytes. by apply Hbytes. }
  cbv zeta. unfold pathElement, colorAt, packedColor.
  fold (packRGB (byteAt packedData (srcIdx width y x))
                (byteAt packedData (srcIdx width y x + 1))
                (byteAt packedData (srcIdx width y x + 2))).
  destruct (unpack_packRGB _ _ _ (Hb (srcIdx width y x)) (Hb (srcIdx width y x + 1))
              (Hb (srcIdx width y x + 2))) as (-> & -> & ->).
  done.
Qed.

Lemma X5_fill_is_a_pixel_witness :
  ∃ y x, 0 ≤ y < 2 ∧ 0 ≤ x < 1 ∧
    pathElement "M0,0h1v1h-1z " 20 =
    "<path d=" +:+ dq +:+ "M0,0h1v1h-1z " +:+ dq +:+ " fill=" +:+ dq +:+
    "rgb(" +:+ pretty (byteAt [0; 0; 10; 255; 0; 0; 20; 255] (srcIdx 1 y x)) +:+
    "," +:+ pretty (byteAt [0; 0; 10; 255; 0; 0; 20; 255] (srcIdx 1 y x + 1)) +:+
    "," +:+ pretty (byteAt [0; 0; 10; 255; 0; 0; 20; 255] (srcIdx 1 y x + 2)) +:+
    ")" +:+ dq +:+ " />".
Proof.
  apply (X5_fill_is_a_pixel [0; 0; 10; 255; 0; 0; 20; 255] 1 2 0 20 "M0,0h1v1h-1z ").
  - repeat constructor; lia.
  - vm_compute. repeat constructor.
Defined.

(** ** The order and the number of the shapes *)

(** X6: the shapes appear in the document in the order in which their
    colours are first met in packedData, read row by row from index 0:
    of two shapes, the earlier one has a pixel that comes before every
    pixel of the later one's colour.  The painting order is decided by
    the buffer alone. *)
Theorem X6_shapes_in_order_of_first_pixel (packedData : list Z)
    (width height simplification : Z) (i j : nat) (c1 c2 : Z) (p1 p2 : string) :
  (i < j)%nat →
  shapes packedData width height simplification !! i = Some (c1, p1) →
  shapes packedData width height simplification !! j = Some (c2, p2) →
  ∃ y1 x1, 0 ≤ y1 < height ∧ 0 ≤ x1 < width ∧ colorAt packedData width y1 x1 = c1 ∧
    ∀ y2 x2, 0 ≤ y2 < height → 0 ≤ x2 < width → colorAt packedData width y2 x2 = c2 →
             y1 * width + x1 < y2 * width + x2.
Proof.
  intros Hij H1 H2.
  apply (list_lookup_fmap_Some_2 fst) in H1, H2. cbn [fst] in H1, H2.
  rewrite shapes_colors in H1, H2.
  destruct (filter_order _ _ _ _ _ _ Hij H1 H2) as (i' & j' & Hij' & Hi' & Hj').
  rewrite repack_split in Hi', Hj'. cbn [snd] in Hi', Hj'.
  destruct (addNonZero_order _ _ _ _ _ Hij' Hi' Hj') as (n1 & Hn1 & Hall).
  apply lookup_scanOrder in Hn1 as (y1 & x1 & Hy1 & Hx1 & -> & Hc1).
  exists y1, x1. split_and!; [lia..|done|].
  intros y2 x2 Hy2 Hx2 Hc2.
  assert (scanOrder packedData width height !! Z.to_nat (y2 * width + x2) = Some c2) as Hn2.
  { apply lookup_scanOrder. exists y2, x2. split_and!; [lia..|done|done]. }
  apply Hall in Hn2. nia.
Qed.

Lemma X6_shapes_in_order_of_first_pixel_witness :
  (0 < 1)%nat ∧
  ∃ y1 x1, 0 ≤ y1 < 2 ∧ 0 ≤ x1 < 2 ∧
    colorAt [9; 9; 9; 255; 5; 5; 5; 255; 5; 5; 5; 255; 9; 9; 9; 255] 2 y1 x1 = 592137 ∧
    ∀ y2 x2, 0 ≤ y2 < 2 → 0 ≤ x2 < 2 →
      colorAt [9; 9; 9; 255; 5; 5; 5; 255; 5; 5; 5; 255; 9; 9; 9; 255] 2 y2 x2 = 328965 →
      y1 * 2 + x1 < y2 * 2 + x2.
Proof.
  split; [lia|].
  apply (X6_shapes_in_order_of_first_pixel
           [9; 9; 9; 255; 5; 5; 5; 255; 5; 5; 5; 255; 9; 9; 9; 255] 2 2 0 0 1
           592137 328965 "M1,0h1v1h-1z M0,1h1v1h-1z " "M0,0h1v1h-1z M1,1h1v1h-1z ");
    [lia | reflexivity | reflexivity].
Defined.

(** X7: there are at most as many shapes as there are distinct non-black
    colours in quantizedColors, and every shape is drawn: its path data
    is the outline of at least one rectangle, of area 1 or more. *)
Theorem X7_shape_count (packedData : list Z) (width height simplification : Z) :
  let quantizedColors := (repack packedData width height).1 in
  (length (shapes packedData width height simplification)
   ≤ length (remove_dups (filter (λ c : Z, c ≠ 0%Z) quantizedColors)))%nat ∧
  ∀ c pathData, (c, pathData) ∈ shapes packedData width height simplification →
    ∃ r rects,
      specRects quantizedColors width height (rowStep simplification) c = r :: rects ∧
      pathData = joinS (rectPath <$> r :: rects) ∧
      1 ≤ rectW r * rectH r.
Proof.
  intros quantizedColors. pose proof (rowStep_pos simplification) as Hrs.
  assert (∀ c, c ∈ (shapes packedData width height simplification).*1 →
               c ≠ 0 ∧ c ∈ quantizedColors ∧ 0 < width) as Hcol.
  { intros c Hc. rewrite shapes_colors in Hc. apply list_elem_of_filter in Hc as [_ Hc].
    apply elem_of_uniqueColors in Hc as (Hc0 & y & x & Hy & Hx & Hc).
    split_and!; [done| |lia].
    pose proof (get_quantizedColors packedData width height y x Hy Hx) as Hget.
    rewrite Hc in Hget. unfold get in Hget. case_decide; [|done].
    by apply list_elem_of_lookup_2 in Hget. }
  split.
  - rewrite <- (length_fmap fst (shapes _ _ _ _)).
    apply submseteq_length, NoDup_submseteq; [apply NoDup_shapes_colors|].
    intros c (Hc0 & Hc & _)%Hcol. apply elem_of_remove_dups, list_elem_of_filter. done.
  - intros c pathData Hin.
    assert (c ∈ (shapes packedData width height simplification).*1) as Hc.
    { apply list_elem_of_fmap. by exists (c, pathData). }
    apply Hcol in Hc as (_ & _ & Hw).
    unfold shapes in Hin. fold quantizedColors in Hin.
    destruct (repack packedData width height) as [qc uc] eqn:E. cbn [fst] in *.
    subst quantizedColors. cbn [fst] in *.
    apply list_elem_of_filter in Hin as [Hne Hin]. cbn [snd] in Hne.
    apply list_elem_of_fmap in Hin as (c' & [= <- ->] & _).
    assert (length qc = Z.to_nat (width * height)) as Hlen.
    { pose proof (length_quantizedColors packedData width height) as H. by rewrite E in H. }
    rewrite pathDataOf_spec in Hne |- * by (done || lia).
    destruct (specRects qc width height (rowStep simplification) c) as [|r rects] eqn:Er;
      [done|].
    exists r, rects. split_and!; [done..|].
    assert (r ∈ specRects qc width height (rowStep simplification) c) as Hr
      by (rewrite Er; apply list_elem_of_here).
    apply elem_of_specRects in Hr as (svgY & s & e & _ & (Hse & _) & ->).
    cbn [rectW rectH]. nia.
Qed.

(** ** A buffer of one colour *)

Lemma specRuns_replicate (c : Z) (n : nat) :
  ∀ (x : Z) (startX : option Z),
    specRuns c (replicate (S n) c) x startX = [(default x startX, x + Z.of_nat (S n))].
Proof.
  induction n as [|n IH]; intros x startX.
  - cbn. rewrite decide_True by done. done.
  - change (replicate (S (S n)) c) with (c :: replicate (S n) c).
    cbn [specRuns]. rewrite decide_True by done. rewrite IH. cbn [default].
    do 2 f_equal. lia.
Qed.

Lemma singleton_of_NoDup (l : list Z) (c : Z) :
  NoDup l → (∀ c', c' ∈ l ↔ c' = c) → l = [c].
Proof.
  intros Hnd Hl. destruct l as [|a l].
  - assert (c ∈ []) as H by (by apply Hl). by apply elem_of_nil in H.
  - assert (a = c) as -> by (apply Hl; left).
    destruct l as [|b l]; [done|].
    assert (b = c) as -> by (apply Hl; right; left).
    apply NoDup_cons in Hnd as [Hnd _]. destruct Hnd. left.
Qed.

Lemma bind_singleton_in {A B} (f : A → list B) (g : A → B) (l : list A) :
  (∀ a, a ∈ l → f a = [g a]) → l ≫= f = g <$> l.
Proof.
  induction l as [|a l IH]; intros Hf; [done|].
  rewrite bind_cons, fmap_cons, Hf by left. cbn. f_equal.
  apply IH. intros a' Ha'. apply Hf. by right.
Qed.

Section flat_buffer.
Variables (packedData : list Z) (width height simplification c : Z).
Hypothesis Hw : 1 ≤ width.
Hypothesis Hh : 1 ≤ height.
Hypothesis Hflat :
  ∀ y x, 0 ≤ y < height → 0 ≤ x < width → colorAt packedData width y x = c.

Lemma flat_bufferRow (r : Z) :
  0 ≤ r < height →
  bufferRow (repack packedData width height).1 width r = replicate (Z.to_nat width) c.
Proof.
  intros Hr. symmetry. apply replicate_as_Forall. split.
  - apply (length_bufferRow _ _ height); [lia|apply length_quantizedColors|done].
  - apply Forall_forall. intros v Hv. apply list_elem_of_lookup_1 in Hv as [k Hk].
    assert (k < Z.to_nat width)%nat as Hlt.
    { apply lookup_lt_Some in Hk. unfold bufferRow in Hk. rewrite length_take in Hk. lia. }
    apply lookup_bufferRow in Hk; [|lia..].
    rewrite get_quantizedColors in Hk by lia. rewrite Hflat in Hk by lia. congruence.
Qed.

(** One rectangle of full width in every sampled row. *)
Lemma flat_specRects :
  specRects (repack packedData width height).1 width height (rowStep simplification) c =
  (λ svgY, MkRect 0 svgY width (rowStep simplification)) <$>
  svgRows height (rowStep simplification).
Proof.
  pose proof (rowStep_pos simplification) as Hrs.
  unfold specRects. rewrite <- svgRows_spec by done.
  apply bind_singleton_in. intros svgY HsvgY.
  apply elem_of_svgRows_range in HsvgY; [|lia].
  unfold specRowRects. rewrite flat_bufferRow by lia.
  destruct (Z.to_nat width) as [|n] eqn:En; [lia|].
  rewrite specRuns_replicate. cbn. do 2 f_equal. lia.
Qed.

Lemma flat_uniqueColors : c ≠ 0 → (repack packedData width height).2 = [c].
Proof.
  intros Hc. apply singleton_of_NoDup; [apply NoDup_uniqueColors|].
  intros c'. rewrite elem_of_uniqueColors. split.
  - intros (_ & y & x & Hy & Hx & <-). by apply Hflat.
  - intros ->. split; [done|]. exists 0, 0. split_and!; [lia..|]. apply Hflat; lia.
Qed.
End flat_buffer.

(** X12: a buffer of one colour.  When every pixel of packedData has the
    same non-black colour, the document holds exactly one shape, filled
    with that colour, whose path data is one rectangle of the full width
    for every sampled row 0, rowStep, 2 rowStep, ... *)
Theorem X12_flat_buffer_one_shape (packedData : list Z) (width height simplification c : Z) :
  1 ≤ width → 1 ≤ height → c ≠ 0 →
  (∀ y x, 0 ≤ y < height → 0 ≤ x < width → colorAt packedData width y x = c) →
  vectorize packedData width height simplification =
  svgDocument width height
    (pathElement
       (joinS ((λ svgY, rectPath (MkRect 0 svgY width (rowStep simplification))) <$>
               svgRows height (rowStep simplification)))
       c).
Proof.
  intros Hw Hh Hc Hflat. pose proof (rowStep_pos simplification) as Hrs.
  rewrite vectorize_shapes. f_equal.
  unfold shapes.
  pose proof (flat_uniqueColors packedData width height c Hw Hh Hflat Hc) as Hu.
  pose proof (flat_specRects packedData width height simplification c Hw Hflat) as Hr.
  pose proof (length_quantizedColors packedData width height) as Hlen.
  pose proof (get_quantizedColors packedData width height) as Hget.
  destruct (repack packedData width height) as [qc uc]. cbn [fst snd] in *. subst uc.
  cbn [fmap list_fmap].
  assert (pathDataOf qc width height (rowStep simplification) c ≠ EmptyString) as Hne.
  { apply pathDataOf_nonempty; [lia|done|done|]. exists 0, 0. split; [|split].
    - apply elem_of_svgRows; [done|]. exists 0. lia.
    - lia.
    - unfold dataRowOffset, dataRowIndex. rewrite Hget by lia. f_equal. apply Hflat; lia. }
  rewrite filter_cons, decide_True by done. rewrite filter_nil.
  cbn [fmap list_fmap joinS fst snd].
  rewrite app_empty_r. f_equal.
  rewrite pathDataOf_spec by (done || lia). rewrite Hr. by rewrite <- list_fmap_compose.
Qed.

Lemma X12_flat_buffer_one_shape_witness :
  1 ≤ 1 ∧ 1 ≤ 2 ∧ 1285 ≠ 0 ∧
  vectorize [0; 5; 5; 255; 0; 5; 5; 255] 1 2 0 =
  svgDocument 1 2
    (pathElement
       (joinS ((λ svgY, rectPath (MkRect 0 svgY 1 (rowStep 0))) <$> svgRows 2 (rowStep 0)))
       1285).
Proof.
  split; [lia|]. split; [lia|]. split; [lia|].
  apply (X12_flat_buffer_one_shape [0; 5; 5; 255; 0; 5; 5; 255] 1 2 0 1285); [lia..|].
  intros y x Hy Hx. assert (x = 0) as -> by lia.
  assert (y = 0 ∨ y = 1) as [-> | ->] by lia; reflexivity.
Defined.

(** * Further properties of the preprocessor and of the whole tracer *)

(** ** The rows of the picture on the canvas *)

(** X9: where the picture lands on the canvas, for every picture.  The
    cell in column x of row y of the canvas shows the colour computed
    (blur, then quantization) around column x of row
    height - 1 - floor(y / rowStep) * rowStep of the picture, rows counted
    from the top: when that colour is not black the shape of that colour
    has a rectangle covering the cell, and no rectangle of another colour
    covers it.  Row y of the document therefore shows row height - 1 - y
    of the picture when rowStep is 1. *)
Theorem X9_canvas_row_shows_mirrored_picture_row (img : HTMLImageElement)
    (simplification x y : Z) :
  let width := naturalWidth img in
  let height := naturalHeight img in
  0 ≤ x < width → 0 ≤ y < height →
  let rowStep := rowStep simplification in
  let packedData := (processOnGPU img simplification).1.1 in
  let quantizedColors := (repack packedData width height).1 in
  let c := pixelColor img simplification x (height - 1 - y / rowStep * rowStep) in
  traceImageOffline img simplification =
    svgDocument width height
      (joinS ((λ sh, pathElement sh.2 sh.1) <$> shapes packedData width height simplification)) ∧
  (c ≠ 0 →
   ∃ pathData r,
     (c, pathData) ∈ shapes packedData width height simplification ∧
     pathData = joinS (rectPath <$> specRects quantizedColors width height rowStep c) ∧
     r ∈ specRects quantizedColors width height rowStep c ∧ covers r x y) ∧
  (∀ c' r, r ∈ specRects quantizedColors width height rowStep c' → covers r x y → c' = c).
Proof.
  intros width height Hx Hy rs packedData qc c.
  pose proof (rowStep_pos simplification) as Hrs. fold rs in Hrs.
  assert (0 ≤ y / rs * rs ≤ y) as Hband.
  { pose proof (Z.mul_div_le y rs ltac:(lia)).
    assert (0 ≤ y / rs) by (apply Z.div_pos; lia). nia. }
  split.
  - unfold traceImageOffline. rewrite <- vectorize_shapes. reflexivity.
  - apply (painted_colour packedData width height simplification x y c Hx Hy).
    apply output_row_is_mirrored_picture_row; unfold rs, width, height in *; lia.
Qed.

Lemma X9_canvas_row_shows_mirrored_picture_row_witness :
  0 ≤ 0 < naturalWidth twoRows ∧ 0 ≤ 0 < naturalHeight twoRows ∧
  ∀ c' r,
    r ∈ specRects (repack (processOnGPU twoRows 0).1.1
                          (naturalWidth twoRows) (naturalHeight twoRows)).1
                  (naturalWidth twoRows) (naturalHeight twoRows) (rowStep 0) c' →
    covers r 0 0 →
    c' = pixelColor twoRows 0 0 (naturalHeight twoRows - 1 - 0 / rowStep 0 * rowStep 0).
Proof.
  split; [simpl; lia|]. split; [simpl; lia|].
  apply (X9_canvas_row_shows_mirrored_picture_row twoRows 0 0 0); simpl; lia.
Defined.

(** ** The taps of the blur *)

Lemma blurTaps_ext (t1 t2 : Z → Z → vec3) :
  (∀ i j, -2 ≤ i ≤ 2 → -2 ≤ j ≤ 2 → t1 i j = t2 i j) → blurTaps t1 = blurTaps t2.
Proof.
  intros Ht. unfold blurTaps. apply foldl_ext_in. intros acc j Hj%elem_of_seqZ.
  apply foldl_ext_in. intros acc' i Hi%elem_of_seqZ. rewrite Ht by lia. done.
Qed.

(** X11: a pixel of the buffer depends on the 5x5 pixels around it only.
    Two pictures of the same size that agree on the pixels of the picture
    within distance 2 of (x, y) in both directions give the same four
    bytes for the pixel (x, y) of the buffer, alpha included: a change of
    one pixel of the picture changes the buffer within distance 2 only. *)
Theorem X11_buffer_pixel_depends_on_5x5 (img1 img2 : HTMLImageElement)
    (simplification x y : Z) :
  naturalWidth img1 = naturalWidth img2 →
  naturalHeight img1 = naturalHeight img2 →
  0 ≤ x < naturalWidth img1 → 0 ≤ y < naturalHeight img1 →
  (∀ x' y', 0 ≤ x' < naturalWidth img1 → 0 ≤ y' < naturalHeight img1 →
            Z.abs (x' - x) ≤ 2 → Z.abs (y' - y) ≤ 2 →
            pixel img1 x' y' = pixel img2 x' y') →
  readPixel img1 simplification y x = readPixel img2 simplification y x.
Proof.
  intros HW HH Hx Hy Hpix.
  assert (∀ i j, -2 ≤ i ≤ 2 → -2 ≤ j ≤ 2 →
                 pictureSample img1 x y i j = pictureSample img2 x y i j) as Htap.
  { intros i j Hi Hj. unfold pictureSample, texel. rewrite <- HW, <- HH.
    rewrite Hpix; [done|unfold clampZ; lia..]. }
  unfold readPixel. rewrite !fragColor_at by lia.
  unfold fragColorAt. cbv zeta.
  rewrite (blurTaps_ext _ _ Htap).
  rewrite !(Htap _ _) by lia. done.
Qed.

Lemma X11_buffer_pixel_depends_on_5x5_witness :
  naturalWidth blackImage = naturalWidth blackImage' ∧
  readPixel blackImage 0 0 0 = readPixel blackImage' 0 0 0.
Proof.
  split; [reflexivity|].
  apply X11_buffer_pixel_depends_on_5x5; [reflexivity | reflexivity | simpl; lia | simpl; lia |].
  intros x' y' Hx' Hy' _ _. simpl in Hx', Hy'. simpl.
  rewrite decide_True by lia. reflexivity.
Defined.

(** ** The colours of the buffer lie on the quantization grid *)

Lemma weight_nonneg (i j : Z) : (0 <= weight i j)%Q.
Proof.
  unfold weight. generalize (Z.to_nat ((j + 2) * 5 + (i + 2))). intros n.
  destruct (decide (n < length Shader.w)%nat) as [Hn|Hn].
  - revert n Hn. apply Forall_nth. unfold Shader.w.
    repeat (apply Forall_cons; split; [by vm_compute|]). apply Forall_nil_2.
  - rewrite nth_overflow by lia. lra.
Qed.

Lemma nonneg3_vadd_vscale (acc t : vec3) (k : Q) :
  nonneg3 acc → nonneg3 t → (0 <= k)%Q → nonneg3 (vadd acc (vscale t k)).
Proof.
  destruct acc as [[r g] b], t as [[r' g'] b']. unfold nonneg3. cbn.
  intros (? & ? & ?) (? & ? & ?) ?.
  pose proof (Qmult_le_0_compat r' k ltac:(done) ltac:(done)).
  pose proof (Qmult_le_0_compat g' k ltac:(done) ltac:(done)).
  pose proof (Qmult_le_0_compat b' k ltac:(done) ltac:(done)).
  set (x1 := (r' * k)%Q) in *. set (x2 := (g' * k)%Q) in *. set (x3 := (b' * k)%Q) in *.
  split_and!; lra.
Qed.

(** The blur of taps without negative channels has none. *)
Lemma blurTaps_nonneg (t : Z → Z → vec3) :
  (∀ i j, nonneg3 (t i j)) → nonneg3 (blurTaps t).
Proof.
  intros Ht. unfold blurTaps.
  assert (nonneg3 (0, 0, 0)%Q) as Hacc by (unfold nonneg3; cbn; split_and!; lra).
  revert Hacc. generalize (0, 0, 0)%Q. generalize (seqZ (-2) 5) at 2.
  intros js. induction js as [|j js IH]; intros acc Hacc; [done|].
  cbn [foldl]. apply IH. revert acc Hacc. generalize (seqZ (-2) 5).
  intros ks. induction ks as [|i ks IHk]; intros acc Hacc; [done|].
  cbn [foldl]. apply IHk. apply nonneg3_vadd_vscale; [done|apply Ht|apply weight_nonneg].
Qed.

Lemma texel_nonneg (img : HTMLImageElement) (s t : Z) :
  (0 ≤ (pixel img s t).1.1 ∧ 0 ≤ (pixel img s t).1.2 ∧ 0 ≤ (pixel img s t).2) →
  nonneg3 (texel img s t).
Proof.
  unfold texel, nonneg3. destruct (pixel img s t) as [[r g] b]. cbn.
  intros (Hr & Hg & Hb).
  apply (inject_Z_le 0) in Hr, Hg, Hb. change (inject_Z 0) with 0%Q in *.
  split_and!; apply Qle_shift_div_l; lra.
Qed.

Lemma unorm8_quantize1_onGrid (qF : Z) (c : Q) :
  0 < qF → (0 <= c)%Q → onGrid qF (unorm8 (Shader.quantize1 (inject_Z qF) c)).
Proof.
  intros HqF Hc. rewrite unorm8_quantize1 by done.
  pose proof (specQuantize_nonneg qF c HqF Hc) as Hnn.
  unfold specQuantize in *. exists (specRound (c * 255 / inject_Z qF)). split; [nia|done].
Qed.

Lemma qFactor_pos (simplification : Z) : 4 ≤ qFactor simplification.
Proof. unfold qFactor. lia. Qed.

(** X10: the palette of the buffer.  For a picture whose channel values
    are not negative, each of the three colour bytes of every pixel of
    packedData is a multiple of qFactor or, where that multiple would
    exceed 255, the byte 255; the fourth byte is 0 or 255. *)
Theorem X10_buffer_bytes_on_the_grid (img : HTMLImageElement) (simplification y x : Z) :
  (∀ s t, 0 ≤ (pixel img s t).1.1 ∧ 0 ≤ (pixel img s t).1.2 ∧ 0 ≤ (pixel img s t).2) →
  0 ≤ y < naturalHeight img → 0 ≤ x < naturalWidth img →
  let packedData := (processOnGPU img simplification).1.1 in
  let i := srcIdx (naturalWidth img) y x in
  onGrid (qFactor simplification) (byteAt packedData i) ∧
  onGrid (qFactor simplification) (byteAt packedData (i + 1)) ∧
  onGrid (qFactor simplification) (byteAt packedData (i + 2)) ∧
  (byteAt packedData (i + 3) = 0 ∨ byteAt packedData (i + 3) = 255).
Proof.
  intros Hpix Hy Hx packedData i.
  pose proof (qFactor_pos simplification) as Hq.
  pose proof (lookup_packedData img simplification y x) as Hl.
  unfold readPixel in Hl. rewrite fragColor_at in Hl by lia.
  unfold fragColorAt in Hl. cbv zeta in Hl.
  pose proof (blurTaps_nonneg (pictureSample img x y)) as Hnn.
  destruct (blurTaps (pictureSample img x y)) as [[r g] b].
  destruct Hnn as (Hr & Hg & Hb); [intros; apply texel_nonneg, Hpix|]. cbn in Hr, Hg, Hb.
  unfold Shader.quantize, vmap in Hl.
  set (a := if Qlt_le_dec _ _ then 1%Q else 0%Q) in Hl.
  pose proof (Hl 0%nat _ Hy Hx eq_refl) as H0.
  pose proof (Hl 1%nat _ Hy Hx eq_refl) as H1.
  pose proof (Hl 2%nat _ Hy Hx eq_refl) as H2.
  pose proof (Hl 3%nat _ Hy Hx eq_refl) as H3.
  rewrite Z.add_0_r in H0.
  change (Z.of_nat 1) with 1 in H1. change (Z.of_nat 2) with 2 in H2.
  change (Z.of_nat 3) with 3 in H3.
  unfold byteAt. fold packedData i in H0, H1, H2, H3. rewrite H0, H1, H2, H3. cbn [default].
  split_and!; [apply unorm8_quantize1_onGrid; (lia || done)..|].
  subst a. destruct (Qlt_le_dec _ _); [right|left]; by vm_compute.
Qed.

Lemma X10_buffer_bytes_on_the_grid_witness :
  0 ≤ 0 < naturalHeight twoRows ∧ 0 ≤ 0 < naturalWidth twoRows ∧
  onGrid (qFactor 0) (byteAt (processOnGPU twoRows 0).1.1 (srcIdx (naturalWidth twoRows) 0 0)).
Proof.
  split; [simpl; lia|]. split; [simpl; lia|].
  apply (X10_buffer_bytes_on_the_grid twoRows 0 0 0); [|simpl; lia..].
  intros s t. simpl. case_decide; simpl; lia.
Defined.

(** ** A picture of one colour *)

Lemma veq_sym (u v : vec3) : veq u v → veq v u.
Proof.
  destruct u as [[r1 g1] b1], v as [[r2 g2] b2]. cbn. intros (-> & -> & ->). done.
Qed.

(** X13: a picture of one colour gives a buffer of one colour.  When
    every pixel of the picture is (r, g, b), every pixel of packedData
    holds the colour whose bytes are min(255, round(v * 0.987 / qFactor) *
    qFactor) for v = r, g, b: the blur scales a flat picture by the sum
    of the kernel, also at its border. *)
Theorem X13_flat_picture_flat_buffer (img : HTMLImageElement)
    (simplification r g b y x : Z) :
  0 ≤ r → 0 ≤ g → 0 ≤ b →
  (∀ x' y', 0 ≤ x' < naturalWidth img → 0 ≤ y' < naturalHeight img →
            pixel img x' y' = (r, g, b)) →
  0 ≤ y < naturalHeight img → 0 ≤ x < naturalWidth img →
  colorAt (processOnGPU img simplification).1.1 (naturalWidth img) y x =
  packRGB (flatByte simplification r) (flatByte simplification g) (flatByte simplification b).
Proof.
  intros Hr Hg Hb Hflat Hy Hx.
  pose proof (qFactor_pos simplification) as Hq.
  rewrite colorAt_processOnGPU by done. unfold pixelColor, fragColorAt. cbv zeta.
  set (col := (inject_Z r / 255, inject_Z g / 255, inject_Z b / 255)%Q).
  assert (blurTaps (pictureSample img x y) = blurTaps (λ _ _, col)) as ->.
  { apply blurTaps_ext. intros i j Hi Hj. unfold pictureSample, texel.
    rewrite Hflat by (unfold clampZ; lia). done. }
  rewrite (quantize_veq _ _ (vscale col 0.987)).
  2:{ eapply veq_trans.
      - apply veq_sym, (blurTaps_veq (λ _, col) (0, 0)%Q (0, 0)%Q). intros. apply veq_refl.
      - apply (blur_constant (λ _, col) (0, 0)%Q (0, 0)%Q col). intros. apply veq_refl. }
  unfold col, vscale, vmap, Shader.quantize, vmap.
  apply (inject_Z_le 0) in Hr, Hg, Hb. change (inject_Z 0) with 0%Q in *.
  unfold flatByte.
  rewrite !unorm8_quantize1; [done|lia| |lia| |lia|].
  all: apply Qmult_le_0_compat; [apply Qle_shift_div_l; lra|lra].
Qed.

Lemma X13_flat_picture_flat_buffer_witness :
  0 ≤ 255 ∧ 0 ≤ 0 < naturalHeight whitePixel ∧ 0 ≤ 0 < naturalWidth whitePixel ∧
  colorAt (processOnGPU whitePixel 0).1.1 (naturalWidth whitePixel) 0 0 =
  packRGB (flatByte 0 255) (flatByte 0 255) (flatByte 0 255).
Proof.
  split; [lia|]. split; [simpl; lia|]. split; [simpl; lia|].
  apply (X13_flat_picture_flat_buffer whitePixel 0 255 255 255 0 0);
    [lia | lia | lia | reflexivity | simpl; lia | simpl; lia].
Defined.

(** ** A picture without pixels *)

Lemma shapes_no_pixels (packedData : list Z) (width height simplification : Z) :
  width ≤ 0 ∨ height ≤ 0 → shapes packedData width height simplification = [].
Proof.
  intros Hsize. apply (fmap_nil_inv fst). rewrite shapes_colors.
  assert ((repack packedData width height).2 = []) as ->; [|done].
  apply elem_of_nil_inv. intros c (_ & y & x & Hy & Hx & _)%elem_of_uniqueColors. lia.
Qed.

(** X14: the tracer has no check on the size of the picture.  In a
    browser that gives a WebGL 2 context, compiles the shaders and raises
    nothing else, the handler returns a document also for a decoded
    picture of width 0 or height 0: the opening tag with the viewBox of
    the picture, immediately followed by the closing tag. *)
Theorem X14_empty_picture_empty_document (browser : Browser)
    (gl : WebGL2RenderingContext) (img : HTMLImageElement) (simplification : Z) :
  getContext browser = Some gl → createProgram gl = true →
  thrown browser img simplification = None →
  naturalWidth img = 0 ∨ naturalHeight img = 0 →
  onload browser img simplification =
  Returns ("<svg viewBox=" +:+ dq +:+ "0 0 " +:+ pretty (naturalWidth img) +:+ " " +:+
           pretty (naturalHeight img) +:+ dq +:+
           " xmlns=" +:+ dq +:+ "http://www.w3.org/2000/svg" +:+ dq +:+
           " shape-rendering=" +:+ dq +:+ "crispEdges" +:+ dq +:+ ">" +:+ "</svg>").
Proof.
  intros Hgl Hprog Hthrown Hsize.
  unfold onload. rewrite Hgl, Hprog, Hthrown. cbn [negb].
  rewrite traceImageOffline_vectorize, vectorize_shapes.
  rewrite shapes_no_pixels by lia. reflexivity.
Qed.

Lemma X14_empty_picture_empty_document_witness :
  onload workingBrowser {| naturalWidth := 0; naturalHeight := 3; pixel := λ _ _, (1, 2, 3) |}
         20 =
  Returns ("<svg viewBox=" +:+ dq +:+ "0 0 " +:+ pretty 0 +:+ " " +:+ pretty 3 +:+ dq +:+
           " xmlns=" +:+ dq +:+ "http://www.w3.org/2000/svg" +:+ dq +:+
           " shape-rendering=" +:+ dq +:+ "crispEdges" +:+ dq +:+ ">" +:+ "</svg>").
Proof.
  apply (X14_empty_picture_empty_document workingBrowser workingContext
           {| naturalWidth := 0; naturalHeight := 3; pixel := λ _ _, (1, 2, 3) |} 20);
    [reflexivity | reflexivity | reflexivity |].
  left. reflexivity.
Defined.

(** * Properties of the batch queue *)

Import App.

Lemma settleItem_id (o : Settled) (bi : BatchItem) : id (settleItem o bi) = id bi.
Proof. by destruct o. Qed.

(** The two updates of one pass amount to one. *)
Lemma processItem_settle (convert : File → Settled) (item : BatchItem)
    (prev : list BatchItem) :
  processItem convert item prev =
  (λ bi, if decide (id bi = id item) then settleItem (convert (file item)) bi else bi)
    <$> prev.
Proof.
  unfold processItem, updateById. destruct (convert (file item)) as [svg|message];
    rewrite <- list_fmap_compose; apply list_fmap_ext; intros _ bi _; cbn;
    destruct (decide (id bi = id item)) as [Heq|Hne]; cbn;
    rewrite ?decide_True by done; rewrite ?decide_False by done; done.
Qed.

Lemma lookupItem_Some (itemId : string) (items : list BatchItem) (it : BatchItem) :
  lookupItem itemId items = Some it → it ∈ items ∧ id it = itemId.
Proof.
  induction items as [|a items IH]; [done|]. cbn. case_decide.
  - intros [= <-]. split; [left|done].
  - intros [? ?]%IH. split; [by right|done].
Qed.

Lemma lookupItem_None (itemId : string) (items : list BatchItem) :
  lookupItem itemId items = None ↔ itemId ∉ id <$> items.
Proof.
  induction items as [|a items IH]; cbn.
  - split; [intros _; apply not_elem_of_nil|done].
  - rewrite not_elem_of_cons. case_decide; [|naive_solver]. split; [done|].
    intros [? _]. congruence.
Qed.

(** The loop, when [n] items are started before it ends or is cancelled. *)
Lemma batchLoop_spec (convert : File → Settled) (aborted : nat → bool)
    (items : list BatchItem) :
  ∀ (k n : nat) (prev : list BatchItem),
    NoDup (id <$> items) →
    (n ≤ length items)%nat →
    (∀ j, (j < n)%nat → aborted (k + j)%nat = false) →
    ((n < length items)%nat → aborted (k + n)%nat = true) →
    batchLoop convert aborted k items prev =
    (λ bi, match lookupItem (id bi) (take n items) with
           | Some it => settleItem (convert (file it)) bi
           | None => bi
           end) <$> prev.
Proof.
  induction items as [|it rest IH]; intros k n prev Hnd Hn Hrun Hstop.
  - cbn. rewrite take_nil. cbn. by rewrite list_fmap_id.
  - apply NoDup_cons in Hnd as [Hit Hnd]. destruct n as [|n].
    + cbn. rewrite Nat.add_0_r in Hstop. rewrite Hstop by (cbn; lia).
      by rewrite list_fmap_id.
    + cbn [batchLoop]. pose proof (Hrun 0%nat ltac:(lia)) as H0.
      rewrite Nat.add_0_r in H0. rewrite H0.
      rewrite (IH (S k) n); [|done|cbn in Hn; lia| |].
      * rewrite processItem_settle, <- list_fmap_compose. apply list_fmap_ext.
        intros _ bi _. cbn. destruct (decide (id bi = id it)) as [Heq|Hne].
        -- rewrite settleItem_id, decide_True by done.
           assert (lookupItem (id bi) (take n rest) = None) as ->; [|done].
           apply lookupItem_None. rewrite Heq. intros Hin. apply Hit.
           rewrite fmap_take in Hin. by apply (subseteq_take n) in Hin.
        -- rewrite decide_False by done. done.
      * intros j Hj. replace (S k + j)%nat with (k + S j)%nat by lia. apply Hrun. lia.
      * intros Hlt. replace (S k + n)%nat with (k + S n)%nat by lia. apply Hstop. cbn. lia.
Qed.

(** Items of a queue without duplicate ids are told apart by their id. *)
Lemma id_inj_in (l : list BatchItem) (a b : BatchItem) :
  NoDup (id <$> l) → a ∈ l → b ∈ l → id a = id b → a = b.
Proof.
  intros Hnd Ha Hb Hid.
  apply list_elem_of_lookup_1 in Ha as [i Hi]. apply list_elem_of_lookup_1 in Hb as [j Hj].
  assert (i = j) as ->; [|congruence].
  apply (NoDup_lookup (id <$> l) i j (id a)); [done|..]; rewrite list_lookup_fmap.
  - by rewrite Hi.
  - rewrite Hj. cbn. by rewrite Hid.
Qed.

Lemma lookupItem_in (l l' : list BatchItem) (bi : BatchItem) :
  NoDup (id <$> l) → l' ⊆ l → bi ∈ l →
  lookupItem (id bi) l' = if decide (id bi ∈ id <$> l') then Some bi else None.
Proof.
  intros Hnd Hsub Hbi. case_decide as Hin.
  - destruct (lookupItem (id bi) l') as [it|] eqn:E.
    + apply lookupItem_Some in E as [Hit Hid]. f_equal.
      apply (id_inj_in l); [done|by apply Hsub|done|done].
    + by apply lookupItem_None in E.
  - by apply lookupItem_None.
Qed.

(** The queue after a batch in which [n] items were started. *)
Lemma processBatch_started (convert : File → Settled) (aborted : nat → bool)
    (st : AppState) (n : nat) :
  NoDup (id <$> batchItems st) → isProcessing st = false →
  let itemsToProcess := filter (λ item, status item ≠ COMPLETED) (batchItems st) in
  (n ≤ length itemsToProcess)%nat →
  (∀ j, (j < n)%nat → aborted j = false) →
  ((n < length itemsToProcess)%nat → aborted n = true) →
  batchItems (processBatch convert aborted st) =
  (λ bi, if decide (id bi ∈ id <$> take n itemsToProcess)
         then settleItem (convert (file bi)) bi else bi) <$> batchItems st.
Proof.
  intros Hnd Hidle items Hn Hrun Hstop. unfold processBatch.
  destruct (decide (length (batchItems st) = 0%nat ∨ isProcessing st = true)) as [[H0|Hp]|_].
  - apply length_zero_iff_nil in H0. rewrite H0. done.
  - congruence.
  - cbn [batchItems]. fold items.
    assert (items ⊆ batchItems st) as Hsub.
    { intros bi Hbi. by apply list_elem_of_filter in Hbi as [_ Hbi]. }
    rewrite (batchLoop_spec convert aborted items 0 n); [|..|done|done|done].
    + apply list_fmap_ext. intros _ bi Hbi%list_elem_of_lookup_2. cbn.
      rewrite (lookupItem_in (batchItems st)); [|done| |done].
      * by case_decide.
      * intros it Hit. apply Hsub. by apply (subseteq_take n).
    + apply (NoDup_fmap_2_strong id).
      * intros a b Ha Hb. apply (id_inj_in (batchItems st)); [done|by apply Hsub..].
      * apply NoDup_filter. by apply NoDup_fmap_1 in Hnd.
Qed.

(** X15: a batch that is not cancelled settles every item by itself.
    With distinct ids, processBatch leaves the items that were COMPLETED
    as they are and replaces every other item by the outcome of the
    conversion of its own file: COMPLETED with the result and progress
    100 (an error text of an earlier failure stays), or ERROR with the
    error text and progress 0 (an earlier result stays).  The failure of
    one item does not touch another. *)
Theorem X15_batch_settles_each_item_by_itself (convert : File → Settled)
    (aborted : nat → bool) (st : AppState) :
  NoDup (id <$> batchItems st) → isProcessing st = false →
  (∀ k, aborted k = false) →
  processBatch convert aborted st =
  {| batchItems :=
       (λ bi, if decide (status bi = COMPLETED) then bi
              else settleItem (convert (file bi)) bi) <$> batchItems st;
     isProcessing := false |}.
Proof.
  intros Hnd Hidle Hrun.
  pose proof (processBatch_started convert aborted st
                (length (filter (λ item, status item ≠ COMPLETED) (batchItems st)))
                Hnd Hidle ltac:(done) ltac:(done) ltac:(lia)) as Hitems.
  assert (isProcessing (processBatch convert aborted st) = false) as Hp.
  { unfold processBatch. case_decide; [done|]. done. }
  destruct (processBatch convert aborted st) as [items p]. cbn in Hitems, Hp. subst p.
  f_equal. rewrite Hitems. rewrite firstn_all.
  apply list_fmap_ext. intros _ bi Hbi%list_elem_of_lookup_2. cbn.
  destruct (decide (status bi = COMPLETED)) as [Hc|Hc].
  - rewrite decide_False; [done|].
    intros (it & Hid & Hit)%list_elem_of_fmap. apply list_elem_of_filter in Hit as [Hs Hit].
    assert (bi = it) by (by apply (id_inj_in (batchItems st))). congruence.
  - rewrite decide_True; [done|]. apply list_elem_of_fmap. exists bi. split; [done|].
    by apply list_elem_of_filter.
Qed.

Lemma X15_batch_settles_each_item_by_itself_witness :
  processBatch (λ _, Rejected None) (λ _, false) exampleQueue =
  {| batchItems :=
       (λ bi, if decide (status bi = COMPLETED) then bi
              else settleItem (Rejected None) bi) <$> batchItems exampleQueue;
     isProcessing := false |}.
Proof.
  apply (X15_batch_settles_each_item_by_itself (λ _, Rejected None) (λ _, false)
           exampleQueue).
  - apply (bool_decide_unpack _). vm_compute. reflexivity.
  - reflexivity.
  - reflexivity.
Defined.



Lemma processItem_keeps (convert : File → Settled) (item : BatchItem)
    (initial prev : list BatchItem) :
  Forall2 untouchedOrSettled initial prev →
  Forall2 untouchedOrSettled initial (processItem convert item prev).
Proof.
  intros H. rewrite processItem_settle. apply Forall2_fmap_r.
  eapply Forall2_impl; [exact H|]. intros bi bi' (Hid & Hf & Hp & Hs). cbn.
  case_decide; [|done]. unfold untouchedOrSettled.
  destruct (convert (file item)); cbn; split_and!; auto.
Qed.

Lemma batchLoop_keeps (convert : File → Settled) (aborted : nat → bool)
    (initial items : list BatchItem) :
  ∀ (k : nat) (prev : list BatchItem),
    Forall2 untouchedOrSettled initial prev →
    Forall2 untouchedOrSettled initial (batchLoop convert aborted k items prev).
Proof.
  induction items as [|it rest IH]; intros k prev Hprev; [exact Hprev|].
  cbn [batchLoop]. destruct (aborted k); [exact Hprev|]. apply IH. by apply processItem_keeps.
Qed.

(** X17: processBatch keeps the queue.  Whatever the conversions do,
    whenever the batch is cancelled, and even with duplicate ids, the
    queue afterwards has the same items in the same order, each with its
    id, file and preview, and each either exactly as before or with
    status COMPLETED or ERROR: no item is lost, added, reordered or left
    ANALYZING by the loop. *)
Theorem X17_batch_keeps_the_queue (convert : File → Settled) (aborted : nat → bool)
    (st : AppState) :
  Forall2 (λ bi bi', id bi' = id bi ∧ file bi' = file bi ∧ previewUrl bi' = previewUrl bi ∧
                     (bi' = bi ∨ status bi' = COMPLETED ∨ status bi' = ERROR))
          (batchItems st) (batchItems (processBatch convert aborted st)).
Proof.
  assert (Forall2 untouchedOrSettled (batchItems st) (batchItems st)) as Hrefl.
  { apply Forall2_same_length_lookup_2; [done|]. intros i x y Hx Hy.
    assert (x = y) as -> by congruence. unfold untouchedOrSettled. auto. }
  unfold processBatch. case_decide; [exact Hrefl|]. cbn [batchItems].
  by apply batchLoop_keeps.
Qed.

(** X18: what the offline batch writes into an item.  In a batch that is
    not cancelled, over a queue with distinct ids, an item that was not
    COMPLETED ends as follows.  If its file does not decode: ERROR with
    the text 'Processing failed', because the rejection reason is a
    string without a message.  If the browser gives no WebGL 2 context:
    ERROR with 'WebGL 2 not supported.'.  If no program is created or a
    shader does not compile: ERROR with 'Failed to compile shaders.'.  If
    another exception is caught: ERROR with its message, or with
    'Processing failed' when the message is empty.  Otherwise: COMPLETED
    with the traced document as result.  Progress is 100 on success and 0
    on failure; result and error of earlier runs are kept where the
    update does not set them. *)
Theorem X18_offline_batch_outcome (browser : Browser) (simplification : Z)
    (aborted : nat → bool) (st : AppState) (bi : BatchItem) :
  NoDup (id <$> batchItems st) → isProcessing st = false →
  (∀ k, aborted k = false) →
  bi ∈ batchItems st → status bi ≠ COMPLETED →
  let final :=
    batchItems (processBatch (λ file, traceImageOfflinePromise browser file simplification)
                  aborted st) in
  let failed (text : string) :=
    {| id := id bi; file := file bi; previewUrl := previewUrl bi;
       status := ERROR; result := result bi; error := Some text; progress := 0 |} in
  match decoded (file bi) with
  | None => failed "Processing failed" ∈ final
  | Some img =>
      match getContext browser with
      | None => failed "WebGL 2 not supported." ∈ final
      | Some gl =>
          if createProgram gl then
            match thrown browser img simplification with
            | Some message =>
                failed (if decide (message = EmptyString) then "Processing failed"
                        else message) ∈ final
            | None =>
                {| id := id bi; file := file bi; previewUrl := previewUrl bi;
                   status := COMPLETED;
                   result := Some (traceImageOffline img simplification);
                   error := error bi; progress := 100 |} ∈ final
            end
          else failed "Failed to compile shaders." ∈ final
      end
  end.
Proof.
  intros Hnd Hidle Hrun Hbi Hs final failed.
  assert (settleItem (traceImageOfflinePromise browser (file bi) simplification) bi ∈ final)
    as Hin.
  { unfold final.
    rewrite (processBatch_started _ aborted st
               (length (filter (λ item, status item ≠ COMPLETED) (batchItems st))))
      by (done || lia).
    rewrite firstn_all. apply list_elem_of_fmap. exists bi. split; [|done].
    rewrite decide_True; [done|]. apply list_elem_of_fmap. exists bi. split; [done|].
    by apply list_elem_of_filter. }
  unfold traceImageOfflinePromise, onload in Hin.
  destruct (decoded (file bi)) as [img|]; [|exact Hin].
  destruct (getContext browser) as [gl|]; [|exact Hin].
  destruct (createProgram gl); cbn [negb] in Hin; [|exact Hin].
  destruct (thrown browser img simplification) as [message|]; exact Hin.
Qed.

Lemma X18_offline_batch_outcome_witness :
  {| id := id freshItem; file := file freshItem; previewUrl := previewUrl freshItem;
     status := COMPLETED; result := Some (traceImageOffline twoRows 0);
     error := error freshItem; progress := 100 |}
  ∈ batchItems (processBatch (λ file, traceImageOfflinePromise workingBrowser file 0)
                  (λ _, false) exampleQueue).
Proof.
  apply (X18_offline_batch_outcome workingBrowser 0 (λ _, false) exampleQueue freshItem).
  - apply (bool_decide_unpack _). vm_compute. reflexivity.
  - reflexivity.
  - reflexivity.
  - left.
  - discriminate.
Defined.

(** ** The progress shown for the queue *)

Lemma totalProgress_bounds (items : list BatchItem) (lo hi : Z) :
  Forall (λ bi, lo ≤ progress bi ≤ hi) items →
  ∀ acc, acc + lo * Z.of_nat (length items)
         ≤ foldl (λ acc item, acc + progress item) acc items
         ≤ acc + hi * Z.of_nat (length items).
Proof.
  induction 1 as [|bi items Hbi _ IH]; intros acc; [cbn; lia|].
  cbn [foldl length]. specialize (IH (acc + progress bi)). lia.
Qed.

(** X19: the percentage shown for the queue lies between the smallest and
    the largest progress of its items: within 0..100 when all items are,
    and 100 exactly when every item is at 100. *)
Theorem X19_overallProgress_range (batchItems : list BatchItem) (lo hi : Z) :
  batchItems ≠ [] →
  Forall (λ bi, lo ≤ progress bi ≤ hi) batchItems →
  lo ≤ overallProgress batchItems ≤ hi.
Proof.
  intros Hne Hall. unfold overallProgress.
  case_decide as Hlen; [by apply length_zero_iff_nil in Hlen|].
  pose proof (totalProgress_bounds _ _ _ Hall 0) as Htot. cbv zeta.
  set (total := foldl _ 0 batchItems) in *.
  set (n := Z.of_nat (length batchItems)) in *.
  assert (0 < n) as Hn by lia.
  assert (0 < inject_Z n)%Q as Hn' by (by apply (inject_Z_lt 0)).
  unfold specRound. split.
  - apply Z.le_trans with (Qfloor (inject_Z lo)); [by rewrite Qfloor_Z|].
    apply Qfloor_resp_le.
    assert (inject_Z lo <= inject_Z total / inject_Z n)%Q; [|lra].
    apply Qle_shift_div_l; [done|]. rewrite <- inject_Z_mult. apply inject_Z_le. lia.
  - apply Z.le_trans with (Qfloor (inject_Z hi + (1 # 2))).
    + apply Qfloor_resp_le.
      assert (inject_Z total / inject_Z n <= inject_Z hi)%Q; [|lra].
      apply Qle_shift_div_r; [done|]. rewrite <- inject_Z_mult. apply inject_Z_le. lia.
    + rewrite (Qfloor_unique _ hi); [done|lra..].
Qed.

Lemma X19_overallProgress_range_witness :
  0 ≤ overallProgress (batchItems exampleQueue) ≤ 100.
Proof.
  apply (X19_overallProgress_range (batchItems exampleQueue) 0 100).
  - discriminate.
  - repeat constructor; simpl; lia.
Defined.
